(** * Bulk removal engine of the chat sidebar: model and verification

    Shallow embedding of [src/content.js] (class [ChatBulkUI]; the
    TypeScript twin is [src/src/content/main.ts]).  The file is organised
    as follows.

    - [URL]: the part of the browser's URL parser that [normalizePath]
      relies on ([new URL(href, location.origin).pathname]).
    - Locator: [normalizePath], [extractIdFromHref], [findSidebar],
      [findRowByHref] and the ranked finders.
    - [Task]: a small resumption monad for the asynchronous code (state,
      exceptions, suspension points), with its interpreter.
    - Interaction primitives and the per-item state machine: [waitFor],
      [scrollIntoViewSmart], [realClick], [openMenu], [deleteViaUI].
    - The removal engine: [runBulkDelete] and its worker pool.
    - [EventBus], [Bootstrap], [GenRegistry]: the event bus of the module
      framework, the order in which [bootstrap] initialises the modules,
      and the variable names of [scripts/gen-registry.mjs].
    - [Selection]: the checkboxes of the rows and the map [selected].

    Strings are byte strings (UTF-8): every character the code inspects
    ('/', '?', the identifier alphabet) is ASCII, and the URL parser
    percent-encodes byte by byte. *)

From Stdlib Require Import List String Ascii ZArith NArith Lia Bool Arith.
Import ListNotations.

Set Implicit Arguments.

(* ===================================================================== *)
(** * Characters and character strings *)
(* ===================================================================== *)

Definition chars := list ascii.

Definition code (c : ascii) : nat := nat_of_ascii c.

Definition is_char (k : ascii) (c : ascii) : bool := Ascii.eqb c k.

Definition is_upper (c : ascii) : bool := (65 <=? code c) && (code c <=? 90).
Definition is_lower (c : ascii) : bool := (97 <=? code c) && (code c <=? 122).
Definition is_alpha (c : ascii) : bool := is_upper c || is_lower c.
Definition is_digit (c : ascii) : bool := (48 <=? code c) && (code c <=? 57).

Definition to_lower (c : ascii) : ascii :=
  if is_upper c then ascii_of_nat (code c + 32) else c.

Fixpoint take_while (p : ascii -> bool) (s : chars) : chars :=
  match s with
  | [] => []
  | c :: r => if p c then c :: take_while p r else []
  end.

Fixpoint drop_while (p : ascii -> bool) (s : chars) : chars :=
  match s with
  | [] => []
  | c :: r => if p c then drop_while p r else s
  end.

Fixpoint starts_with (p s : chars) : bool :=
  match p, s with
  | [], _ => true
  | a :: p', b :: s' => Ascii.eqb a b && starts_with p' s'
  | _ :: _, [] => false
  end.

Definition chars_eqb (a b : chars) : bool :=
  if list_eq_dec ascii_dec a b then true else false.

(** [s.replace(/\/+$/, '')]: the trailing run of slashes is removed. *)
Definition strip_trailing_slashes (s : chars) : chars :=
  rev (drop_while (is_char "/") (rev s)).

(** [s.split('?')[0]]: the text before the first question mark. *)
Definition before_question (s : chars) : chars :=
  take_while (fun c => negb (is_char "?" c)) s.

(* ===================================================================== *)
(** * The platform's URL parser *)
(* ===================================================================== *)

(** [new URL(href, location.origin)] is a browser primitive.  The module
    follows the WHATWG basic URL parser for a base URL that is an origin
    with one of the special schemes other than [file] (the page the
    content script is injected in is served over http or https): scheme
    detection, relative references, the authority, the path state with
    its dot segments and percent-encoding.  Two parts of the platform stay
    abstract, as fields of [Platform]: whether a host name is accepted
    (IDNA, IPv4 and IPv6 literals), and what the parser does for [file:]
    and for non-special schemes. *)
Module URL.

Inductive special : Type := Ftp | Http | Https | Ws | Wss.

Definition special_eqb (a b : special) : bool :=
  match a, b with
  | Ftp, Ftp | Http, Http | Https, Https | Ws, Ws | Wss, Wss => true
  | _, _ => false
  end.

Definition special_of (scheme : chars) : option special :=
  if chars_eqb scheme (list_ascii_of_string "ftp") then Some Ftp
  else if chars_eqb scheme (list_ascii_of_string "http") then Some Http
  else if chars_eqb scheme (list_ascii_of_string "https") then Some Https
  else if chars_eqb scheme (list_ascii_of_string "ws") then Some Ws
  else if chars_eqb scheme (list_ascii_of_string "wss") then Some Wss
  else None.

Class Platform : Type := {
  (** scheme of [location.origin] *)
  origin_scheme : special;
  (** the host parser accepts this host name *)
  host_valid : chars -> bool;
  (** [pathname] for [file:] and non-special schemes, given the
      lower-cased scheme and the text after the colon; [None] when the
      constructor throws *)
  foreign_pathname : chars -> chars -> option chars
}.

(** ** Preprocessing *)

Definition is_c0_or_space (c : ascii) : bool := code c <=? 32.

Definition is_tab_or_newline (c : ascii) : bool :=
  (code c =? 9) || (code c =? 10) || (code c =? 13).

Definition trim (s : chars) : chars :=
  rev (drop_while is_c0_or_space (rev (drop_while is_c0_or_space s))).

Definition preprocess (s : chars) : chars :=
  filter (fun c => negb (is_tab_or_newline c)) (trim s).

(** ** Scheme start state and scheme state *)

Definition is_scheme_char (c : ascii) : bool :=
  is_alpha c || is_digit c || is_char "+" c || is_char "-" c || is_char "." c.

Fixpoint scheme_state (buffer : chars) (s : chars) : option (chars * chars) :=
  match s with
  | [] => None
  | c :: r =>
      if is_char ":" c then Some (rev buffer, r)
      else if is_scheme_char c then scheme_state (to_lower c :: buffer) r
      else None
  end.

Definition scheme_start_state (s : chars) : option (chars * chars) :=
  match s with
  | c :: r => if is_alpha c then scheme_state [to_lower c] r else None
  | [] => None
  end.

(** ** Path state *)

Definition is_slash (c : ascii) : bool := is_char "/" c || is_char "\" c.

Definition is_query_or_fragment (c : ascii) : bool :=
  is_char "?" c || is_char "#" c.

(** The path percent-encode set. *)
Definition in_path_encode_set (c : ascii) : bool :=
  (code c <=? 31) || (126 <? code c)
  || is_char " " c || is_char "034" c || is_char "#" c || is_char "<" c
  || is_char ">" c || is_char "?" c || is_char "^" c || is_char "`" c
  || is_char "{" c || is_char "}" c.

Definition hex_digit (n : nat) : ascii :=
  if n <? 10 then ascii_of_nat (48 + n) else ascii_of_nat (55 + n).

Definition percent_encode_char (c : ascii) : chars :=
  if in_path_encode_set c
  then ["%"%char; hex_digit (code c / 16); hex_digit (code c mod 16)]
  else [c].

Definition percent_encode (s : chars) : chars := flat_map percent_encode_char s.

Definition lower (s : chars) : chars := map to_lower s.

Definition is_single_dot (buffer : chars) : bool :=
  chars_eqb buffer (list_ascii_of_string ".")
  || chars_eqb (lower buffer) (list_ascii_of_string "%2e").

Definition is_double_dot (buffer : chars) : bool :=
  chars_eqb buffer (list_ascii_of_string "..")
  || chars_eqb (lower buffer) (list_ascii_of_string ".%2e")
  || chars_eqb (lower buffer) (list_ascii_of_string "%2e.")
  || chars_eqb (lower buffer) (list_ascii_of_string "%2e%2e").

(** The raw segments of a path: the text between separators.  For a
    special scheme the backslash separates as the slash does. *)
Fixpoint split_segments (cur : chars) (s : chars) : list chars :=
  match s with
  | [] => [rev cur]
  | c :: r =>
      if is_slash c then rev cur :: split_segments [] r
      else split_segments (c :: cur) r
  end.

Definition shorten (path : list chars) : list chars := removelast path.

Definition is_last (more : list chars) : bool :=
  match more with [] => true | _ :: _ => false end.

(** One pass of the path state per raw segment: a double-dot segment
    shortens the path, a single-dot segment is dropped, and either one
    leaves an empty segment behind when it is the last; any other
    segment is appended percent-encoded. *)
Fixpoint path_segments (path : list chars) (raws : list chars) : list chars :=
  match raws with
  | [] => path
  | raw :: more =>
      let buffer := percent_encode raw in
      let path' :=
        if is_double_dot buffer then
          (if is_last more then shorten path ++ [[]] else shorten path)
        else if is_single_dot buffer then
          (if is_last more then path ++ [[]] else path)
        else path ++ [buffer] in
      path_segments path' more
  end.

Definition path_state (path : list chars) (input : chars) : list chars :=
  path_segments path
    (split_segments [] (take_while (fun c => negb (is_query_or_fragment c)) input)).

(** ** Authority, host and port states *)

Definition is_authority_end (c : ascii) : bool :=
  is_slash c || is_query_or_fragment c.

(** Text after the last [@] of the authority, and whether one was seen. *)
Fixpoint after_last_at (seen : bool) (cur : chars) (s : chars) : bool * chars :=
  match s with
  | [] => (seen, rev cur)
  | c :: r =>
      if is_char "@" c then after_last_at true [] r
      else after_last_at seen (c :: cur) r
  end.

(** Host and port: split at the first colon outside brackets. *)
Fixpoint split_host (inside_brackets : bool) (buffer : chars) (s : chars)
  : chars * option chars :=
  match s with
  | [] => (rev buffer, None)
  | c :: r =>
      if is_char ":" c && negb inside_brackets then (rev buffer, Some r)
      else
        let inside :=
          if is_char "[" c then true
          else if is_char "]" c then false
          else inside_brackets in
        split_host inside (c :: buffer) r
  end.

Definition port_value (p : chars) : N :=
  fold_left (fun acc c => (acc * 10 + N.of_nat (code c - 48))%N) p 0%N.

Definition port_ok (p : chars) : bool :=
  forallb is_digit p && (port_value p <=? 65535)%N.

(** Result of the parser on the routes modelled here. *)
Inductive outcome : Type :=
| Parsed (path : list chars)
| Failure
| Foreign (scheme rest : chars).

Section Parser.
Context {P : Platform}.

Definition path_start_state (rest : chars) : outcome :=
  match rest with
  | c :: r => if is_slash c then Parsed (path_state [] r)
              else Parsed (path_state [] rest)
  | [] => Parsed (path_state [] [])
  end.

Definition authority_state (s : chars) : outcome :=
  let auth := take_while (fun c => negb (is_authority_end c)) s in
  let rest := drop_while (fun c => negb (is_authority_end c)) s in
  let '(at_seen, hostport) := after_last_at false [] auth in
  match hostport with
  | [] => Failure
  | _ :: _ =>
      let '(host, port) := split_host false [] hostport in
      match host with
      | [] => Failure
      | _ :: _ =>
          if negb (host_valid host) then Failure
          else match port with
               | None => path_start_state rest
               | Some p => if port_ok p then path_start_state rest else Failure
               end
      end
  end.

(** special authority slashes state and special authority ignore
    slashes state: every leading separator is skipped. *)
Definition special_authority (s : chars) : outcome :=
  authority_state (drop_while is_slash s).

(** relative state and relative slash state; the base is the origin,
    whose path is the single empty segment. *)
Definition relative_state (s : chars) : outcome :=
  match s with
  | [] => Parsed [[]]
  | c :: r =>
      if is_slash c then
        match r with
        | c' :: _ => if is_slash c' then special_authority r
                     else Parsed (path_state [] r)
        | [] => Parsed (path_state [] r)
        end
      else if is_query_or_fragment c then Parsed [[]]
      else Parsed (path_state (shorten [[]]) s)
  end.

Definition basic_url_parser (input : chars) : outcome :=
  let s := preprocess input in
  match scheme_start_state s with
  | None => relative_state s
  | Some (scheme, rest) =>
      match special_of scheme with
      | Some sch =>
          if special_eqb sch origin_scheme then relative_state rest
          else special_authority rest
      | None => Foreign scheme rest
      end
  end.

Definition serialize_path (path : list chars) : chars :=
  flat_map (fun seg => "/"%char :: seg) path.

(** [new URL(href, location.origin).pathname]; [None] when the
    constructor throws. *)
Definition pathname (href : chars) : option chars :=
  match basic_url_parser href with
  | Parsed path => Some (serialize_path path)
  | Failure => None
  | Foreign scheme rest => foreign_pathname scheme rest
  end.

End Parser.

(** Host names made of letters, digits, hyphens and dots, with no empty
    label: the plain DNS names, which every host parser accepts. *)
Definition is_ldh (c : ascii) : bool :=
  is_alpha c || is_digit c || is_char "-" c.

Definition dns_name (host : chars) : bool :=
  forallb (fun label => match label with [] => false | _ => forallb is_ldh label end)
          (split_segments [] (map (fun c => if is_char "." c then "/"%char else c) host))
  && negb (is_digit (last host "0"%char)).

(** An https page whose host parser accepts the plain DNS names and
    whose constructor throws on foreign schemes. *)
Definition https_page : Platform :=
  {| origin_scheme := Https;
     host_valid := dns_name;
     foreign_pathname := fun _ _ => None |}.

End URL.

(* ===================================================================== *)
(** * Locator: paths and identifiers *)
(* ===================================================================== *)

Section Locator.
Context {P : URL.Platform}.

Definition normalize_chars (href : chars) : chars :=
  match URL.pathname href with
  | Some p => strip_trailing_slashes p
  | None => strip_trailing_slashes (before_question href)
  end.

(** [normalizePath(href)] *)
Definition normalizePath (href : string) : string :=
  string_of_list_ascii (normalize_chars (list_ascii_of_string href)).

(** The identifier alphabet [[a-z0-9-]] under the [i] flag. *)
Definition is_id_char (c : ascii) : bool :=
  is_alpha c || is_digit c || is_char "-" c.

(** One attempt of [/\/c\/([a-z0-9-]+)(?:\/)?$/i] at the head of [s]:
    the group is greedy and what follows it is at most one slash. *)
Definition match_here (s : chars) : option chars :=
  match s with
  | a :: c :: b :: rest =>
      if is_char "/" a && is_char "c" (to_lower c) && is_char "/" b then
        let id := take_while is_id_char rest in
        match id, drop_while is_id_char rest with
        | _ :: _, [] => Some id
        | _ :: _, [d] => if is_char "/" d then Some id else None
        | _, _ => None
        end
      else None
  | _ => None
  end.

(** [path.match(...)]: the leftmost position where the pattern matches. *)
Fixpoint regex_match (s : chars) : option chars :=
  match match_here s with
  | Some id => Some id
  | None => match s with
            | [] => None
            | _ :: r => regex_match r
            end
  end.

(** [extractIdFromHref(href)] *)
Definition extractIdFromHref (href : string) : option string :=
  match href with
  | EmptyString => None
  | _ =>
      option_map string_of_list_ascii
        (regex_match (list_ascii_of_string (normalizePath href)))
  end.

End Locator.

(* ===================================================================== *)
(** * Vocabulary of the locator's properties *)
(* ===================================================================== *)

(** A valid ref: a reference the URL parser accepts as a relative
    reference, or as an absolute URL with one of the schemes [http],
    [https], [ws], [wss] and [ftp], that is a special scheme other than
    [file]; [normalizePath] then takes its [try] branch.  References
    with the scheme [file] or with a scheme that is not special are not
    valid refs in this sense. *)
Definition valid_ref {P : URL.Platform} (href : string) : Prop :=
  exists path, URL.basic_url_parser (list_ascii_of_string href) = URL.Parsed path.

(** The normalized path ends with an identifier segment: [/c/], a
    non-empty run of identifier characters, and at most one slash. *)
Definition has_identifier_segment (path : string) : Prop :=
  exists pre c id tail,
    list_ascii_of_string path = pre ++ "/"%char :: c :: "/"%char :: id ++ tail
    /\ to_lower c = "c"%char
    /\ id <> []
    /\ forallb is_id_char id = true
    /\ (tail = [] \/ tail = ["/"%char]).

(** Characters that the path state leaves alone and that do not end a
    segment. *)
Definition clean_char (c : ascii) : bool :=
  negb (URL.is_slash c) && negb (URL.is_query_or_fragment c)
  && negb (URL.in_path_encode_set c).

(** Segments as the parser stores them. *)
Definition clean_segment (seg : chars) : bool :=
  forallb clean_char seg && negb (URL.is_single_dot seg)
  && negb (URL.is_double_dot seg).

Definition first_nonempty (segs : list chars) : bool :=
  match segs with (_ :: _) :: _ => true | _ => false end.

Definition last_nonempty (segs : list chars) : bool :=
  first_nonempty (rev segs).

Definition is_nil (seg : chars) : bool :=
  match seg with [] => true | _ :: _ => false end.

Fixpoint drop_empty (segs : list chars) : list chars :=
  match segs with
  | [] => []
  | seg :: r => if is_nil seg then drop_empty r else segs
  end.

(** A path without its trailing empty segments. *)
Definition drop_trailing_empty (segs : list chars) : list chars :=
  rev (drop_empty (rev segs)).

(** [k] slashes, for the trailing-slash variants of a ref. *)
Definition slashes (k : nat) : string := string_of_list_ascii (repeat "/"%char k).

(** Raw segments as the path state receives them: no separator, no
    query or fragment mark. *)
Definition raw_segment (raw : chars) : bool :=
  forallb (fun c => negb (URL.is_slash c) && negb (URL.is_query_or_fragment c)) raw.

(** Strings without control characters or spaces. *)
Definition visible (s : chars) : Prop :=
  forallb (fun c => negb (URL.is_c0_or_space c)) s = true.

(** Characters of a serialized path. *)
Definition path_char (c : ascii) : bool := clean_char c || is_char "/" c.

(** What may follow the path in a ref: nothing, or a query or a
    fragment. *)
Definition query_suffix (suf : chars) : Prop :=
  suf = [] \/ exists c q, suf = c :: q /\ URL.is_query_or_fragment c = true.

(** The segments of the two example refs. *)
Definition c_abc : list chars :=
  [list_ascii_of_string "c"; list_ascii_of_string "abc-123"].

Definition g_xyz_c_abc : list chars :=
  [list_ascii_of_string "g"; list_ascii_of_string "xyz";
   list_ascii_of_string "c"; list_ascii_of_string "abc-123"].

(* ===================================================================== *)
(** * The host page *)
(* ===================================================================== *)

(** Elements are known by their identity. *)
Definition Node := nat.

(** The selectors the code queries with. *)
Inductive Selector : Type :=
| SelNav                         (** [[data-testid="nav"]] *)
| SelRow                         (** [a.group.__menu-item.hoverable[href*="/c/"]] *)
| SelCheckbox                    (** [.cbm-checkbox] *)
| SelOptionsTestid               (** [button.__menu-item-trailing-btn[data-testid$="options"]] *)
| SelTrailingBtn                 (** [.trailing .__menu-item-trailing-btn] *)
| SelHasPopupMenu                (** [button[aria-haspopup="menu"]] *)
| SelButton                      (** [button] *)
| SelDeleteMenuItem              (** [div[data-testid="delete-chat-menu-item"]] *)
| SelMenuEntries                 (** [[role="menu"] [role="menuitem"], [role="menu"] button] *)
| SelConfirmButton               (** [[data-testid="delete-conversation-confirm-button"]] *)
| SelDialog                      (** [[role="dialog"],[role="alertdialog"]] *)
| SelDangerButton                (** [button.btn-danger] *)
| SelMenuLabelledBy (id : string)  (** [[role="menu"][aria-labelledby="<id>"]] *)
| SelOpenMenu                    (** [[role="menu"][data-state="open"]] *)
| SelNewChatButton               (** [[data-testid="new-chat-button"]] *)
| SelViewport                    (** [[data-overlaysscrollbars-viewport]] *)
| SelScrollbars                  (** [[data-overlaysscrollbars]] *)
| SelCancelButton.               (** [button.btn-secondary,button] *)

(** The events of a synthetic click, in the order [realClick] sends them. *)
Inductive DomEvent : Type :=
| PointerOver | MouseOver | PointerEnter | MouseEnter
| PointerDown | MouseDown | Focus | PointerUp | MouseUp | Click.

(** Synchronous calls into the page; the host's listeners run inside. *)
Inductive Action : Type :=
| ADispatch (target : Node) (ev : DomEvent)   (** [target.dispatchEvent(...)], [target.focus()] *)
| AClick (el : Node)                          (** [el.click()] *)
| AScrollIntoView (el : Node)                 (** [el.scrollIntoView({block:'center'})] *)
| AScrollBy (scrollable : option Node) (el : Node)
                                              (** [scrollable.scrollBy({top: rr.top - vh/2})] *)
| ASetId (el : Node) (id : string)            (** [el.id = id] *)
| AEscape                                     (** [document.dispatchEvent(keydown Escape)] *)
| AUncheck (cb : Node)                        (** [cb.checked = false] *)
| AAttachCheckbox (row : Node)                (** create the checkbox and insert it in the row *)
| APushStateHome                              (** [history.pushState(null,'','/')], then [popstate] *)
| ALocationAssignHome.                        (** [location.assign('/')] *)

(** What the code needs from the browser and the host application.  The
    page is a state of the host's own; the engine reads it through the
    queries, changes it through [act], and between two resumptions of the
    engine the host moves it with [evolve].  A query scope [None] is the
    document. *)
Class Host (Page : Type) : Type := {
  url_platform :: URL.Platform;
  (** [scope.querySelectorAll(sel)], in document order *)
  querySelectorAll : Page -> option Node -> Selector -> list Node;
  (** [a.href], the resolved reference of an anchor *)
  href_of : Page -> Node -> string;
  (** [row.getAttribute('href')] *)
  getAttribute_href : Page -> Node -> option string;
  (** [el.id] *)
  id_of : Page -> Node -> string;
  (** [location.href] *)
  location_href : Page -> string;
  (** the delete pattern, in either language and any case, occurs in [n.textContent] *)
  mentions_delete : Page -> Node -> bool;
  (** [r.top < 60 || r.bottom > vh - 60] for the bounding box [r] of the element *)
  outside_view : Page -> Node -> bool;
  (** the bounding box is missing or has no width or no height *)
  degenerate_rect : Page -> Node -> bool;
  (** [document.elementFromPoint(cx, cy)] at the clamped centre of the
      element; [None] when it is null or the call throws *)
  element_at_centre : Page -> Node -> option Node;
  (** [el.contains(other)] *)
  contains : Page -> Node -> Node -> bool;
  (** [el.closest('[role="dialog"],[role="alertdialog"]')] *)
  closest_dialog : Page -> Node -> option Node;
  (** ['requestIdleCallback' in window] *)
  has_idle_callback : bool;
  (** [Math.random().toString(36).slice(2)] *)
  random_suffix : Page -> string;
  (** the page after a synchronous call *)
  act : Action -> Page -> Page;
  (** the call throws *)
  throws : Action -> Page -> bool;
  (** how late, in milliseconds, the next resumption is, beyond the time
      it is due, as the host decides at a given time *)
  lag : Z -> Page -> N;
  (** which of the suspended workers the event loop resumes next *)
  pick : Z -> Page -> nat;
  (** the page as the host application leaves it at the time of the next
      resumption *)
  evolve : Z -> Page -> Page
}.

(* ===================================================================== *)
(** * Configuration and state of the engine *)
(* ===================================================================== *)

(** The fields the constructor sets from its options. *)
Record ChatBulkUI : Type := {
  enabled : bool;
  stealth : bool;
  concurrency : Z;
  staggerMs : Z;
  maxMenuWaitMs : Z;
  maxDialogWaitMs : Z;
  clickRetries : Z;
  clickRetryDelay : Z;
  afterDeleteWaitMs : Z
}.

(** The options object, each field possibly absent. *)
Record ChatBulkOptions : Type := {
  opt_enabled : option bool;
  opt_stealth : option bool;
  opt_concurrency : option Z;
  opt_staggerMs : option Z;
  opt_maxMenuWaitMs : option Z;
  opt_maxDialogWaitMs : option Z;
  opt_clickRetries : option Z;
  opt_clickRetryDelay : option Z;
  opt_afterDeleteWaitMs : option Z
}.

Definition default {A : Type} (d : A) (o : option A) : A :=
  match o with Some a => a | None => d end.

(** [constructor({...} = {})].  The numbers of the options are counts and
    milliseconds, integers here. *)
Definition new_ChatBulkUI (o : ChatBulkOptions) : ChatBulkUI :=
  {| enabled := default true (opt_enabled o);
     stealth := default true (opt_stealth o);
     concurrency := Z.max 1 (Z.min 4 (default 2%Z (opt_concurrency o)));
     staggerMs := default 50%Z (opt_staggerMs o);
     maxMenuWaitMs := default 3500%Z (opt_maxMenuWaitMs o);
     maxDialogWaitMs := default 7000%Z (opt_maxDialogWaitMs o);
     clickRetries := default 8%Z (opt_clickRetries o);
     clickRetryDelay := default 140%Z (opt_clickRetryDelay o);
     afterDeleteWaitMs := default 140%Z (opt_afterDeleteWaitMs o) |}.

(** [new ChatBulkUI({})] *)
Definition no_options : ChatBulkOptions :=
  {| opt_enabled := None; opt_stealth := None; opt_concurrency := None;
     opt_staggerMs := None; opt_maxMenuWaitMs := None;
     opt_maxDialogWaitMs := None; opt_clickRetries := None;
     opt_clickRetryDelay := None; opt_afterDeleteWaitMs := None |}.

Definition with_concurrency (c : Z) (o : ChatBulkOptions) : ChatBulkOptions :=
  {| opt_enabled := opt_enabled o; opt_stealth := opt_stealth o;
     opt_concurrency := Some c;
     opt_staggerMs := opt_staggerMs o; opt_maxMenuWaitMs := opt_maxMenuWaitMs o;
     opt_maxDialogWaitMs := opt_maxDialogWaitMs o;
     opt_clickRetries := opt_clickRetries o;
     opt_clickRetryDelay := opt_clickRetryDelay o;
     opt_afterDeleteWaitMs := opt_afterDeleteWaitMs o |}.

(** The number of workers [Array.from({ length: this.concurrency }, ...)]
    creates. *)
Definition worker_count (self : ChatBulkUI) : nat := Z.to_nat (concurrency self).

(** Errors a task can be rejected with. *)
Inductive Error : Type :=
| E_ROW | E_BTN | E_MENU | E_MENUITEM | E_CONFIRM
| E_TIMEOUT.   (** the error of [waitFor] when its deadline passes *)

(** Texts of the status line. *)
Inductive Message : Type :=
| MsgNone
| MsgDeleting (processed total fail : nat)
| MsgDone (ok total fail : nat)
| MsgWarn (e : Error).

(** The action bar, with the parts of it the engine reads and writes. *)
Record Bar : Type := {
  running : bool;            (** class [running] *)
  cbm_hidden : bool;         (** class [cbm-hidden] *)
  loader_hidden : bool;      (** [.cbm-loader] hidden *)
  status : Message;          (** text of [.cbm-status] *)
  pill_hidden : bool;        (** [.cbm-progress-pill] hidden *)
  pill : nat * nat;          (** text of the pill, [processed/total] *)
  count : nat;               (** text of [.cbm-count] *)
  del_disabled : bool;
  clear_disabled : bool;
  select_all_disabled : bool
}.

(** Callbacks handed to [setTimeout] and left to the event loop. *)
Inductive Callback : Type :=
| CbRestore (prev : Message)   (** of [flashError] *)
| CbClear.                     (** of the [finally] block of [runBulkDelete] *)

(** What the run keeps in local variables shared by its workers. *)
Record Job : Type := {
  i : nat;
  processed : nat;
  ok : nat;
  fail : nat
}.

(** Calls of the interaction primitives, recorded as they happen. *)
Inductive Event : Type :=
| EvScroll (el : Node)         (** [scrollIntoViewSmart(el)] is called *)
| EvClick (el : Node)          (** [realClick(el)] is called *)
| EvSleep (ms : Z)             (** [sleep(ms)] is called *)
| EvPoll                       (** [waitFor] evaluates its predicate *)
| EvTimeout (timeout : Z)      (** [waitFor] rejects *)
| EvWarn (id : string) (e : Error).   (** [console.warn('[cbm] E_DELETE', id, e)] *)

Record Store (Page : Type) : Type := {
  page : Page;
  bar : Bar;
  stealth_attr : bool;                 (** [data-cbm-stealth] on the root element *)
  selected : list (string * string);   (** the map [id -> { href }], in insertion order *)
  timers : list (Z * Callback);        (** pending [setTimeout] callbacks with their due time *)
  job : Job;
  trace : list Event                   (** most recent first *)
}.

(* ===================================================================== *)
(** * Asynchronous tasks *)
(* ===================================================================== *)

(** An [async] computation, seen from the event loop: it runs
    synchronously on the store ([Sync]: the store is updated, and the
    rest of the computation is chosen from the time [performance.now()]
    and the store as they were), until it settles ([Ret], [Throw]) or is
    suspended until the event loop resumes it, no earlier than a due time
    ([Wait]).  Loops that poll are unrolled up to a bound on their number
    of turns; [Stuck] marks the end of that unrolling. *)
Inductive Task (Page A : Type) : Type :=
| Ret (a : A)
| Throw (e : Error)
| Stuck
| Sync (upd : Z -> Store Page -> Store Page) (k : Z -> Store Page -> Task Page A)
| Wait (due : Z) (k : Task Page A).

Arguments Ret {Page A} a.
Arguments Throw {Page A} e.
Arguments Stuck {Page A}.
Arguments Sync {Page A} upd k.
Arguments Wait {Page A} due k.

(** How a task ends. *)
Inductive Outcome (A : Type) : Type :=
| Returned (a : A)
| Thrown (e : Error)
| OutOfFuel.

Arguments Returned {A} a.
Arguments Thrown {A} e.
Arguments OutOfFuel {A}.

Section Tasks.
Context {Page : Type}.

Local Abbreviation Task := (Task Page).
Local Abbreviation Store := (Store Page).

(** A synchronous step written in one piece: the new store and the
    rest of the computation. *)
Definition Do {A : Type} (f : Z -> Store -> Store * Task A) : Task A :=
  Sync (fun now s => fst (f now s)) (fun now s => snd (f now s)).

Fixpoint bind {A B : Type} (t : Task A) (g : A -> Task B) : Task B :=
  match t with
  | Ret a => g a
  | Throw e => Throw e
  | Stuck => Stuck
  | Sync upd k => Sync upd (fun now s => bind (k now s) g)
  | Wait due k => Wait due (bind k g)
  end.

(** [try { t } catch (e) { h e }] *)
Fixpoint try_catch {A : Type} (t : Task A) (h : Error -> Task A) : Task A :=
  match t with
  | Ret a => Ret a
  | Throw e => h e
  | Stuck => Stuck
  | Sync upd k => Sync upd (fun now s => try_catch (k now s) h)
  | Wait due k => Wait due (try_catch k h)
  end.

(** [try { t } finally { c }]: [c] runs whichever way [t] settles, and
    an error of [c] replaces the outcome of [t]. *)
Fixpoint try_finally {A : Type} (t : Task A) (c : Task unit) : Task A :=
  match t with
  | Ret a => bind c (fun _ => Ret a)
  | Throw e => bind c (fun _ => Throw e)
  | Stuck => Stuck
  | Sync upd k => Sync upd (fun now s => try_finally (k now s) c)
  | Wait due k => Wait due (try_finally k c)
  end.

(** [await t]: the continuation runs in a later turn of the event loop,
    after [t] has settled either way. *)
Fixpoint await {A : Type} (t : Task A) : Task A :=
  match t with
  | Ret a => Sync (fun _ s => s) (fun now _ => Wait now (Ret a))
  | Throw e => Sync (fun _ s => s) (fun now _ => Wait now (Throw e))
  | Stuck => Stuck
  | Sync upd k => Sync upd (fun now s => await (k now s))
  | Wait due k => Wait due (await k)
  end.

(** [p.catch(() => null)] *)
Definition catch_null {A : Type} (t : Task A) : Task (option A) :=
  try_catch (bind t (fun a => Ret (Some a))) (fun _ => Ret None).

Definition gets {A : Type} (f : Store -> A) : Task A :=
  Sync (fun _ s => s) (fun _ s => Ret (f s)).

Definition modify (f : Store -> Store) : Task unit :=
  Sync (fun _ s => f s) (fun _ _ => Ret tt).

(** A task that, run at any time from [lo] on, leaves the counters of
    the run alone and never reaches the end of an unrolling.  Time does
    not go back: what follows a step taken at [now] runs from [now] on,
    and what follows a suspension runs no earlier than it is due. *)
Fixpoint quiet {A : Type} (t : Task A) (lo : Z) : Prop :=
  match t with
  | Ret _ => True
  | Throw _ => True
  | Stuck => False
  | Sync upd k =>
      forall now s, (lo <= now)%Z ->
                    job (upd now s) = job s /\ quiet (k now s) now
  | Wait due k => quiet k (Z.max lo due)
  end.

End Tasks.

Notation "x <- t ;; k" := (bind t (fun x => k))
  (at level 61, t at next level, right associativity).
Notation "t ;; k" := (bind t (fun _ => k))
  (at level 61, right associativity).

(** ** Updates of the store *)

Section StoreUpdates.
Context {Page : Type}.

Definition set_page (p : Page) (s : Store Page) : Store Page :=
  {| page := p; bar := bar s; stealth_attr := stealth_attr s;
     selected := selected s; timers := timers s; job := job s;
     trace := trace s |}.

Definition set_bar (b : Bar) (s : Store Page) : Store Page :=
  {| page := page s; bar := b; stealth_attr := stealth_attr s;
     selected := selected s; timers := timers s; job := job s;
     trace := trace s |}.

Definition set_stealth_attr (v : bool) (s : Store Page) : Store Page :=
  {| page := page s; bar := bar s; stealth_attr := v;
     selected := selected s; timers := timers s; job := job s;
     trace := trace s |}.

Definition set_selected (m : list (string * string)) (s : Store Page) : Store Page :=
  {| page := page s; bar := bar s; stealth_attr := stealth_attr s;
     selected := m; timers := timers s; job := job s;
     trace := trace s |}.

Definition set_timers (l : list (Z * Callback)) (s : Store Page) : Store Page :=
  {| page := page s; bar := bar s; stealth_attr := stealth_attr s;
     selected := selected s; timers := l; job := job s;
     trace := trace s |}.

Definition set_job (j : Job) (s : Store Page) : Store Page :=
  {| page := page s; bar := bar s; stealth_attr := stealth_attr s;
     selected := selected s; timers := timers s; job := j;
     trace := trace s |}.

Definition record (e : Event) (s : Store Page) : Store Page :=
  {| page := page s; bar := bar s; stealth_attr := stealth_attr s;
     selected := selected s; timers := timers s; job := job s;
     trace := e :: trace s |}.

End StoreUpdates.

(* ===================================================================== *)
(** * The engine *)
(* ===================================================================== *)

Section Engine.
Context {Page : Type} {H : Host Page}.

(** The instance, [this]: its configuration is fixed at construction. *)
Variable self : ChatBulkUI.

Local Abbreviation Task := (Task Page).
Local Abbreviation Store := (Store Page).
Local Open Scope Z_scope.

(** ** Locator *)

Definition orelse {A : Type} (a b : option A) : option A :=
  match a with Some _ => a | None => b end.

Definition querySelector (p : Page) (scope : option Node) (sel : Selector)
  : option Node :=
  hd_error (querySelectorAll p scope sel).

(** [findSidebar()] *)
Definition findSidebar (p : Page) : option Node :=
  querySelector p None SelNav.

(** [findRowByHref(href)]; the scope [findSidebar() || document] is the
    sidebar when there is one, the document otherwise. *)
Definition findRowByHref (p : Page) (href : string) : option Node :=
  let targetPath := normalizePath href in
  let scope := findSidebar p in
  let all := querySelectorAll p scope SelRow in
  find (fun a => String.eqb (normalizePath (href_of p a)) targetPath) all.

(** [findOptionsButton(row)] *)
Definition findOptionsButton (p : Page) (row : Node) : option Node :=
  orelse (querySelector p (Some row) SelOptionsTestid)
    (orelse (querySelector p (Some row) SelTrailingBtn)
       (orelse (querySelector p (Some row) SelHasPopupMenu)
          (hd_error (rev (querySelectorAll p (Some row) SelButton))))).

(** [findDeleteMenuItem()] *)
Definition findDeleteMenuItem (p : Page) : option Node :=
  orelse (querySelector p None SelDeleteMenuItem)
    (find (mentions_delete p) (querySelectorAll p None SelMenuEntries)).

(** [findConfirmButton()] *)
Definition findConfirmButton (p : Page) : option Node :=
  orelse (querySelector p None SelConfirmButton)
    (orelse
       (match querySelector p None SelDialog with
        | Some dialog =>
            find (mentions_delete p) (querySelectorAll p (Some dialog) SelButton)
        | None => None
        end)
       (querySelector p None SelDangerButton)).

(** ** The action bar *)

Definition set_running (v : bool) (b : Bar) : Bar :=
  {| running := v; cbm_hidden := cbm_hidden b; loader_hidden := loader_hidden b;
     status := status b; pill_hidden := pill_hidden b; pill := pill b;
     count := count b; del_disabled := del_disabled b;
     clear_disabled := clear_disabled b;
     select_all_disabled := select_all_disabled b |}.

Definition set_loader_hidden (v : bool) (b : Bar) : Bar :=
  {| running := running b; cbm_hidden := cbm_hidden b; loader_hidden := v;
     status := status b; pill_hidden := pill_hidden b; pill := pill b;
     count := count b; del_disabled := del_disabled b;
     clear_disabled := clear_disabled b;
     select_all_disabled := select_all_disabled b |}.

Definition set_status (m : Message) (b : Bar) : Bar :=
  {| running := running b; cbm_hidden := cbm_hidden b;
     loader_hidden := loader_hidden b;
     status := m; pill_hidden := pill_hidden b; pill := pill b;
     count := count b; del_disabled := del_disabled b;
     clear_disabled := clear_disabled b;
     select_all_disabled := select_all_disabled b |}.

Definition set_pill (hidden : bool) (text : nat * nat) (b : Bar) : Bar :=
  {| running := running b; cbm_hidden := cbm_hidden b;
     loader_hidden := loader_hidden b;
     status := status b; pill_hidden := hidden; pill := text;
     count := count b; del_disabled := del_disabled b;
     clear_disabled := clear_disabled b;
     select_all_disabled := select_all_disabled b |}.

(** [showLoader(show)] *)
Definition showLoader (show : bool) (s : Store) : Store :=
  set_bar (set_loader_hidden (negb show) (bar s)) s.

(** [setStatus(text)] *)
Definition setStatus (text : Message) (s : Store) : Store :=
  set_bar (set_status text (bar s)) s.

(** [setProgress(processed, total)] *)
Definition setProgress (processed total : nat) (s : Store) : Store :=
  match total with
  | O => set_bar (set_pill true (0%nat, 0%nat) (bar s)) s
  | S _ => set_bar (set_pill false (processed, total) (bar s)) s
  end.

(** [updateBar()] *)
Definition updateBar (s : Store) : Store :=
  let n := List.length (selected s) in
  let b := bar s in
  let running := running b in
  let shouldShow := running || negb (n =? 0)%nat in
  set_bar
    {| running := running;
       cbm_hidden := negb shouldShow;
       loader_hidden := loader_hidden b;
       status := status b;
       pill_hidden := pill_hidden b;
       pill := pill b;
       count := n;
       del_disabled := negb (enabled self) || (n =? 0)%nat || running;
       clear_disabled := (n =? 0)%nat || running;
       select_all_disabled := running |} s.

(** [setTimeout(cb, ms)]: the callback joins the pending ones, ordered by
    due time. *)
Fixpoint schedule (due : Z) (cb : Callback) (l : list (Z * Callback))
  : list (Z * Callback) :=
  match l with
  | [] => [(due, cb)]
  | (d, c) :: r => if d <=? due then (d, c) :: schedule due cb r
                   else (due, cb) :: l
  end.

Definition setTimeout (cb : Callback) (ms : Z) (now : Z) (s : Store) : Store :=
  set_timers (schedule (now + Z.max 0 ms) cb (timers s)) s.

(** [flashError(msg, ms)]; a call that gives no [ms] passes 1200. *)
Definition flashError (e : Error) (ms : Z) (now : Z) (s : Store) : Store :=
  let prev := status (bar s) in
  setTimeout (CbRestore prev) ms now (setStatus (MsgWarn e) s).

(** The body of a pending callback. *)
Definition fire (cb : Callback) (s : Store) : Store :=
  match cb with
  | CbRestore prev =>
      match status (bar s) with
      | MsgWarn _ => setStatus prev s
      | _ => s
      end
  | CbClear => updateBar (setProgress 0 0 (setStatus MsgNone s))
  end.

(** The callbacks due by [now] run, earliest first. *)
Fixpoint fire_due (now : Z) (l : list (Z * Callback)) (s : Store) : Store :=
  match l with
  | [] => set_timers [] s
  | (d, c) :: r => if d <=? now then fire_due now r (fire c s)
                   else set_timers l s
  end.


(** ** The event loop *)

(** The time at which a suspended task is resumed: not before it is
    due, not before the present, and later by the lag of the host. *)
Definition resume_time (due now : Z) (s : Store) : Z :=
  Z.max now due + Z.of_N (lag now (page s)).

(** The store a resumed task finds: the host has moved the page, and
    the pending callbacks that were due by the time of the resumption
    have run.  This is coarser than the order of the browser's timers
    for a task that is resumed late: there, a callback due after the
    task was due runs after it.  The callbacks write nothing but the
    status line, the progress pill and the state of the buttons. *)
Definition resume_store (now' : Z) (s : Store) : Store :=
  fire_due now' (timers s) (set_page (evolve now' (page s)) s).

(** A task run to its end, alone with the host. *)
Fixpoint exec {A : Type} (t : Task A) (now : Z) (s : Store)
  : Z * Store * Outcome A :=
  match t with
  | Ret a => (now, s, Returned a)
  | Throw e => (now, s, Thrown e)
  | Stuck => (now, s, OutOfFuel)
  | Sync upd k => exec (k now s) now (upd now s)
  | Wait due k =>
      let now' := resume_time due now s in
      exec k now' (resume_store now' s)
  end.

(** The turn of the event loop that [await] costs. *)
Definition tick (now : Z) (s : Store) : Z * Store :=
  let now' := resume_time now now s in (now', resume_store now' s).

(** A task run until it settles or is suspended. *)
Inductive Paused (A : Type) : Type :=
| Settled (o : Outcome A)
| Suspended (due : Z) (k : Task A).

Fixpoint run_sync {A : Type} (t : Task A) (now : Z) (s : Store)
  : Store * Paused A :=
  match t with
  | Ret a => (s, Settled (Returned a))
  | Throw e => (s, Settled (Thrown e))
  | Stuck => (s, Settled OutOfFuel)
  | Sync upd k => run_sync (k now s) now (upd now s)
  | Wait due k => (s, Suspended due k)
  end.

Fixpoint remove_nth {A : Type} (n : nat) (l : list A) : list A :=
  match n, l with
  | _, [] => []
  | O, _ :: r => r
  | S n', a :: r => a :: remove_nth n' r
  end.

Fixpoint replace_nth {A : Type} (n : nat) (x : A) (l : list A) : list A :=
  match n, l with
  | _, [] => []
  | O, _ :: r => x :: r
  | S n', a :: r => a :: replace_nth n' x r
  end.

(** The promises [Promise.all] waits for, each suspended with its due
    time.  At every turn the event loop resumes one of them, which runs
    until it is suspended again or settles; the first rejection rejects
    the whole, and when none is left the whole is fulfilled.  [fuel]
    bounds the number of turns. *)
Fixpoint all_settled (fuel : nat) (slots : list (Z * Task unit)) : Task unit :=
  match slots with
  | [] => Ret tt
  | _ :: _ =>
      match fuel with
      | O => Stuck
      | S fuel' =>
          Do (fun now s =>
                let j := (pick now (page s) mod List.length slots)%nat in
                match nth_error slots j with
                | None => (s, Stuck)
                | Some (due, k) =>
                    (s, Wait due
                          (Do (fun now' s' =>
                                 match run_sync k now' s' with
                                 | (s'', Settled (Returned _)) =>
                                     (s'', all_settled fuel' (remove_nth j slots))
                                 | (s'', Settled (Thrown e)) => (s'', Throw e)
                                 | (s'', Settled OutOfFuel) => (s'', Stuck)
                                 | (s'', Suspended due' k') =>
                                     (s'', all_settled fuel'
                                             (replace_nth j (due', k') slots))
                                 end)))
                end)
      end
  end.

(** The calls [worker()] of [Array.from]: each task starts at once and
    runs until its first suspension. *)
Fixpoint spawn (ts : list (Task unit)) (now : Z) (s : Store)
  : Store * list (Z * Task unit) * option (Outcome unit) :=
  match ts with
  | [] => (s, [], None)
  | t :: ts' =>
      let '(s1, p) := run_sync t now s in
      let '(s2, slots, bad) := spawn ts' now s1 in
      match p with
      | Settled (Returned _) => (s2, slots, bad)
      | Settled o => (s2, slots, Some o)
      | Suspended due k => (s2, (due, k) :: slots, bad)
      end
  end.

(** [Promise.all(ts)] *)
Definition Promise_all (fuel : nat) (ts : list (Task unit)) : Task unit :=
  Do (fun now s =>
        let '(s', slots, bad) := spawn ts now s in
        match bad with
        | Some (Thrown e) => (s', Throw e)
        | Some _ => (s', Stuck)
        | None => (s', all_settled fuel slots)
        end).

(** ** Reading the record of calls *)

Definition is_poll (e : Event) : bool :=
  match e with EvPoll => true | _ => false end.

Definition is_timeout (e : Event) : bool :=
  match e with EvTimeout _ => true | _ => false end.

Definition is_click_on (el : Node) (e : Event) : bool :=
  match e with EvClick n => Nat.eqb n el | _ => false end.

Definition count_events (f : Event -> bool) (tr : list Event) : nat :=
  List.length (filter f tr).

(** Number of predicate evaluations recorded. *)
Definition polls (tr : list Event) : nat := count_events is_poll tr.

(** Number of waits that were rejected. *)
Definition timeouts (tr : list Event) : nat := count_events is_timeout tr.

(** The calls recorded between two stores, in the order they were
    made. *)
Definition calls (s s' : Store) (tr : list Event) : Prop :=
  trace s' = rev tr ++ trace s.

(** The calls of [scrollIntoViewSmart(el)]: the call itself, and the
    pause when it had to scroll. *)
Definition scroll_calls (el : Node) (tr : list Event) : Prop :=
  tr = [EvScroll el] \/ tr = [EvScroll el; EvSleep 24].

(** The calls of [realClick(el)]. *)
Definition click_calls (el : Node) (tr : list Event) : Prop :=
  exists sc, scroll_calls el sc /\ tr = EvClick el :: sc.

(** The calls of a wait: one evaluation or more, and the rejection when
    nothing came in time. *)
Definition wait_calls (timeout : Z) (resolved : bool) (tr : list Event) : Prop :=
  exists k, tr = repeat EvPoll (S k)
                 ++ (if resolved then [] else [EvTimeout timeout]).

(** One attempt of [openMenu]: the trigger is scrolled into view and
    clicked, and a menu is waited for during 250 milliseconds. *)
Definition attempt_calls (btn : Node) (opened : bool) (tr : list Event) : Prop :=
  exists a b c,
    scroll_calls btn a /\ click_calls btn b /\ wait_calls 250 opened c
    /\ tr = a ++ b ++ c.

(** The attempts of one call of [openMenu], with a pause after each
    attempt that saw no menu: their number, and whether the last one
    saw a menu. *)
Inductive attempts_calls (btn : Node) (delay : Z)
  : nat -> bool -> list Event -> Prop :=
| no_attempt : attempts_calls btn delay 0 false []
| attempt_opened tr :
    attempt_calls btn true tr -> attempts_calls btn delay 1 true tr
| attempt_failed n opened tr tr' :
    attempt_calls btn false tr ->
    attempts_calls btn delay n opened tr' ->
    attempts_calls btn delay (S n) opened (tr ++ EvSleep delay :: tr').

(** ** Interaction primitives *)

(** [sleep(ms)] *)
Definition sleep (ms : Z) : Task unit :=
  Do (fun now s => (record (EvSleep ms) s, Wait (now + Z.max 0 ms) (Ret tt))).

(** [idleOrSleep(ms)]: an idle callback may come at any time. *)
Definition idleOrSleep (ms : Z) : Task unit :=
  Do (fun now s =>
        (s, if has_idle_callback then Wait now (Ret tt)
            else Wait (now + Z.max 0 ms) (Ret tt))).

(** The polling step of [waitFor] when no other is given. *)
Definition default_step : Z := 45.

(** A bound on the number of evaluations before the deadline passes. *)
Definition polls_bound (timeout step : Z) : nat :=
  (Z.to_nat (timeout / step) + 2)%nat.

(** Evaluations a polling loop started at [t0] may still need when the
    time is [lo]: one when the deadline has passed, and otherwise one
    per step that fits before the deadline, and two. *)
Definition polls_needed (t0 timeout step lo : Z) : nat :=
  if lo - t0 >? timeout then 1%nat
  else (Z.to_nat ((timeout - (lo - t0)) / step) + 2)%nat.

(** The function [loop] of [waitFor]; a predicate that throws counts as
    one that answers nothing. *)
Fixpoint waitFor_loop {A : Type} (fuel : nat) (fn : Store -> option A)
    (t0 timeout step : Z) : Task A :=
  match fuel with
  | O => Stuck
  | S fuel' =>
      Do (fun now s =>
            let s1 := record EvPoll s in
            match fn s with
            | Some res => (s1, Ret res)
            | None =>
                if now - t0 >? timeout
                then (record (EvTimeout timeout) s1, Throw E_TIMEOUT)
                else (s1, Wait (now + Z.max 0 step)
                               (waitFor_loop fuel' fn t0 timeout step))
            end)
  end.

(** [waitFor(fn, timeout, step)] *)
Definition waitFor {A : Type} (fn : Store -> option A) (timeout step : Z)
  : Task A :=
  Do (fun t0 s => (s, waitFor_loop (polls_bound timeout step) fn t0 timeout step)).

(** The loop of [waitSidebarReady]. *)
Fixpoint waitSidebarReady_loop (fuel : nat) (t0 timeout : Z) : Task unit :=
  match fuel with
  | O => Stuck
  | S fuel' =>
      Do (fun now s =>
            if now - t0 <=? timeout then
              match querySelector (page s) (findSidebar (page s)) SelRow with
              | Some _ => (s, Ret tt)
              | None =>
                  (s, await (sleep 50) ;; waitSidebarReady_loop fuel' t0 timeout)
              end
            else (s, Ret tt))
  end.

(** [waitSidebarReady(timeout)] *)
Definition waitSidebarReady (timeout : Z) : Task unit :=
  Do (fun t0 s => (s, waitSidebarReady_loop (polls_bound timeout 50) t0 timeout)).

Definition on_page (f : Page -> Page) (s : Store) : Store :=
  set_page (f (page s)) s.

(** [scrollIntoViewSmart(el)] *)
Definition scrollIntoViewSmart (el : Node) : Task unit :=
  Do (fun _ s =>
        let p := page s in
        let sidebar := findSidebar p in
        let scrollable :=
          match sidebar with
          | Some sb =>
              orelse (querySelector p (Some sb) SelViewport)
                (orelse (querySelector p (Some sb) SelScrollbars) (Some sb))
          | None => None
          end in
        if outside_view p el then
          (on_page (fun p => act (AScrollBy scrollable el) (act (AScrollIntoView el) p))
             (record (EvScroll el) s),
           await (sleep 24))
        else (record (EvScroll el) s, Ret tt)).


(** ** Clicks *)

(** [domClick()]: [try { el.click?.(); } catch {}] *)
Definition domClick (el : Node) (p : Page) : Page := act (AClick el) p.

(** The events of the [try] block of [realClick], with the focus call
    in its place. *)
Definition click_sequence : list DomEvent :=
  [PointerOver; MouseOver; PointerEnter; MouseEnter; PointerDown; MouseDown;
   Focus; PointerUp; MouseUp; Click].

(** The events are dispatched in order until one of the calls throws;
    the answer tells whether all went through. *)
Fixpoint dispatch_all (target : Node) (evs : list DomEvent) (p : Page)
  : Page * bool :=
  match evs with
  | [] => (p, true)
  | ev :: r =>
      let p' := act (ADispatch target ev) p in
      if throws (ADispatch target ev) p then (p', false)
      else dispatch_all target r p'
  end.

(** [realClick(el)].  An element always has [dispatchEvent]. *)
Definition realClick (el : option Node) : Task unit :=
  match el with
  | None => Ret tt
  | Some el =>
      modify (record (EvClick el)) ;;
      await (scrollIntoViewSmart el) ;;
      modify (on_page (fun p =>
        if degenerate_rect p el then domClick el p
        else
          let target :=
            match element_at_centre p el with
            | Some at_point => if contains p el at_point then at_point else el
            | None => el
            end in
          let '(p', sent) := dispatch_all target click_sequence p in
          if sent then p' else domClick el p'))
  end.

(** [hover(el)] *)
Definition hover (el : Node) : Task unit :=
  modify (on_page (fun p =>
    act (ADispatch el MouseEnter)
      (act (ADispatch el MouseOver) (act (ADispatch el PointerOver) p)))).

(** [safeCloseMenus()] *)
Definition safeCloseMenus : Task unit :=
  modify (on_page (fun p =>
    let p1 :=
      match querySelector p None SelOpenMenu with
      | Some _ => act AEscape p
      | None => p
      end in
    match querySelector p1 None SelConfirmButton with
    | Some dialogBtn =>
        match closest_dialog p1 dialogBtn with
        | Some dialog =>
            match querySelector p1 (Some dialog) SelCancelButton with
            | Some cancel => act (AClick cancel) p1
            | None => p1
            end
        | None => p1
        end
    | None => p1
    end)).

(** ** The per-item state machine *)

(** The predicate [openMenu] waits on: a menu labelled by the trigger,
    or else any open menu. *)
Definition menu_for (id : string) (s : Store) : option Node :=
  orelse (querySelector (page s) None (SelMenuLabelledBy id))
         (querySelector (page s) None SelOpenMenu).

(** The [for] loop of [openMenu], with [n] attempts left, and what
    follows it. *)
Fixpoint openMenu_loop (n : nat) (btn : Node) (id : string) : Task unit :=
  match n with
  | O =>
      Do (fun _ s =>
            match querySelector (page s) None SelOpenMenu with
            | Some _ => (s, Ret tt)
            | None => (s, Throw E_MENU)
            end)
  | S n' =>
      await (scrollIntoViewSmart btn) ;;
      await (realClick (Some btn)) ;;
      opened <- try_catch
                  (await (waitFor (menu_for id) 250 default_step) ;; Ret true)
                  (fun _ => Ret false) ;;
      if (opened : bool) then Ret tt
      else await (sleep (clickRetryDelay self)) ;; openMenu_loop n' btn id
  end.

(** [openMenu(btn)] *)
Definition openMenu (btn : Node) : Task unit :=
  id <- Do (fun _ s =>
              let p := page s in
              match id_of p btn with
              | EmptyString =>
                  let id := ("cbm-btn-" ++ random_suffix p)%string in
                  (on_page (act (ASetId btn id)) s, Ret id)
              | id => (s, Ret id)
              end) ;;
  openMenu_loop (Z.to_nat (clickRetries self)) btn id.

(** The predicate of the last wait of [deleteViaUI]:
    [!this.findRowByHref(href)]. *)
Definition row_gone (href : string) (s : Store) : option bool :=
  match findRowByHref (page s) href with
  | Some _ => None
  | None => Some true
  end.

(** [deleteViaUI(href)] through the click on the confirmation button:
    the states LocateRow to ClickConfirm. *)
Definition confirm_deletion (href : string) : Task unit :=
  row <- await (catch_null
           (waitFor (fun s => findRowByHref (page s) href) 3000 default_step)) ;;
  match row with
  | None => Throw E_ROW
  | Some row =>
  btn <- await (catch_null
           (waitFor (fun s => findOptionsButton (page s) row) 1500 default_step)) ;;
  match btn with
  | None => Throw E_BTN
  | Some btn =>
  await (scrollIntoViewSmart row) ;;
  hover row ;;
  await (openMenu btn) ;;
  del <- await (catch_null
           (waitFor (fun s => findDeleteMenuItem (page s))
                    (maxMenuWaitMs self) default_step)) ;;
  match del with
  | None => Throw E_MENUITEM
  | Some del =>
  await (realClick (Some del)) ;;
  confirm <- await (catch_null
               (waitFor (fun s => findConfirmButton (page s))
                        (maxDialogWaitMs self) default_step)) ;;
  match confirm with
  | None => Throw E_CONFIRM
  | Some confirm => await (realClick (Some confirm))
  end end end end.

(** The state AwaitRowGone: the wait for the row to leave the tree. *)
Definition await_row_gone (href : string) : Task bool :=
  await (waitFor (row_gone href) 8000 default_step).

(** [deleteViaUI(href)] *)
Definition deleteViaUI (href : string) : Task unit :=
  confirm_deletion href ;;
  await_row_gone href ;;
  await (sleep (afterDeleteWaitMs self)) ;;
  safeCloseMenus.


(** ** The removal engine *)

(** [attachCheckboxes()] *)
Definition attachCheckboxes (s : Store) : Store :=
  if negb (enabled self) then s
  else
    on_page (fun p =>
      let sidebar := findSidebar p in
      let rows := querySelectorAll p sidebar SelRow in
      fold_left
        (fun p row =>
           match querySelector p (Some row) SelCheckbox with
           | Some _ => p
           | None =>
               match getAttribute_href p row with
               | Some href =>
                   match extractIdFromHref href with
                   | Some _ => act (AAttachCheckbox row) p
                   | None => p
                   end
               | None => p
               end
           end)
        rows p) s.

(** [ensureNotOnSelected(items)] *)
Definition ensureNotOnSelected (items : list (string * string)) : Task unit :=
  Do (fun _ s =>
        let p := page s in
        let selectedPaths := map (fun it => normalizePath (snd it)) items in
        let here := normalizePath (location_href p) in
        if negb (existsb (String.eqb here) selectedPaths) then (s, Ret tt)
        else
          match querySelector p None SelNewChatButton with
          | Some newBtn =>
              (on_page (act (AClick newBtn)) s, await (waitSidebarReady 4000))
          | None =>
              (on_page (fun p =>
                          if throws APushStateHome p
                          then act ALocationAssignHome (act APushStateHome p)
                          else act APushStateHome p) s,
               await (waitSidebarReady 4000))
          end).

Definition claim (j : Job) : Job :=
  {| i := S (i j); processed := processed j; ok := ok j; fail := fail j |}.

Definition count_ok (j : Job) : Job :=
  {| i := i j; processed := processed j; ok := S (ok j); fail := fail j |}.

Definition count_fail (j : Job) : Job :=
  {| i := i j; processed := processed j; ok := ok j; fail := S (fail j) |}.

Definition count_processed (j : Job) : Job :=
  {| i := i j; processed := S (processed j); ok := ok j; fail := fail j |}.

Definition on_job (f : Job -> Job) (s : Store) : Store := set_job (f (job s)) s.

(** [this.selected.delete(id)] *)
Definition delete_key (id : string) (m : list (string * string))
  : list (string * string) :=
  filter (fun e => negb (String.eqb (fst e) id)) m.

(** The [catch] block of the worker. *)
Definition on_failure (it : string * string) (e : Error) : Task unit :=
  modify (on_job count_fail) ;;
  modify (record (EvWarn (fst it) e)) ;;
  Do (fun now s => (flashError e 1200 now s, Ret tt)) ;;
  safeCloseMenus.

(** The [finally] block of the worker. *)
Definition after_item (it : string * string) (total : nat) : Task unit :=
  modify (on_job count_processed) ;;
  modify (fun s => set_selected (delete_key (fst it) (selected s)) s) ;;
  modify (on_page (fun p =>
    match findRowByHref p (snd it) with
    | Some rowLive =>
        match querySelector p (Some rowLive) SelCheckbox with
        | Some cb => act (AUncheck cb) p
        | None => p
        end
    | None => p
    end)) ;;
  modify (fun s => setStatus (MsgDeleting (processed (job s)) total (fail (job s))) s) ;;
  modify (fun s => setProgress (processed (job s)) total s) ;;
  modify updateBar ;;
  await (idleOrSleep (staggerMs self)).

(** The body of the worker's loop for the item it has taken: the
    [try], [catch] and [finally] blocks. *)
Definition process_item (it : string * string) (total : nat) : Task unit :=
  try_finally
    (try_catch
       (await (deleteViaUI (snd it)) ;; modify (on_job count_ok))
       (on_failure it))
    (after_item it total).

(** [worker()], able to take [n] more items. *)
Fixpoint worker (n : nat) (items : list (string * string)) : Task unit :=
  Do (fun _ s =>
        match nth_error items (i (job s)) with
        | None => (s, Ret tt)
        | Some it =>
            match n with
            | O => (s, Stuck)
            | S n' =>
                (on_job claim s,
                 process_item it (List.length items) ;; worker n' items)
            end
        end).

Definition new_job : Job := {| i := 0; processed := 0; ok := 0; fail := 0 |}.

(** The [finally] block of [runBulkDelete]. *)
Definition clean_up : Task unit :=
  modify (set_stealth_attr false) ;;
  modify (showLoader false) ;;
  modify (fun s => set_bar (set_running false (bar s)) s) ;;
  Do (fun now s => (setTimeout CbClear 500 now s, Ret tt)).

(** [runBulkDelete()]; [fuel] bounds the turns of the worker pool. *)
Definition runBulkDelete (fuel : nat) : Task unit :=
  if negb (enabled self) then Ret tt
  else
    items <- gets (fun s => selected s) ;;
    match items with
    | [] => Ret tt
    | _ :: _ =>
        await (ensureNotOnSelected items) ;;
        let total := List.length items in
        modify (set_job new_job) ;;
        modify (fun s => set_bar (set_running true (bar s)) s) ;;
        modify (showLoader true) ;;
        modify (setProgress 0 total) ;;
        modify (setStatus (MsgDeleting 0 total 0)) ;;
        modify updateBar ;;
        (if stealth self then modify (set_stealth_attr true) else Ret tt) ;;
        try_finally
          (await (Promise_all fuel
                    (repeat (worker total items) (worker_count self))) ;;
           modify (fun s => setStatus (MsgDone (ok (job s)) total (fail (job s))) s) ;;
           await (waitSidebarReady 3500) ;;
           modify attachCheckboxes ;;
           modify updateBar)
          clean_up
    end.


End Engine.


(* ===================================================================== *)
(** * A small host, to run the engine on *)
(* ===================================================================== *)

(** A sidebar with rows that each carry an options button; clicking the
    button of a row opens the menu of that row, clicking the delete entry
    opens the confirmation dialog, and confirming removes the row.  The
    script of the page says which buttons never open their menu, which
    rows stay after the confirmation, and from what time on an open menu
    that belongs to no trigger lies around.

    The nav container is node 1; the row of index [r] is node [10 * r],
    its options button node [10 * r + 1], its checkbox node [10 * r + 2];
    the menu is node 1000, its delete entry 1001, the stray menu 1500, the
    dialog 2000, its confirm button 2001, its cancel button 2002. *)
Module Scenario.

Record doc : Type := {
  rows : list (nat * string);        (** index and href attribute of each row *)
  checkboxes : list nat;             (** rows that carry a checkbox *)
  button_ids : list (nat * string);  (** ids given to options buttons *)
  menu : option nat;                 (** row whose menu is open *)
  dialog : option nat;               (** row whose deletion awaits confirmation *)
  location : string;
  deaf : list nat;                   (** rows whose button never opens a menu *)
  sticky : list nat;                 (** rows that stay after the confirmation *)
  stray_from : option Z;             (** time from which a stray menu is open *)
  stray : bool;                      (** the stray menu is open *)
  late : N;                          (** lag of every resumption *)
  turn : nat                         (** resumptions so far *)
}.

Definition origin : string := "https://chatgpt.com".

Definition mem (n : nat) (l : list nat) : bool := existsb (Nat.eqb n) l.

Definition lookup (n : nat) (l : list (nat * string)) : option string :=
  option_map snd (find (fun e => Nat.eqb (fst e) n) l).

Definition row_of (n : Node) : nat := (n / 10)%nat.

Definition is_row (p : doc) (n : Node) : bool :=
  (n mod 10 =? 0)%nat && mem (row_of n) (map fst (rows p)).

Definition is_button (p : doc) (n : Node) : bool :=
  (n mod 10 =? 1)%nat && mem (row_of n) (map fst (rows p)).

Definition button_id (p : doc) (r : nat) : string :=
  match lookup r (button_ids p) with Some id => id | None => EmptyString end.

Definition query (p : doc) (scope : option Node) (sel : Selector) : list Node :=
  match sel, scope with
  | SelNav, None => [1%nat]
  | SelRow, _ => map (fun e => (10 * fst e)%nat) (rows p)
  | SelCheckbox, Some n =>
      if is_row p n && mem (row_of n) (checkboxes p) then [(n + 2)%nat] else []
  | SelOptionsTestid, Some n => if is_row p n then [(n + 1)%nat] else []
  | SelButton, Some n =>
      if is_row p n then [(n + 1)%nat]
      else if (n =? 2000)%nat then
             match dialog p with Some _ => [2002%nat; 2001%nat] | None => [] end
           else []
  | SelMenuLabelledBy id, None =>
      match menu p with
      | Some r => if String.eqb (button_id p r) id then [1000%nat] else []
      | None => []
      end
  | SelOpenMenu, None =>
      (match menu p with Some _ => [1000%nat] | None => [] end)
      ++ (if stray p then [1500%nat] else [])
  | SelDeleteMenuItem, None =>
      match menu p with Some _ => [1001%nat] | None => [] end
  | SelConfirmButton, None =>
      match dialog p with Some _ => [2001%nat] | None => [] end
  | SelDialog, None =>
      match dialog p with Some _ => [2000%nat] | None => [] end
  | SelCancelButton, Some n =>
      if (n =? 2000)%nat then
        match dialog p with Some _ => [2002%nat] | None => [] end
      else []
  | _, _ => []
  end.

Definition with_view (p : doc) (m d : option nat) (rs : list (nat * string))
  : doc :=
  {| rows := rs; checkboxes := checkboxes p; button_ids := button_ids p;
     menu := m; dialog := d; location := location p; deaf := deaf p;
     sticky := sticky p; stray_from := stray_from p; stray := stray p;
     late := late p; turn := turn p |}.

(** The page's reaction to a click on an element. *)
Definition clicked (n : Node) (p : doc) : doc :=
  if is_button p n then
    if mem (row_of n) (deaf p) then p
    else with_view p (Some (row_of n)) (dialog p) (rows p)
  else if (n =? 1001)%nat then
    match menu p with
    | Some r => with_view p None (Some r) (rows p)
    | None => p
    end
  else if (n =? 2001)%nat then
    match dialog p with
    | Some r =>
        with_view p (menu p) None
          (if mem r (sticky p) then rows p
           else filter (fun e => negb (Nat.eqb (fst e) r)) (rows p))
    | None => p
    end
  else if (n =? 2002)%nat then with_view p (menu p) None (rows p)
  else p.

Definition react (a : Action) (p : doc) : doc :=
  match a with
  | ADispatch n Click => clicked n p
  | AClick n => clicked n p
  | ASetId n id =>
      {| rows := rows p; checkboxes := checkboxes p;
         button_ids := (row_of n, id) :: button_ids p;
         menu := menu p; dialog := dialog p; location := location p;
         deaf := deaf p; sticky := sticky p; stray_from := stray_from p;
         stray := stray p; late := late p; turn := turn p |}
  | AEscape => with_view p None (dialog p) (rows p)
  | AAttachCheckbox n =>
      {| rows := rows p; checkboxes := row_of n :: checkboxes p;
         button_ids := button_ids p;
         menu := menu p; dialog := dialog p; location := location p;
         deaf := deaf p; sticky := sticky p; stray_from := stray_from p;
         stray := stray p; late := late p; turn := turn p |}
  | APushStateHome =>
      {| rows := rows p; checkboxes := checkboxes p;
         button_ids := button_ids p;
         menu := menu p; dialog := dialog p;
         location := (origin ++ "/")%string;
         deaf := deaf p; sticky := sticky p; stray_from := stray_from p;
         stray := stray p; late := late p; turn := turn p |}
  | _ => p
  end.

(** Between two resumptions: the stray menu appears when its time has
    come, and the count of turns goes up. *)
Definition move (now : Z) (p : doc) : doc :=
  {| rows := rows p; checkboxes := checkboxes p; button_ids := button_ids p;
     menu := menu p; dialog := dialog p; location := location p;
     deaf := deaf p; sticky := sticky p; stray_from := stray_from p;
     stray := match stray_from p with
              | Some t => (t <=? now)%Z
              | None => false
              end;
     late := late p; turn := S (turn p) |}.

#[global] Instance host : Host doc :=
  {| url_platform := URL.https_page;
     querySelectorAll := query;
     href_of := fun p n =>
       match lookup (row_of n) (rows p) with
       | Some href => (origin ++ href)%string
       | None => EmptyString
       end;
     getAttribute_href := fun p n => lookup (row_of n) (rows p);
     id_of := fun p n => button_id p (row_of n);
     location_href := location;
     mentions_delete := fun _ n => (n =? 1001)%nat || (n =? 2001)%nat;
     outside_view := fun _ _ => false;
     degenerate_rect := fun _ _ => false;
     element_at_centre := fun _ n => Some n;
     contains := fun _ _ _ => true;
     closest_dialog := fun p n =>
       match dialog p with Some _ => Some 2000%nat | None => None end;
     has_idle_callback := true;
     random_suffix := fun p => "k3x9f2"%string;
     act := react;
     throws := fun _ _ => false;
     lag := fun _ p => late p;
     pick := fun _ p => turn p;
     evolve := move |}.

(** Three chats in the sidebar, all selected; the page shows the home
    view. *)
Definition three_rows : doc :=
  {| rows := [(1%nat, "/c/aaa-1"%string); (2%nat, "/c/bbb-2"%string);
              (3%nat, "/g/xyz/c/ccc-3"%string)];
     checkboxes := [1%nat; 2%nat; 3%nat];
     button_ids := [];
     menu := None; dialog := None;
     location := (origin ++ "/")%string;
     deaf := []; sticky := []; stray_from := None; stray := false;
     late := 3%N; turn := 0 |}.

(** The first chat has a button that opens nothing; a menu of another
    kind opens at the given time. *)
Definition deaf_row (stray_at : option Z) : doc :=
  {| rows := [(1%nat, "/c/aaa-1"%string); (2%nat, "/c/bbb-2"%string)];
     checkboxes := [1%nat; 2%nat];
     button_ids := [];
     menu := None; dialog := None;
     location := (origin ++ "/")%string;
     deaf := [1%nat]; sticky := []; stray_from := stray_at; stray := false;
     late := 3%N; turn := 0 |}.

(** The second chat stays in the list after the confirmation. *)
Definition sticky_row : doc :=
  {| rows := [(1%nat, "/c/aaa-1"%string); (2%nat, "/c/bbb-2"%string)];
     checkboxes := [1%nat; 2%nat];
     button_ids := [];
     menu := None; dialog := None;
     location := (origin ++ "/")%string;
     deaf := []; sticky := [2%nat]; stray_from := None; stray := false;
     late := 3%N; turn := 0 |}.

(** The instance the module builds, and one that clicks at most twice. *)
Definition manager : ChatBulkUI :=
  new_ChatBulkUI
    {| opt_enabled := Some true; opt_stealth := Some true;
       opt_concurrency := Some 2%Z; opt_staggerMs := Some 50%Z;
       opt_maxMenuWaitMs := None; opt_maxDialogWaitMs := None;
       opt_clickRetries := None; opt_clickRetryDelay := None;
       opt_afterDeleteWaitMs := None |}.

Definition two_clicks : ChatBulkUI :=
  new_ChatBulkUI
    {| opt_enabled := Some true; opt_stealth := Some true;
       opt_concurrency := Some 1%Z; opt_staggerMs := Some 50%Z;
       opt_maxMenuWaitMs := None; opt_maxDialogWaitMs := None;
       opt_clickRetries := Some 2%Z; opt_clickRetryDelay := None;
       opt_afterDeleteWaitMs := None |}.

Definition idle_bar : Bar :=
  {| running := false; cbm_hidden := false; loader_hidden := true;
     status := MsgNone; pill_hidden := true; pill := (0%nat, 0%nat);
     count := 3; del_disabled := false; clear_disabled := false;
     select_all_disabled := false |}.

Definition start (p : doc) : Store doc :=
  {| page := p; bar := idle_bar; stealth_attr := false;
     selected :=
       flat_map (fun e => match extractIdFromHref (snd e) with
                          | Some id => [(id, snd e)]
                          | None => []
                          end) (rows p);
     timers := []; job := new_job; trace := [] |}.

End Scenario.


(* ===================================================================== *)
(** * Vocabulary of the engine's properties *)
(* ===================================================================== *)

(** The last character of the string is a slash. *)
Definition ends_with_slash (s : string) : bool :=
  match rev (list_ascii_of_string s) with
  | c :: _ => is_char "/" c
  | [] => false
  end.

Section Rejections.
Context {Page : Type}.

(** Every error the task can be rejected with, whatever the host does
    and whenever it resumes the task, is one of [P]. *)
Fixpoint throws_only {A : Type} (P : Error -> Prop) (t : Task Page A) : Prop :=
  match t with
  | Ret _ => True
  | Throw e => P e
  | Stuck => True
  | Sync _ k => forall now s, throws_only P (k now s)
  | Wait _ k => throws_only P k
  end.

(** No error at all. *)
Definition no_error (e : Error) : Prop := False.

(** The errors of the steps of [deleteViaUI] that come before the wait
    for the row to leave. *)
Definition step_error (e : Error) : Prop := e <> E_TIMEOUT.

(** The errors of the steps that follow the search of the row. *)
Definition later_error (e : Error) : Prop := e <> E_ROW.

End Rejections.


(* ===================================================================== *)
(** * The event bus of the module framework *)
(* ===================================================================== *)

(** [createEventBus()]: a map from event types to sets of handlers.  A
    [Map] and a [Set] keep their entries in insertion order, and that
    order is the one [forEach] follows. *)
Module EventBus.

(** Handlers are functions, known to the [Set] by their identity. *)
Definition Fn := nat.

(** A [Set<Fn>], in insertion order. *)
Definition FnSet := list Fn.

(** The [Map<string, Set<Fn>>], in insertion order. *)
Definition bus := list (string * FnSet).

(** [set.has(fn)] *)
Definition has (fn : Fn) (l : FnSet) : bool := existsb (Nat.eqb fn) l.

(** [set.add(fn)]: a value already in the set stays where it is. *)
Definition add (fn : Fn) (l : FnSet) : FnSet :=
  if has fn l then l else l ++ [fn].

(** [set.delete(fn)] *)
Fixpoint delete (fn : Fn) (l : FnSet) : FnSet :=
  match l with
  | [] => []
  | g :: r => if Nat.eqb g fn then r else g :: delete fn r
  end.

(** [map.get(type)] *)
Fixpoint map_get (type : string) (m : bus) : option FnSet :=
  match m with
  | [] => None
  | (k, v) :: r => if String.eqb k type then Some v else map_get type r
  end.

(** [map.set(type, v)]; the sets are objects the map refers to, so a
    change of a set is a change of the entry. *)
Fixpoint map_set (type : string) (v : FnSet) (m : bus) : bus :=
  match m with
  | [] => [(type, v)]
  | (k, w) :: r =>
      if String.eqb k type then (k, v) :: r else (k, w) :: map_set type v r
  end.

(** [createEventBus()] *)
Definition createEventBus : bus := [].

(** [on(type, fn)] *)
Definition on (type : string) (fn : Fn) (m : bus) : bus :=
  let m1 := match map_get type m with
            | Some _ => m
            | None => map_set type [] m
            end in
  match map_get type m1 with
  | Some l => map_set type (add fn l) m1
  | None => m1
  end.

(** [off(type, fn)] *)
Definition off (type : string) (fn : Fn) (m : bus) : bus :=
  match map_get type m with
  | Some l => map_set type (delete fn l) m
  | None => m
  end.

Section Emit.
Variables Args World : Type.

(** What a handler does when it is called, to the world outside the
    bus, and whether it throws.  The handlers considered do not call
    the bus back while an event is being emitted. *)
Variable call : Fn -> Args -> World -> World * bool.

(** [set.forEach(fn => fn(...args))]: the handlers are called in
    order until one throws; the answer is the world as they leave
    it, the handlers called, in order, and whether the last one
    threw. *)
Fixpoint forEach (l : FnSet) (args : Args) (w : World) (called : list Fn)
  : World * list Fn * bool :=
  match l with
  | [] => (w, called, false)
  | fn :: r =>
      let '(w', threw) := call fn args w in
      if threw then (w', called ++ [fn], true)
      else forEach r args w' (called ++ [fn])
  end.

(** [emit(type, ...args)] *)
Definition emit (type : string) (args : Args) (m : bus) (w : World)
  : World * list Fn * bool :=
  match map_get type m with
  | Some l => forEach l args w []
  | None => (w, [], false)
  end.

End Emit.

(** The handlers an event of the type reaches. *)
Definition listeners (type : string) (m : bus) : FnSet :=
  match map_get type m with
  | Some l => l
  | None => []
  end.

(** The buses a program can build. *)
Inductive reachable : bus -> Prop :=
| reach_new : reachable createEventBus
| reach_on type fn m : reachable m -> reachable (on type fn m)
| reach_off type fn m : reachable m -> reachable (off type fn m).

End EventBus.


(* ===================================================================== *)
(** * The module framework: order of initialisation, generated names *)
(* ===================================================================== *)

From Stdlib Require Import Sorted Permutation.

(** [sortModules] and [bootstrap] of [src/content/main.ts]. *)
Module Bootstrap.

(** A module as the framework reads it: its [id], and its [order] when
    it gives one.  Orders are integers. *)
Record Mod : Type := { id : string; order : option Z }.

(** An entry of the generated registry: [null] or [undefined], or the
    namespace object of a module file ([import * as ...]), with its
    exports [moduleDef] and [default] when it has them, and the
    namespace itself read as a module.  What a module exports as
    [moduleDef] or as [default] is an ordinary object. *)
Inductive entry : Type :=
| Nullish
| Namespace (moduleDef default_export : option Mod) (self : Mod).

(** [m?.moduleDef ?? m?.default ?? m], kept by [filter(Boolean)] when
    it is an object. *)
Definition resolve (e : entry) : option Mod :=
  match e with
  | Nullish => None
  | Namespace (Some d) _ _ => Some d
  | Namespace None (Some d) _ => Some d
  | Namespace None None self => Some self
  end.

(** The entry resolves to the namespace object itself.  A namespace
    object cannot be written to: it is not extensible and its exports
    are read-only, and an assignment to one of its properties throws,
    the code of a module being strict. *)
Definition read_only (e : entry) : bool :=
  match e with
  | Namespace None None _ => true
  | _ => false
  end.

(** The objects [sortModules] works on, each with whether it is a
    namespace object. *)
Definition resolved (mods : list entry) : list (Mod * bool) :=
  flat_map (fun e => match resolve e with
                     | Some m => [(m, read_only e)]
                     | None => []
                     end) mods.

(** How [bootstrap] ends: every module initialised, the [init] of a
    module failed, or [sortModules] threw; the last two are caught and
    logged. *)
Inductive Report : Type :=
| AllStarted
| InitFailed (m : Mod)
| SortFailed.

Section Config.
(** The two tables of the configuration module: an order for some
    ids, a switch for some ids. *)
Variable orderOverrides : string -> option Z.
Variable enabledModules : string -> option bool.

(** [m.order = orderOverrides[m.id]], when
    [orderOverrides[m.id] != null] *)
Definition override (m : Mod) : Mod :=
  match orderOverrides (id m) with
  | Some o => {| id := id m; order := Some o |}
  | None => m
  end.

(** The assignment of the loop throws for this object. *)
Definition refuses (x : Mod * bool) : bool :=
  snd x && match orderOverrides (id (fst x)) with
           | Some _ => true
           | None => false
           end.

(** [enabledModules[m.id] !== false] *)
Definition is_enabled (m : Mod) : bool :=
  match enabledModules (id m) with
  | Some false => false
  | _ => true
  end.

(** [m.order ?? 100] *)
Definition rank (m : Mod) : Z := default 100%Z (order m).

(** [Array.prototype.sort] with the comparator
    [(a, b) => rank a - rank b]: the sort is stable, and here it is
    done by insertion. *)
Fixpoint insert (m : Mod) (l : list Mod) : list Mod :=
  match l with
  | [] => [m]
  | x :: r => if (rank m <=? rank x)%Z then m :: l else x :: insert m r
  end.

Definition sort_by_rank (l : list Mod) : list Mod := fold_right insert [] l.

(** The loop [mapped.forEach(...)]: the modules with their orders
    overridden, or nothing when an assignment throws. *)
Definition mapped (mods : list entry) : option (list Mod) :=
  if existsb refuses (resolved mods) then None
  else Some (map (fun x => override (fst x)) (resolved mods)).

(** The modules that are sorted, when the loop has not thrown. *)
Definition kept (mods : list entry) : list Mod :=
  filter is_enabled (map (fun x => override (fst x)) (resolved mods)).

(** [sortModules(mods)]; [None] when it throws. *)
Definition sortModules (mods : list entry) : option (list Mod) :=
  match mapped mods with
  | Some l => Some (sort_by_rank (filter is_enabled l))
  | None => None
  end.

Section Init.
Variable World : Type.

(** [await m.init(ctx)]: what the module does to the world, and
    whether it throws or its promise is rejected. *)
Variable init : Mod -> World -> World * bool.

(** The loop of [bootstrap]: the world it leaves, the modules
    whose [init] has been called, in order, and the module whose
    [init] failed, when one did. *)
Fixpoint init_all (mods : list Mod) (w : World)
  : World * list Mod * option Mod :=
  match mods with
  | [] => (w, [], None)
  | m :: r =>
      let '(w1, failed) := init m w in
      if failed then (w1, [m], Some m)
      else let '(w2, started, bad) := init_all r w1 in
           (w2, m :: started, bad)
  end.

(** [bootstrap()]: the world it leaves, the modules whose [init]
    has been called, and how it ends. *)
Definition bootstrap (registry : list entry) (w : World)
  : World * list Mod * Report :=
  match sortModules registry with
  | None => (w, [], SortFailed)
  | Some mods =>
      let '(w', started, bad) := init_all mods w in
      (w', started, match bad with
                    | Some m => InitFailed m
                    | None => AllStarted
                    end)
  end.

End Init.

End Config.

(** The order in which the modules are initialised. *)
Definition by_rank (a b : Mod) : Prop := (rank a <= rank b)%Z.

(** The modules of a given rank, in the order of the list. *)
Definition of_rank (r : Z) (l : list Mod) : list Mod :=
  filter (fun m => (rank m =? r)%Z) l.

End Bootstrap.

(** The names [scripts/gen-registry.mjs] gives to the modules it
    imports. *)
Module GenRegistry.

(** A string of JavaScript is a sequence of UTF-16 code units. *)
Definition code_unit := N.

Definition between (lo hi c : N) : bool := (lo <=? c)%N && (c <=? hi)%N.

(** The class [[a-zA-Z0-9_$]] *)
Definition is_ident_unit (c : code_unit) : bool :=
  between 97 122 c || between 65 90 c || between 48 57 c
  || (c =? 95)%N || (c =? 36)%N.

(** [name.replace(/[^a-zA-Z0-9_$]/g, '_')] *)
Definition varName (name : list code_unit) : list code_unit :=
  map (fun c => if is_ident_unit c then c else 95%N) name.

End GenRegistry.


(* ===================================================================== *)
(** * Checkboxes and selection *)
(* ===================================================================== *)

(** The rows of the sidebar with the checkboxes the instance puts in
    them, and the map [selected].  The rows are those the selector
    [a.group.__menu-item.hoverable[href*="/c/"]] finds, in document
    order; the host application leaves them alone here. *)
Module Selection.

(** A checkbox of class [cbm-checkbox], with the [id] and the [href]
    its [change] listener closes over. *)
Record Checkbox : Type := {
  checked : bool;
  bound_id : string;
  bound_href : string
}.

(** A row: its [href] attribute, and the first checkbox in it. *)
Record Row : Type := {
  href_attr : string;
  checkbox : option Checkbox
}.

Record Panel : Type := {
  rows : list Row;
  selected : list (string * string)   (** the map [id -> { href }], in insertion order *)
}.

(** [this.selected.set(id, { href })]: a key already there keeps its
    place. *)
Fixpoint map_set (id href : string) (m : list (string * string))
  : list (string * string) :=
  match m with
  | [] => [(id, href)]
  | (k, v) :: r =>
      if String.eqb k id then (k, href) :: r else (k, v) :: map_set id href r
  end.

Definition set_checked (v : bool) (cb : Checkbox) : Checkbox :=
  {| checked := v; bound_id := bound_id cb; bound_href := bound_href cb |}.

Definition with_checkbox (cb : option Checkbox) (r : Row) : Row :=
  {| href_attr := href_attr r; checkbox := cb |}.

Section Sidebar.
Context {P : URL.Platform}.

(** [this.enabled] *)
Variable enabled : bool.

(** The body of the loop of [attachCheckboxes] for one row. *)
Definition attach_row (r : Row) : Row :=
  match checkbox r with
  | Some _ => r
  | None =>
      match extractIdFromHref (href_attr r) with
      | Some id =>
          with_checkbox
            (Some {| checked := false; bound_id := id;
                     bound_href := href_attr r |}) r
      | None => r
      end
  end.

(** [attachCheckboxes()] *)
Definition attachCheckboxes (s : Panel) : Panel :=
  if enabled
  then {| rows := map attach_row (rows s); selected := selected s |}
  else s.

(** The [change] listener of the checkbox of the row of index [k],
    when the user has switched that checkbox. *)
Definition toggle (k : nat) (s : Panel) : Panel :=
  match nth_error (rows s) k with
  | Some r =>
      match checkbox r with
      | Some cb =>
          let now_checked := negb (checked cb) in
          {| rows := replace_nth k (with_checkbox
                                      (Some (set_checked now_checked cb)) r)
                       (rows s);
             selected :=
               if now_checked
               then map_set (bound_id cb) (bound_href cb) (selected s)
               else delete_key (bound_id cb) (selected s) |}
      | None => s
      end
  | None => s
  end.

(** [clearSelection()] *)
Definition clearSelection (s : Panel) : Panel :=
  {| rows := map (fun r => with_checkbox
                             (option_map (set_checked false) (checkbox r)) r)
                 (rows s);
     selected := [] |}.

(** [detach()] *)
Definition detach (s : Panel) : Panel :=
  {| rows := map (with_checkbox None) (rows s); selected := [] |}.

(** The body of the loop of [selectAll] for the row of index [k];
    [any] counts the checkboxes it has checked. *)
Definition select_step (acc : Panel * nat) (k : nat) : Panel * nat :=
  let '(s, any) := acc in
  match nth_error (rows s) k with
  | None => acc
  | Some row =>
      match extractIdFromHref (href_attr row) with
      | None => acc
      | Some id =>
          let s1 := match checkbox row with
                    | Some _ => s
                    | None => attachCheckboxes s
                    end in
          let chosen := map_set id (href_attr row) (selected s1) in
          match nth_error (rows s1) k with
          | Some row1 =>
              match checkbox row1 with
              | Some cb =>
                  if checked cb
                  then ({| rows := rows s1; selected := chosen |}, any)
                  else ({| rows := replace_nth k
                                     (with_checkbox
                                        (Some (set_checked true cb)) row1)
                                     (rows s1);
                           selected := chosen |}, S any)
              | None => ({| rows := rows s1; selected := chosen |}, any)
              end
          | None => ({| rows := rows s1; selected := chosen |}, any)
          end
      end
  end.

(** [selectAll()]: the panel it leaves, and whether it flashes the
    message that there is nothing to select. *)
Definition selectAll (s : Panel) : Panel * bool :=
  let '(s', any) :=
    fold_left select_step (seq 0 (List.length (rows s))) (s, 0%nat) in
  (s', (any =? 0)%nat).

(** ** Vocabulary *)

(** A row that [selectAll] has a checkbox to check in: it has an
    identifier, and no checkbox or one that is not checked. *)
Definition needs_check (r : Row) : bool :=
  match extractIdFromHref (href_attr r) with
  | Some _ =>
      match checkbox r with
      | Some cb => negb (checked cb)
      | None => true
      end
  | None => false
  end.

(** The checkbox of a row with an identifier is checked. *)
Definition check_row (r : Row) : Row :=
  match extractIdFromHref (href_attr r), checkbox r with
  | Some _, Some cb => with_checkbox (Some (set_checked true cb)) r
  | _, _ => r
  end.

(** A row with an identifier gets a checkbox when it has none, and
    the checkbox is checked. *)
Definition select_row (r : Row) : Row := check_row (attach_row r).

(** A row that the loop of [selectAll] has not come to yet: as it
    was, or with the checkbox [attachCheckboxes] gave it in an
    earlier turn. *)
Definition stage (att : bool) (r : Row) : Row :=
  if att then attach_row r else r.

(** The entry [selectAll] makes for a row. *)
Definition choose (m : list (string * string)) (r : Row)
  : list (string * string) :=
  match extractIdFromHref (href_attr r) with
  | Some id => map_set id (href_attr r) m
  | None => m
  end.

(** The checkboxes are those [attachCheckboxes] made for the rows as
    they are. *)
Definition well_bound (r : Row) : Prop :=
  forall cb, checkbox r = Some cb ->
    extractIdFromHref (href_attr r) = Some (bound_id cb)
    /\ bound_href cb = href_attr r.

(** The panels a user gets to on an enabled instance, from rows
    without checkboxes: checkboxes are attached, the user switches
    one, or presses one of the buttons of the bar. *)
Inductive reachable : Panel -> Prop :=
| reach_start hrefs :
    reachable {| rows := map (fun h => {| href_attr := h; checkbox := None |}) hrefs;
                 selected := [] |}
| reach_attach s : reachable s -> reachable (attachCheckboxes s)
| reach_toggle k s : reachable s -> reachable (toggle k s)
| reach_selectAll s : reachable s -> reachable (fst (selectAll s))
| reach_clear s : reachable s -> reachable (clearSelection s)
| reach_detach s : reachable s -> reachable (detach s).

End Sidebar.

End Selection.

(* ===================================================================== *)
(** * Properties of the locator *)
(* ===================================================================== *)

Section CharFacts.

Lemma drop_while_app_stop (p : ascii -> bool) (l m : chars) (c : ascii) :
  p c = false -> drop_while p (l ++ c :: m) = drop_while p l ++ c :: m.
Proof.
  intros Hc. induction l as [|a l IH]; simpl.
  - now rewrite Hc.
  - destruct (p a); [exact IH | reflexivity].
Qed.

Lemma take_while_app_stop (p : ascii -> bool) (l m : chars) (c : ascii) :
  forallb p l = true -> p c = false -> take_while p (l ++ c :: m) = l.
Proof.
  intros Hl Hc. induction l as [|a l IH]; simpl in *.
  - now rewrite Hc.
  - apply andb_true_iff in Hl as [Ha Hl]. rewrite Ha, IH; auto.
Qed.

Lemma take_while_all (p : ascii -> bool) (l : chars) :
  forallb p l = true -> take_while p l = l.
Proof.
  induction l as [|a l IH]; simpl; auto.
  intros H. apply andb_true_iff in H as [Ha Hl]. now rewrite Ha, IH.
Qed.

Lemma drop_while_all (p : ascii -> bool) (l : chars) :
  forallb p l = true -> drop_while p l = [].
Proof.
  induction l as [|a l IH]; simpl; auto.
  intros H. apply andb_true_iff in H as [Ha Hl]. now rewrite Ha, IH.
Qed.

Lemma take_drop_while (p : ascii -> bool) (l : chars) :
  take_while p l ++ drop_while p l = l.
Proof.
  induction l as [|a l IH]; simpl; auto.
  destruct (p a); simpl; congruence.
Qed.

Lemma take_while_forallb (p : ascii -> bool) (l : chars) :
  forallb p (take_while p l) = true.
Proof.
  induction l as [|a l IH]; simpl; auto.
  destruct (p a) eqn:E; simpl; auto. now rewrite E.
Qed.

Lemma drop_while_head (p : ascii -> bool) (l : chars) c m :
  drop_while p l = c :: m -> p c = false.
Proof.
  induction l as [|a l IH]; simpl; [discriminate|].
  destruct (p a) eqn:E; auto. intros H. injection H as -> _. exact E.
Qed.

Lemma filter_all (p : ascii -> bool) (l : chars) :
  forallb p l = true -> filter p l = l.
Proof.
  induction l as [|a l IH]; simpl; auto.
  intros H. apply andb_true_iff in H as [Ha Hl]. now rewrite Ha, IH.
Qed.

Lemma forallb_rev (p : ascii -> bool) (l : chars) :
  forallb p (rev l) = forallb p l.
Proof.
  induction l as [|a l IH]; simpl; auto.
  rewrite forallb_app, IH. simpl. rewrite andb_true_r. apply andb_comm.
Qed.

Lemma chars_eqb_eq (a b : chars) : chars_eqb a b = true <-> a = b.
Proof.
  unfold chars_eqb. destruct (list_eq_dec ascii_dec a b); split; congruence.
Qed.

Lemma is_char_eq k c : is_char k c = true <-> c = k.
Proof. unfold is_char. apply Ascii.eqb_eq. Qed.

Lemma strip_trailing_slashes_snoc (s : chars) (c : ascii) :
  is_char "/" c = false -> strip_trailing_slashes (s ++ [c]) = s ++ [c].
Proof.
  intros Hc. unfold strip_trailing_slashes.
  rewrite rev_app_distr. simpl. rewrite Hc. simpl. now rewrite rev_involutive.
Qed.

Lemma strip_trailing_slashes_slash (s : chars) :
  strip_trailing_slashes (s ++ ["/"%char]) = strip_trailing_slashes s.
Proof.
  unfold strip_trailing_slashes. rewrite rev_app_distr. reflexivity.
Qed.

Lemma strip_trailing_slashes_repeat (s : chars) (k : nat) :
  strip_trailing_slashes (s ++ repeat "/"%char k) = strip_trailing_slashes s.
Proof.
  induction k as [|k IH]; simpl.
  - now rewrite app_nil_r.
  - rewrite repeat_cons, app_assoc, strip_trailing_slashes_slash. exact IH.
Qed.

End CharFacts.

(** ** Characters of a parsed path *)

Section PathChars.

Local Ltac by_cases c :=
  destruct c as [[] [] [] [] [] [] [] []]; vm_compute; intros; congruence.

Lemma clean_not_slash c : clean_char c = true -> URL.is_slash c = false.
Proof. by_cases c. Qed.

Lemma clean_not_query c : clean_char c = true -> URL.is_query_or_fragment c = false.
Proof. by_cases c. Qed.

Lemma clean_not_encoded c : clean_char c = true -> URL.in_path_encode_set c = false.
Proof. by_cases c. Qed.

Lemma clean_not_space c : clean_char c = true -> URL.is_c0_or_space c = false.
Proof. by_cases c. Qed.

Lemma clean_not_solidus c : clean_char c = true -> is_char "/" c = false.
Proof. by_cases c. Qed.

Lemma space_or_newline c :
  URL.is_c0_or_space c = false -> negb (URL.is_tab_or_newline c) = true.
Proof. by_cases c. Qed.

Lemma slash_not_alpha c : URL.is_slash c = true -> is_alpha c = false.
Proof. by_cases c. Qed.

Lemma percent_encode_char_clean c :
  URL.is_slash c = false -> URL.is_query_or_fragment c = false ->
  forallb clean_char (URL.percent_encode_char c) = true.
Proof. by_cases c. Qed.

Lemma percent_encode_char_id c :
  clean_char c = true -> URL.percent_encode_char c = [c].
Proof.
  intros H. unfold URL.percent_encode_char.
  now rewrite (clean_not_encoded _ H).
Qed.

Lemma percent_encode_id seg :
  forallb clean_char seg = true -> URL.percent_encode seg = seg.
Proof.
  induction seg as [|c seg IH]; simpl; auto.
  intros H. apply andb_true_iff in H as [Hc Hs].
  unfold URL.percent_encode in *. simpl.
  now rewrite (percent_encode_char_id _ Hc), IH.
Qed.

Lemma percent_encode_clean raw :
  forallb (fun c => negb (URL.is_slash c) && negb (URL.is_query_or_fragment c)) raw = true ->
  forallb clean_char (URL.percent_encode raw) = true.
Proof.
  induction raw as [|c raw IH]; simpl; auto.
  intros H. apply andb_true_iff in H as [Hc Hs].
  apply andb_true_iff in Hc as [H1 H2].
  apply negb_true_iff in H1, H2.
  unfold URL.percent_encode in *. simpl. rewrite forallb_app.
  now rewrite (percent_encode_char_clean _ H1 H2), IH.
Qed.

End PathChars.

(** ** The path state on a path that is already in parsed form *)

Section PathState.

Lemma clean_segment_chars seg :
  clean_segment seg = true -> forallb clean_char seg = true.
Proof.
  unfold clean_segment. intros H.
  apply andb_true_iff in H as [H _]. now apply andb_true_iff in H as [H _].
Qed.

Lemma clean_segment_dots seg :
  clean_segment seg = true ->
  URL.is_single_dot seg = false /\ URL.is_double_dot seg = false.
Proof.
  unfold clean_segment. intros H.
  apply andb_true_iff in H as [H H2]. apply andb_true_iff in H as [_ H1].
  now apply negb_true_iff in H1, H2.
Qed.

Lemma split_segments_run cur seg rest :
  forallb clean_char seg = true ->
  URL.split_segments cur (seg ++ rest) = URL.split_segments (rev seg ++ cur) rest.
Proof.
  revert cur. induction seg as [|c seg IH]; intros cur H; simpl in *; auto.
  apply andb_true_iff in H as [Hc Hs].
  rewrite (clean_not_slash _ Hc), IH by assumption.
  now rewrite <- app_assoc.
Qed.

Lemma split_segments_slashes cur k :
  URL.split_segments cur (repeat "/"%char k) = rev cur :: repeat [] k.
Proof.
  revert cur. induction k as [|k IH]; intros cur; simpl; auto.
  now rewrite IH.
Qed.

Lemma split_serialize segs : forall cur seg k,
  forallb clean_char seg = true ->
  Forall (fun s => clean_segment s = true) segs ->
  URL.split_segments cur (seg ++ URL.serialize_path segs ++ repeat "/"%char k)
  = (rev cur ++ seg) :: segs ++ repeat [] k.
Proof.
  induction segs as [|s segs IH]; intros cur seg k Hseg Hsegs.
  - simpl. rewrite split_segments_run, split_segments_slashes by assumption.
    now rewrite rev_app_distr, rev_involutive.
  - inversion Hsegs as [|? ? Hs Hrest]; subst.
    rewrite split_segments_run by assumption.
    cbn [URL.serialize_path flat_map app URL.split_segments].
    change (URL.is_slash "/") with true. cbv iota.
    rewrite rev_app_distr, rev_involutive.
    fold (URL.serialize_path segs).
    rewrite <- app_assoc.
    rewrite (IH [] s k (clean_segment_chars _ Hs) Hrest). reflexivity.
Qed.

Lemma path_segments_clean raws : forall path,
  Forall (fun s => clean_segment s = true) raws ->
  URL.path_segments path raws = path ++ raws.
Proof.
  induction raws as [|raw raws IH]; intros path H; simpl.
  - now rewrite app_nil_r.
  - inversion H as [|? ? Hraw Hrest]; subst.
    rewrite (percent_encode_id _ (clean_segment_chars _ Hraw)).
    destruct (clean_segment_dots _ Hraw) as [-> ->].
    rewrite IH by assumption. now rewrite <- app_assoc.
Qed.

Lemma serialize_path_app a b :
  URL.serialize_path (a ++ b) = URL.serialize_path a ++ URL.serialize_path b.
Proof. unfold URL.serialize_path. apply flat_map_app. Qed.

Lemma serialize_path_empties k :
  URL.serialize_path (repeat [] k) = repeat "/"%char k.
Proof. induction k as [|k IH]; simpl; auto. now rewrite <- IH. Qed.

Lemma Forall_clean_empties k :
  Forall (fun s => clean_segment s = true) (repeat ([] : chars) k).
Proof. induction k; simpl; constructor; auto. Qed.

(** Stripping the trailing slashes of a serialized path drops its
    trailing empty segments. *)
Lemma strip_serialize path :
  Forall (fun s => clean_segment s = true) path ->
  strip_trailing_slashes (URL.serialize_path path)
  = URL.serialize_path (drop_trailing_empty path).
Proof.
  induction path as [|seg path IH] using rev_ind; intros H; [reflexivity|].
  apply Forall_app in H as [Hpath Hseg]. inversion Hseg as [|? ? Hs _]; subst.
  unfold drop_trailing_empty. rewrite rev_app_distr. simpl.
  rewrite serialize_path_app. simpl. rewrite app_nil_r.
  destruct seg as [|c seg] using rev_ind; simpl.
  - rewrite strip_trailing_slashes_slash. now apply IH.
  - clear IHseg.
    replace (is_nil (seg ++ [c])) with false by (now destruct seg).
    cbn [rev]. rewrite rev_involutive.
    rewrite serialize_path_app. simpl. rewrite app_nil_r.
    change ("/"%char :: seg ++ [c]) with (("/"%char :: seg) ++ [c]).
    rewrite app_assoc. apply strip_trailing_slashes_snoc.
    apply clean_not_solidus.
    apply clean_segment_chars in Hs. rewrite forallb_app in Hs.
    apply andb_true_iff in Hs as [_ Hc]. simpl in Hc.
    now apply andb_true_iff in Hc as [Hc _].
Qed.

Lemma drop_empty_keeps segs :
  first_nonempty segs = true -> drop_empty segs = segs.
Proof. destruct segs as [|[|c s] r]; simpl; congruence. Qed.

Lemma drop_trailing_empty_keeps segs :
  last_nonempty segs = true -> drop_trailing_empty segs = segs.
Proof.
  unfold last_nonempty, drop_trailing_empty. intros H.
  rewrite drop_empty_keeps by assumption. apply rev_involutive.
Qed.

End PathState.

(** ** Preprocessing keeps a prefix made of path characters *)

Section Preprocess.

Lemma visible_filter s :
  visible s -> filter (fun c => negb (URL.is_tab_or_newline c)) s = s.
Proof.
  unfold visible. intros H. apply filter_all.
  rewrite forallb_forall in *. intros c Hc.
  apply space_or_newline. specialize (H c Hc). now apply negb_true_iff in H.
Qed.

Lemma preprocess_prefix b q :
  b <> [] -> visible b -> exists q', URL.preprocess (b ++ q) = b ++ q'.
Proof.
  intros Hb Hv. unfold URL.preprocess, URL.trim.
  destruct b as [|h t]; [congruence|]. clear Hb.
  assert (Hh : URL.is_c0_or_space h = false).
  { unfold visible in Hv. simpl in Hv. apply andb_true_iff in Hv as [Hh _].
    now apply negb_true_iff in Hh. }
  cbn [app drop_while]. rewrite Hh.
  change (h :: t ++ q) with ((h :: t) ++ q). rewrite rev_app_distr.
  destruct (rev (h :: t)) as [|l m] eqn:Erev.
  { apply (f_equal (@List.length ascii)) in Erev. rewrite length_rev in Erev. discriminate. }
  assert (Hl : URL.is_c0_or_space l = false).
  { unfold visible in Hv. rewrite forallb_forall in Hv.
    assert (In l (h :: t)) as Hin.
    { apply in_rev. rewrite Erev. now left. }
    specialize (Hv l Hin). now apply negb_true_iff in Hv. }
  rewrite drop_while_app_stop by assumption.
  rewrite rev_app_distr, <- Erev, rev_involutive.
  rewrite filter_app, (visible_filter Hv). eexists. reflexivity.
Qed.

Lemma preprocess_visible b : visible b -> URL.preprocess b = b.
Proof.
  intros Hv. destruct b as [|h t]; [reflexivity|].
  destruct (@preprocess_prefix (h :: t) []) as [q' Hq']; [congruence|assumption|].
  rewrite app_nil_r in Hq'. rewrite Hq'.
  unfold URL.preprocess, URL.trim in Hq'.
  assert (Hh : URL.is_c0_or_space h = false).
  { unfold visible in Hv. simpl in Hv. apply andb_true_iff in Hv as [Hh _].
    now apply negb_true_iff in Hh. }
  apply (f_equal (@List.length ascii)) in Hq'.
  assert (List.length (filter (fun c => negb (URL.is_tab_or_newline c))
            (rev (drop_while URL.is_c0_or_space (rev (drop_while URL.is_c0_or_space (h :: t))))))
          <= List.length (h :: t)) as Hle.
  { etransitivity; [apply filter_length_le|].
    rewrite length_rev. cbn [drop_while]. rewrite Hh.
    rewrite <- (length_rev (h :: t)).
    generalize (rev (h :: t)). intros l.
    induction l as [|a l IH]; simpl; auto.
    destruct (URL.is_c0_or_space a); simpl; lia. }
  rewrite Hq', length_app in Hle.
  destruct q'; [now rewrite app_nil_r | simpl in Hle; lia].
Qed.

End Preprocess.

(** ** Normalizing a reference whose path is in parsed form *)

Section Canonical.
Context {P : URL.Platform}.

Lemma path_char_visible s : forallb path_char s = true -> visible s.
Proof.
  unfold visible. rewrite !forallb_forall. intros H c Hc.
  specialize (H c Hc). unfold path_char in H.
  apply orb_true_iff in H as [H|H].
  - now rewrite (clean_not_space _ H).
  - apply is_char_eq in H. now subst.
Qed.

Lemma path_char_not_query s :
  forallb path_char s = true ->
  forallb (fun c => negb (URL.is_query_or_fragment c)) s = true.
Proof.
  rewrite !forallb_forall. intros H c Hc.
  specialize (H c Hc). unfold path_char in H.
  apply orb_true_iff in H as [H|H].
  - now rewrite (clean_not_query _ H).
  - apply is_char_eq in H. now subst.
Qed.

Lemma clean_path_char s : forallb clean_char s = true -> forallb path_char s = true.
Proof.
  rewrite !forallb_forall. intros H c Hc. unfold path_char.
  now rewrite (H c Hc).
Qed.

Lemma serialize_path_chars segs :
  Forall (fun s => clean_segment s = true) segs ->
  forallb path_char (URL.serialize_path segs) = true.
Proof.
  induction 1 as [|s segs Hs _ IH]; simpl; auto.
  rewrite forallb_app, IH, (clean_path_char _ (clean_segment_chars _ Hs)).
  reflexivity.
Qed.

Lemma slashes_path_chars k : forallb path_char (repeat "/"%char k) = true.
Proof. induction k; simpl; auto. Qed.

Lemma take_while_path rest suf :
  forallb path_char rest = true -> query_suffix suf ->
  take_while (fun c => negb (URL.is_query_or_fragment c)) (rest ++ suf) = rest.
Proof.
  intros Hrest [->|(c & q & -> & Hc)].
  - rewrite app_nil_r. apply take_while_all. now apply path_char_not_query.
  - apply take_while_app_stop; [now apply path_char_not_query|].
    now rewrite Hc.
Qed.

Lemma relative_state_canonical s1 segs k suf :
  s1 <> [] ->
  Forall (fun s => clean_segment s = true) (s1 :: segs) ->
  query_suffix suf ->
  URL.relative_state
    (URL.serialize_path (s1 :: segs) ++ repeat "/"%char k ++ suf)
  = URL.Parsed (s1 :: segs ++ repeat [] k).
Proof.
  intros Hne Hall Hsuf.
  inversion Hall as [|? ? Hs1 Hsegs]; subst.
  destruct s1 as [|c1 s1']; [congruence|].
  pose proof (clean_segment_chars _ Hs1) as Hc1.
  assert (Hslash : URL.is_slash c1 = false).
  { simpl in Hc1. apply andb_true_iff in Hc1 as [Hc1 _].
    now apply clean_not_slash. }
  cbn [URL.serialize_path flat_map app URL.relative_state].
  change (URL.is_slash "/") with true. cbv iota. rewrite Hslash.
  fold (URL.serialize_path segs).
  unfold URL.path_state.
  replace (c1 :: (s1' ++ URL.serialize_path segs) ++ repeat "/"%char k ++ suf)
    with (((c1 :: s1') ++ URL.serialize_path segs ++ repeat "/"%char k) ++ suf)
    by (now rewrite <- !app_assoc).
  rewrite take_while_path; [|rewrite !forallb_app|assumption].
  2:{ rewrite (clean_path_char _ Hc1), (serialize_path_chars Hsegs),
        slashes_path_chars. reflexivity. }
  rewrite split_serialize by assumption.
  rewrite path_segments_clean.
  - reflexivity.
  - constructor; [assumption|]. apply Forall_app. split; [assumption|].
    apply Forall_clean_empties.
Qed.

Lemma parser_canonical s1 segs k suf :
  s1 <> [] ->
  Forall (fun s => clean_segment s = true) (s1 :: segs) ->
  query_suffix suf ->
  URL.basic_url_parser
    (URL.serialize_path (s1 :: segs) ++ repeat "/"%char k ++ suf)
  = URL.Parsed (s1 :: segs ++ repeat [] k).
Proof.
  intros Hne Hall Hsuf. unfold URL.basic_url_parser.
  rewrite app_assoc.
  set (body := URL.serialize_path (s1 :: segs) ++ repeat "/"%char k).
  assert (Hbody : forallb path_char body = true).
  { unfold body. rewrite forallb_app, (serialize_path_chars Hall), slashes_path_chars.
    reflexivity. }
  assert (Hpre : exists suf', URL.preprocess (body ++ suf) = body ++ suf'
                              /\ query_suffix suf').
  { destruct Hsuf as [->|(c & q & -> & Hc)].
    - exists []. split; [|now left]. rewrite app_nil_r.
      apply preprocess_visible. now apply path_char_visible.
    - destruct (@preprocess_prefix (body ++ [c]) q) as [q' Hq'].
      + destruct body; discriminate.
      + unfold visible. rewrite forallb_app. fold (visible body).
        apply andb_true_iff. split; [now apply path_char_visible|].
        simpl. unfold URL.is_query_or_fragment in Hc.
        apply orb_true_iff in Hc as [Hc|Hc]; apply is_char_eq in Hc; now subst.
      + exists (c :: q'). rewrite <- !app_assoc in Hq'. simpl in Hq'.
        split; [assumption|]. right. eauto. }
  destruct Hpre as (suf' & -> & Hsuf').
  unfold body. rewrite <- app_assoc.
  rewrite relative_state_canonical by assumption.
  reflexivity.
Qed.

Lemma strip_canonical s1 segs k :
  Forall (fun s => clean_segment s = true) (s1 :: segs) ->
  last_nonempty (s1 :: segs) = true ->
  strip_trailing_slashes (URL.serialize_path (s1 :: segs ++ repeat [] k))
  = URL.serialize_path (s1 :: segs).
Proof.
  intros Hall Hlast.
  change (s1 :: segs ++ repeat [] k) with ((s1 :: segs) ++ repeat [] k).
  rewrite serialize_path_app, serialize_path_empties.
  rewrite strip_trailing_slashes_repeat, strip_serialize by assumption.
  now rewrite drop_trailing_empty_keeps.
Qed.

(** A path in parsed form, followed by any number of slashes and by a
    query or a fragment, normalizes to that path. *)
Lemma normalize_canonical s1 segs k suf :
  s1 <> [] ->
  Forall (fun s => clean_segment s = true) (s1 :: segs) ->
  last_nonempty (s1 :: segs) = true ->
  query_suffix suf ->
  normalize_chars (URL.serialize_path (s1 :: segs) ++ repeat "/"%char k ++ suf)
  = URL.serialize_path (s1 :: segs).
Proof.
  intros Hne Hall Hlast Hsuf. unfold normalize_chars, URL.pathname.
  rewrite parser_canonical by assumption.
  now apply strip_canonical.
Qed.

End Canonical.

(** ** The identifier pattern *)

Section Pattern.

Lemma match_here_sound s id :
  match_here s = Some id ->
  exists c tail,
    s = "/"%char :: c :: "/"%char :: id ++ tail
    /\ to_lower c = "c"%char /\ id <> []
    /\ forallb is_id_char id = true
    /\ (tail = [] \/ tail = ["/"%char]).
Proof.
  unfold match_here.
  destruct s as [|a [|c [|b rest]]]; try discriminate.
  destruct (is_char "/" a) eqn:Ha; [|discriminate].
  destruct (is_char "c" (to_lower c)) eqn:Hc; [|discriminate].
  destruct (is_char "/" b) eqn:Hb; [|discriminate].
  apply is_char_eq in Ha, Hb, Hc. subst a b. cbn [andb].
  pose proof (take_drop_while is_id_char rest) as Hsplit.
  pose proof (take_while_forallb is_id_char rest) as Hall.
  destruct (take_while is_id_char rest) as [|i0 id0] eqn:Eid; [discriminate|].
  destruct (drop_while is_id_char rest) as [|d [|d' tail]] eqn:Edrop;
    [| |discriminate].
  - intros H. injection H as <-. exists c, []. rewrite Hsplit.
    repeat split; auto; congruence.
  - destruct (is_char "/" d) eqn:Hd; [|discriminate].
    apply is_char_eq in Hd. subst d.
    intros H. injection H as <-. exists c, ["/"%char]. rewrite Hsplit.
    repeat split; auto; congruence.
Qed.

Lemma match_here_complete c id tail :
  to_lower c = "c"%char -> id <> [] -> forallb is_id_char id = true ->
  tail = [] \/ tail = ["/"%char] ->
  match_here ("/"%char :: c :: "/"%char :: id ++ tail) = Some id.
Proof.
  intros Hc Hne Hall Htail. unfold match_here.
  rewrite Hc. change (is_char "c" "c") with true. cbv iota.
  destruct Htail as [->| ->].
  - rewrite app_nil_r, take_while_all, drop_while_all by assumption.
    destruct id; [congruence|reflexivity].
  - rewrite take_while_app_stop by (auto; reflexivity).
    rewrite drop_while_app_stop by reflexivity.
    rewrite drop_while_all by assumption.
    destruct id; [congruence|reflexivity].
Qed.

Lemma regex_match_cons a s :
  regex_match (a :: s)
  = match match_here (a :: s) with
    | Some id => Some id
    | None => regex_match s
    end.
Proof. reflexivity. Qed.

Lemma regex_match_some s id :
  regex_match s = Some id ->
  exists pre suffix, s = pre ++ suffix /\ match_here suffix = Some id.
Proof.
  induction s as [|a s IH].
  - discriminate.
  - rewrite regex_match_cons.
    destruct (match_here (a :: s)) as [id'|] eqn:E.
    + intros H. injection H as ->. exists [], (a :: s). auto.
    + intros H. destruct (IH H) as (pre & suffix & -> & Hm).
      exists (a :: pre), suffix. auto.
Qed.

Lemma regex_match_none pre : forall suffix,
  regex_match (pre ++ suffix) = None -> match_here suffix = None.
Proof.
  induction pre as [|a pre IH]; intros suffix.
  - destruct suffix as [|b suffix].
    + reflexivity.
    + cbn [app]. rewrite regex_match_cons.
      destruct (match_here (b :: suffix)); [discriminate|reflexivity].
  - cbn [app]. rewrite regex_match_cons.
    destruct (match_here (a :: pre ++ suffix)); [discriminate|]. apply IH.
Qed.

(** The pattern fails on a path exactly when the path has no identifier
    segment. *)
Lemma regex_match_none_iff path :
  regex_match (list_ascii_of_string path) = None
  <-> ~ has_identifier_segment path.
Proof.
  split.
  - intros Hnone (pre & c & id & tail & Hs & Hc & Hne & Hall & Htail).
    rewrite Hs in Hnone. apply regex_match_none in Hnone.
    rewrite match_here_complete in Hnone by assumption. discriminate.
  - intros Hno. destruct (regex_match (list_ascii_of_string path)) as [id|] eqn:E;
      [|reflexivity].
    exfalso. apply Hno.
    destruct (regex_match_some _ E) as (pre & suffix & Hs & Hm).
    destruct (match_here_sound _ Hm) as (c & tail & -> & Hc & Hne & Hall & Htail).
    exists pre, c, id, tail. auto.
Qed.

End Pattern.

(** ** What the parser stores *)

Section ParserOutput.
Context {P : URL.Platform}.

Local Abbreviation clean_path := (Forall (fun s => clean_segment s = true)).

Lemma Forall_removelast (A : Type) (Q : A -> Prop) (l : list A) :
  Forall Q l -> Forall Q (removelast l).
Proof.
  induction 1 as [|a l Ha Hl IH]; simpl; auto.
  destruct l; auto.
Qed.

Lemma split_segments_raw s : forall cur,
  forallb (fun c => negb (URL.is_query_or_fragment c)) s = true ->
  raw_segment cur = true ->
  Forall (fun raw => raw_segment raw = true) (URL.split_segments cur s).
Proof.
  induction s as [|c s IH]; intros cur Hs Hcur; simpl in *.
  - constructor; auto. unfold raw_segment in *. now rewrite forallb_rev.
  - apply andb_true_iff in Hs as [Hc Hs].
    destruct (URL.is_slash c) eqn:E.
    + constructor; [unfold raw_segment in *; now rewrite forallb_rev|].
      now apply IH.
    + apply IH; auto. unfold raw_segment in *. simpl. now rewrite E, Hc, Hcur.
Qed.

Lemma path_segments_output raws : forall path,
  clean_path path ->
  Forall (fun raw => raw_segment raw = true) raws ->
  clean_path (URL.path_segments path raws).
Proof.
  induction raws as [|raw raws IH]; intros path Hpath Hraws; simpl; auto.
  inversion Hraws as [|? ? Hraw Hrest]; subst.
  apply IH; auto.
  destruct (URL.is_double_dot (URL.percent_encode raw)) eqn:Edd.
  { destruct (URL.is_last raws).
    - apply Forall_app. split; [now apply Forall_removelast|]. now constructor.
    - now apply Forall_removelast. }
  destruct (URL.is_single_dot (URL.percent_encode raw)) eqn:Esd.
  { destruct (URL.is_last raws); auto.
    apply Forall_app. split; [assumption|]. now constructor. }
  apply Forall_app. split; [assumption|]. constructor; [|constructor].
  unfold clean_segment. rewrite Edd, Esd.
  now rewrite (percent_encode_clean _ Hraw).
Qed.

Lemma path_state_output path input :
  clean_path path -> clean_path (URL.path_state path input).
Proof.
  intros Hpath. unfold URL.path_state.
  apply path_segments_output; auto.
  apply split_segments_raw; [|reflexivity].
  apply take_while_forallb.
Qed.

Lemma path_start_state_output rest path :
  URL.path_start_state rest = URL.Parsed path -> clean_path path.
Proof.
  unfold URL.path_start_state.
  destruct rest as [|c r]; [|destruct (URL.is_slash c)];
    intros H; injection H as <-; now apply path_state_output.
Qed.

Lemma authority_state_output s path :
  URL.authority_state s = URL.Parsed path -> clean_path path.
Proof.
  unfold URL.authority_state.
  destruct (URL.after_last_at _ _ _) as [seen hostport].
  destruct hostport; [discriminate|].
  destruct (URL.split_host _ _ _) as [host port].
  destruct host; [discriminate|].
  destruct (negb _); [discriminate|].
  destruct port as [p|]; [destruct (URL.port_ok p); [|discriminate]|];
    apply path_start_state_output.
Qed.

Lemma relative_state_output s path :
  URL.relative_state s = URL.Parsed path -> clean_path path.
Proof.
  unfold URL.relative_state, URL.special_authority.
  destruct s as [|c r].
  { intros H. injection H as <-. now repeat constructor. }
  destruct (URL.is_slash c).
  - destruct r as [|c' r'].
    + intros H. injection H as <-. now apply path_state_output.
    + destruct (URL.is_slash c').
      * apply authority_state_output.
      * intros H. injection H as <-. now apply path_state_output.
  - destruct (URL.is_query_or_fragment c); intros H; injection H as <-.
    + now repeat constructor.
    + apply path_state_output. simpl. constructor.
Qed.

(** Every segment of a parsed path is clean. *)
Lemma parser_output x path :
  URL.basic_url_parser x = URL.Parsed path -> clean_path path.
Proof.
  unfold URL.basic_url_parser.
  destruct (URL.scheme_start_state _) as [[scheme rest]|].
  - destruct (URL.special_of scheme); [|discriminate].
    destruct (URL.special_eqb _ _).
    + apply relative_state_output.
    + apply authority_state_output.
  - apply relative_state_output.
Qed.

Lemma drop_empty_sub (segs : list chars) (Q : chars -> Prop) :
  Forall Q segs -> Forall Q (drop_empty segs).
Proof.
  induction 1 as [|s segs Hs Hsegs IH]; simpl; auto.
  destruct (is_nil s); auto.
Qed.

Lemma drop_empty_first segs :
  drop_empty segs = [] \/ first_nonempty (drop_empty segs) = true.
Proof.
  induction segs as [|s segs IH]; simpl; auto.
  destruct s; simpl; auto.
Qed.

Lemma drop_trailing_empty_clean path :
  clean_path path -> clean_path (drop_trailing_empty path).
Proof.
  intros H. unfold drop_trailing_empty.
  apply Forall_rev, drop_empty_sub, Forall_rev, H.
Qed.

Lemma drop_trailing_empty_last path :
  drop_trailing_empty path = []
  \/ last_nonempty (drop_trailing_empty path) = true.
Proof.
  unfold drop_trailing_empty, last_nonempty. rewrite rev_involutive.
  destruct (drop_empty_first (rev path)) as [->|H]; auto.
Qed.

End ParserOutput.

(** ** Identifiers of refs *)

Section ExtractId.
Context {P : URL.Platform}.

Lemma list_ascii_of_string_app (a b : string) :
  list_ascii_of_string (a ++ b) = list_ascii_of_string a ++ list_ascii_of_string b.
Proof. induction a as [|c a IH]; simpl; congruence. Qed.

Lemma list_ascii_of_slashes k : list_ascii_of_string (slashes k) = repeat "/"%char k.
Proof. apply list_ascii_of_string_of_list_ascii. Qed.

Lemma normalizePath_canonical s1 segs k suf x :
  s1 <> [] ->
  Forall (fun s => clean_segment s = true) (s1 :: segs) ->
  last_nonempty (s1 :: segs) = true ->
  query_suffix suf ->
  list_ascii_of_string x = URL.serialize_path (s1 :: segs) ++ repeat "/"%char k ++ suf ->
  normalizePath x = string_of_list_ascii (URL.serialize_path (s1 :: segs)).
Proof.
  intros Hne Hall Hlast Hsuf Hx. unfold normalizePath.
  now rewrite Hx, normalize_canonical.
Qed.

Lemma extractId_of_path x p :
  x <> EmptyString -> normalizePath x = p ->
  extractIdFromHref x
  = option_map string_of_list_ascii (regex_match (list_ascii_of_string p)).
Proof.
  intros Hx <-. unfold extractIdFromHref. destruct x; congruence.
Qed.

Lemma extractId_variant segs k suf x :
  segs = c_abc \/ segs = g_xyz_c_abc ->
  query_suffix suf ->
  list_ascii_of_string x = URL.serialize_path segs ++ repeat "/"%char k ++ suf ->
  extractIdFromHref x = Some "abc-123"%string.
Proof.
  intros Hsegs Hsuf Hx.
  assert (Hne : x <> EmptyString).
  { intros E. subst x. destruct Hsegs as [-> | ->]; discriminate Hx. }
  destruct Hsegs as [-> | ->]; unfold c_abc, g_xyz_c_abc in Hx.
  - erewrite extractId_of_path;
      [|assumption
       |apply (@normalizePath_canonical
                 (list_ascii_of_string "c") [list_ascii_of_string "abc-123"] k suf);
        [discriminate|repeat constructor|reflexivity|assumption|exact Hx]].
    rewrite list_ascii_of_string_of_list_ascii. reflexivity.
  - erewrite extractId_of_path;
      [|assumption
       |apply (@normalizePath_canonical
                 (list_ascii_of_string "g")
                 [list_ascii_of_string "xyz"; list_ascii_of_string "c";
                  list_ascii_of_string "abc-123"] k suf);
        [discriminate|repeat constructor|reflexivity|assumption|exact Hx]].
    rewrite list_ascii_of_string_of_list_ascii. reflexivity.
Qed.

(** C4.  [extractIdFromHref] yields the identifier ["abc-123"] for
    ["/c/abc-123"] and for ["/g/xyz/c/abc-123"], with any number [k] of
    trailing slashes and with any query string [q] appended; it yields
    null for ["/c/"], and for every ref whose normalized path has no
    identifier segment. *)
Theorem extractId_examples (k : nat) (q : string) :
  extractIdFromHref ("/c/abc-123" ++ slashes k) = Some "abc-123"%string
  /\ extractIdFromHref ("/g/xyz/c/abc-123" ++ slashes k) = Some "abc-123"%string
  /\ extractIdFromHref ("/c/abc-123" ++ slashes k ++ "?" ++ q) = Some "abc-123"%string
  /\ extractIdFromHref ("/g/xyz/c/abc-123" ++ slashes k ++ "?" ++ q)
     = Some "abc-123"%string
  /\ extractIdFromHref "/c/" = None
  /\ (forall x, ~ has_identifier_segment (normalizePath x) ->
                extractIdFromHref x = None).
Proof.
  assert (Hq : query_suffix ("?"%char :: list_ascii_of_string q)).
  { right. exists "?"%char, (list_ascii_of_string q). auto. }
  refine (conj _ (conj _ (conj _ (conj _ (conj _ _))))).
  - apply extractId_variant with (segs := c_abc) (k := k) (suf := []);
      [now left | now left |].
    now rewrite list_ascii_of_string_app, list_ascii_of_slashes, app_nil_r.
  - apply extractId_variant with (segs := g_xyz_c_abc) (k := k) (suf := []);
      [now right | now left |].
    now rewrite list_ascii_of_string_app, list_ascii_of_slashes, app_nil_r.
  - apply extractId_variant
      with (segs := c_abc) (k := k) (suf := "?"%char :: list_ascii_of_string q);
      [now left | assumption |].
    now rewrite !list_ascii_of_string_app, list_ascii_of_slashes.
  - apply extractId_variant
      with (segs := g_xyz_c_abc) (k := k) (suf := "?"%char :: list_ascii_of_string q);
      [now right | assumption |].
    now rewrite !list_ascii_of_string_app, list_ascii_of_slashes.
  - reflexivity.
  - intros x Hno. unfold extractIdFromHref. destruct x; [reflexivity|].
    apply regex_match_none_iff in Hno. now rewrite Hno.
Qed.

(** The identifier, when there is one, is the identifier segment that
    ends the normalized path. *)
Lemma extractId_some x id :
  extractIdFromHref x = Some id ->
  has_identifier_segment (normalizePath x)
  /\ exists pre c tail,
       list_ascii_of_string (normalizePath x)
       = pre ++ "/"%char :: c :: "/"%char :: list_ascii_of_string id ++ tail
       /\ (tail = [] \/ tail = ["/"%char]).
Proof.
  unfold extractIdFromHref. destruct x as [|a x]; [discriminate|].
  destruct (regex_match _) as [i|] eqn:E; [|discriminate].
  simpl. intros H. injection H as <-.
  destruct (regex_match_some _ E) as (pre & suffix & Hs & Hm).
  destruct (match_here_sound _ Hm) as (c & tail & -> & Hc & Hne & Hall & Htail).
  split.
  - exists pre, c, i, tail. auto.
  - exists pre, c, tail. now rewrite list_ascii_of_string_of_list_ascii.
Qed.

End ExtractId.

(** ** Idempotence of the normalization *)

Section Idempotence.
Context {P : URL.Platform}.

Lemma serialize_double_slash segs :
  starts_with (list_ascii_of_string "//") (URL.serialize_path ([] :: segs))
  = match segs with [] => false | _ :: _ => true end.
Proof. destruct segs; reflexivity. Qed.

Lemma normalize_chars_nil : normalize_chars [] = [].
Proof. reflexivity. Qed.

Lemma normalize_chars_idempotent x path :
  URL.basic_url_parser x = URL.Parsed path ->
  starts_with (list_ascii_of_string "//") (normalize_chars x) = false ->
  normalize_chars (normalize_chars x) = normalize_chars x.
Proof.
  intros Hparse. pose proof (parser_output _ Hparse) as Hclean.
  assert (Hx : normalize_chars x = URL.serialize_path (drop_trailing_empty path)).
  { unfold normalize_chars, URL.pathname. rewrite Hparse.
    now apply strip_serialize. }
  rewrite Hx. intros Hstart.
  pose proof (drop_trailing_empty_clean Hclean) as Hclean'.
  destruct (drop_trailing_empty_last path) as [->|Hlast]; [reflexivity|].
  destruct (drop_trailing_empty path) as [|s1 segs] eqn:E; [reflexivity|].
  destruct s1 as [|c1 s1].
  { rewrite serialize_double_slash in Hstart.
    destruct segs; [discriminate Hlast | discriminate Hstart]. }
  pose proof (@normalize_canonical P (c1 :: s1) segs 0 []) as H.
  simpl repeat in H. rewrite !app_nil_r in H.
  apply H; auto; [discriminate | now left].
Qed.

(** C5, as amended.  For every valid ref, that is every reference the
    URL parser accepts as a relative reference or as an absolute URL
    with the scheme http, https, ws, wss or ftp, whose normalized path
    does not begin with two slashes, normalizing twice gives the same
    path as normalizing once. *)
Theorem normalizePath_idempotent (x : string) :
  valid_ref x ->
  starts_with (list_ascii_of_string "//")
              (list_ascii_of_string (normalizePath x)) = false ->
  normalizePath (normalizePath x) = normalizePath x.
Proof.
  intros [path Hparse]. unfold normalizePath.
  rewrite !list_ascii_of_string_of_list_ascii. intros Hstart.
  now rewrite (normalize_chars_idempotent _ Hparse Hstart).
Qed.

End Idempotence.

(** Witness for C4: a ref without identifier segment. *)
Lemma extractId_examples_witness :
  ~ has_identifier_segment (@normalizePath URL.https_page "/g/xyz")
  /\ @extractIdFromHref URL.https_page "/g/xyz" = None.
Proof.
  assert (H : ~ has_identifier_segment (@normalizePath URL.https_page "/g/xyz")).
  { apply regex_match_none_iff. vm_compute. reflexivity. }
  split; [exact H|].
  exact (proj2 (proj2 (proj2 (proj2 (proj2
           (@extractId_examples URL.https_page 0 EmptyString))))) "/g/xyz"%string H).
Defined.

(** C5, counterexample.  On an https page, the ref
    ["https://chatgpt.com//c/abc-123"] is accepted by the URL parser and
    carries the identifier ["abc-123"]; its normalized path is
    ["//c/abc-123"], which normalizes to ["/abc-123"]. *)
Lemma normalizePath_not_idempotent :
  @valid_ref URL.https_page "https://chatgpt.com//c/abc-123"
  /\ @extractIdFromHref URL.https_page "https://chatgpt.com//c/abc-123"
     = Some "abc-123"%string
  /\ @normalizePath URL.https_page "https://chatgpt.com//c/abc-123"
     = "//c/abc-123"%string
  /\ @normalizePath URL.https_page
       (@normalizePath URL.https_page "https://chatgpt.com//c/abc-123")
     = "/abc-123"%string
  /\ @normalizePath URL.https_page
       (@normalizePath URL.https_page "https://chatgpt.com//c/abc-123")
     <> @normalizePath URL.https_page "https://chatgpt.com//c/abc-123".
Proof.
  split; [eexists; vm_compute; reflexivity|].
  repeat split; try (vm_compute; reflexivity).
  vm_compute. discriminate.
Qed.

(** Witness for C5: the ref of a row, with trailing slash and query. *)
Lemma normalizePath_idempotent_witness :
  @valid_ref URL.https_page "/g/xyz/c/abc-123/?model=x"
  /\ starts_with (list_ascii_of_string "//")
       (list_ascii_of_string (@normalizePath URL.https_page "/g/xyz/c/abc-123/?model=x"))
     = false
  /\ @normalizePath URL.https_page
       (@normalizePath URL.https_page "/g/xyz/c/abc-123/?model=x")
     = @normalizePath URL.https_page "/g/xyz/c/abc-123/?model=x".
Proof.
  assert (Hv : @valid_ref URL.https_page "/g/xyz/c/abc-123/?model=x").
  { eexists. vm_compute. reflexivity. }
  assert (Hs : starts_with (list_ascii_of_string "//")
       (list_ascii_of_string (@normalizePath URL.https_page "/g/xyz/c/abc-123/?model=x"))
     = false) by (vm_compute; reflexivity).
  split; [exact Hv|]. split; [exact Hs|].
  exact (@normalizePath_idempotent URL.https_page "/g/xyz/c/abc-123/?model=x"%string Hv Hs).
Defined.


(* ===================================================================== *)
(** * Running tasks *)
(* ===================================================================== *)

Section ExecFacts.
Context {Page : Type} {H : Host Page}.
Variable self : ChatBulkUI.

Local Abbreviation Task := (Task Page).
Local Abbreviation Store := (Store Page).
Local Abbreviation exec := (exec self).

Lemma exec_bind {A B : Type} (t : Task A) (g : A -> Task B) : forall now s,
  exec (bind t g) now s
  = match exec t now s with
    | (now', s', Returned a) => exec (g a) now' s'
    | (now', s', Thrown e) => (now', s', Thrown e)
    | (now', s', OutOfFuel) => (now', s', OutOfFuel)
    end.
Proof. induction t; intros; simpl; auto. Qed.

Lemma exec_try_catch {A : Type} (t : Task A) (h : Error -> Task A) : forall now s,
  exec (try_catch t h) now s
  = match exec t now s with
    | (now', s', Thrown e) => exec (h e) now' s'
    | r => r
    end.
Proof. induction t; intros; simpl; auto. Qed.

Lemma exec_try_finally {A : Type} (t : Task A) (c : Task unit) : forall now s,
  exec (try_finally t c) now s
  = match exec t now s with
    | (now', s', Returned a) => exec (c ;; Ret a) now' s'
    | (now', s', Thrown e) => exec (c ;; Throw e) now' s'
    | (now', s', OutOfFuel) => (now', s', OutOfFuel)
    end.
Proof. induction t; intros; simpl; auto. Qed.

Lemma exec_await {A : Type} (t : Task A) : forall now s,
  exec (await t) now s
  = match exec t now s with
    | (now', s', OutOfFuel) => (now', s', OutOfFuel)
    | (now', s', o) => (fst (tick self now' s'), snd (tick self now' s'), o)
    end.
Proof. induction t; intros; simpl; auto. Qed.

Lemma exec_Do {A : Type} (f : Z -> Store -> Store * Task A) now s :
  exec (Do f) now s = exec (snd (f now s)) now (fst (f now s)).
Proof. reflexivity. Qed.

Lemma exec_Ret {A : Type} (a : A) now s : exec (Ret a) now s = (now, s, Returned a).
Proof. reflexivity. Qed.

Lemma exec_Throw {A : Type} e now s :
  exec (Throw e : Task A) now s = (now, s, Thrown e).
Proof. reflexivity. Qed.

Lemma exec_Wait {A : Type} due (k : Task A) now s :
  exec (Wait due k) now s
  = exec k (resume_time due now s)
           (resume_store self (resume_time due now s) s).
Proof. reflexivity. Qed.

Lemma exec_modify (f : Store -> Store) now s :
  exec (modify f) now s = (now, f s, Returned tt).
Proof. reflexivity. Qed.

Lemma exec_gets {A : Type} (f : Store -> A) now s :
  exec (gets f) now s = (now, s, Returned (f s)).
Proof. reflexivity. Qed.

Lemma exec_catch_null {A : Type} (t : Task A) now s :
  exec (catch_null t) now s
  = match exec t now s with
    | (now', s', Returned a) => (now', s', Returned (Some a))
    | (now', s', Thrown _) => (now', s', Returned None)
    | (now', s', OutOfFuel) => (now', s', OutOfFuel)
    end.
Proof.
  unfold catch_null. rewrite exec_try_catch, exec_bind.
  destruct (exec t now s) as [[now' s'] [a|e|]]; reflexivity.
Qed.

(** ** What the updates of the bar leave alone *)

Lemma job_setProgress p t (s : Store) : job (setProgress p t s) = job s.
Proof. destruct t; reflexivity. Qed.

Lemma selected_setProgress p t (s : Store) :
  selected (setProgress p t s) = selected s.
Proof. destruct t; reflexivity. Qed.

Lemma stealth_setProgress p t (s : Store) :
  stealth_attr (setProgress p t s) = stealth_attr s.
Proof. destruct t; reflexivity. Qed.

Lemma running_setProgress p t (s : Store) :
  running (bar (setProgress p t s)) = running (bar s).
Proof. destruct t; reflexivity. Qed.

Lemma loader_setProgress p t (s : Store) :
  loader_hidden (bar (setProgress p t s)) = loader_hidden (bar s).
Proof. destruct t; reflexivity. Qed.

Lemma trace_setProgress p t (s : Store) : trace (setProgress p t s) = trace s.
Proof. destruct t; reflexivity. Qed.

Lemma page_setProgress p t (s : Store) : page (setProgress p t s) = page s.
Proof. destruct t; reflexivity. Qed.

(** ** What the event loop leaves alone *)

Lemma fire_job cb (s : Store) : job (fire self cb s) = job s.
Proof. destruct cb; simpl; auto. destruct (status (bar s)); reflexivity. Qed.

Lemma fire_trace cb (s : Store) : trace (fire self cb s) = trace s.
Proof. destruct cb; simpl; auto. destruct (status (bar s)); reflexivity. Qed.

Lemma fire_page cb (s : Store) : page (fire self cb s) = page s.
Proof. destruct cb; simpl; auto. destruct (status (bar s)); reflexivity. Qed.

Lemma fire_stealth cb (s : Store) : stealth_attr (fire self cb s) = stealth_attr s.
Proof. destruct cb; simpl; auto. destruct (status (bar s)); reflexivity. Qed.

Lemma fire_selected cb (s : Store) : selected (fire self cb s) = selected s.
Proof. destruct cb; simpl; auto. destruct (status (bar s)); reflexivity. Qed.

Lemma fire_running cb (s : Store) :
  running (bar (fire self cb s)) = running (bar s).
Proof. destruct cb; simpl; auto. destruct (status (bar s)); reflexivity. Qed.

Lemma fire_loader cb (s : Store) :
  loader_hidden (bar (fire self cb s)) = loader_hidden (bar s).
Proof. destruct cb; simpl; auto. destruct (status (bar s)); reflexivity. Qed.

Lemma fire_due_keeps {X : Type} (f : Store -> X) now l : forall s,
  (forall cb s, f (fire self cb s) = f s) ->
  (forall l s, f (set_timers l s) = f s) ->
  f (fire_due self now l s) = f s.
Proof.
  induction l as [|[d c] l IH]; intros s Hfire Hset; simpl.
  - apply Hset.
  - destruct (d <=? now)%Z.
    + rewrite IH by assumption. apply Hfire.
    + apply Hset.
Qed.

Lemma resume_store_job now (s : Store) : job (resume_store self now s) = job s.
Proof.
  unfold resume_store.
  rewrite (fire_due_keeps (@job Page)); auto using fire_job.
Qed.

Lemma resume_store_trace now (s : Store) : trace (resume_store self now s) = trace s.
Proof.
  unfold resume_store.
  rewrite (fire_due_keeps (@trace Page)); auto using fire_trace.
Qed.

Lemma resume_store_page now (s : Store) :
  page (resume_store self now s) = evolve now (page s).
Proof.
  unfold resume_store.
  rewrite (fire_due_keeps (@page Page)); auto using fire_page.
Qed.

Lemma resume_store_stealth now (s : Store) :
  stealth_attr (resume_store self now s) = stealth_attr s.
Proof.
  unfold resume_store.
  rewrite (fire_due_keeps (@stealth_attr Page)); auto using fire_stealth.
Qed.

Lemma resume_store_selected now (s : Store) :
  selected (resume_store self now s) = selected s.
Proof.
  unfold resume_store.
  rewrite (fire_due_keeps (@selected Page)); auto using fire_selected.
Qed.

Lemma resume_store_running now (s : Store) :
  running (bar (resume_store self now s)) = running (bar s).
Proof.
  unfold resume_store.
  rewrite (fire_due_keeps (fun s => running (bar s))); auto using fire_running.
Qed.

Lemma resume_store_loader now (s : Store) :
  loader_hidden (bar (resume_store self now s)) = loader_hidden (bar s).
Proof.
  unfold resume_store.
  rewrite (fire_due_keeps (fun s => loader_hidden (bar s))); auto using fire_loader.
Qed.

Lemma resume_time_ge due now (s : Store) :
  (now <= resume_time due now s /\ due <= resume_time due now s)%Z.
Proof. unfold resume_time. lia. Qed.

End ExecFacts.


(* ===================================================================== *)
(** * Rows, configuration, waits *)
(* ===================================================================== *)

Section FindRow.
Context {Page : Type} {H : Host Page}.

(** C6.  [findRowByHref] answers a candidate row only when the
    normalized path of that candidate equals the normalized path of the
    target, and answers null exactly when no candidate has that
    normalized path. *)
Theorem findRowByHref_exact (p : Page) (href : string) :
  (forall a, findRowByHref p href = Some a ->
     In a (querySelectorAll p (findSidebar p) SelRow)
     /\ normalizePath (href_of p a) = normalizePath href)
  /\ (findRowByHref p href = None <->
      forall a, In a (querySelectorAll p (findSidebar p) SelRow) ->
                normalizePath (href_of p a) <> normalizePath href).
Proof.
  unfold findRowByHref. split.
  - intros a Ha. apply find_some in Ha as [Hin Heq].
    split; [assumption|]. now apply String.eqb_eq.
  - split.
    + intros Hnone a Hin. apply String.eqb_neq.
      exact (find_none _ _ Hnone a Hin).
    + intros Hall.
      destruct (find _ _) as [a|] eqn:E; [|reflexivity].
      apply find_some in E as [Hin Heq].
      apply String.eqb_eq in Heq. now destruct (Hall a Hin).
Qed.


End FindRow.

(** Witness for C6: the second row of the sidebar, looked up with a
    trailing slash. *)
Lemma findRowByHref_exact_witness :
  findRowByHref Scenario.three_rows "/c/bbb-2/" = Some 20%nat
  /\ In 20%nat (querySelectorAll Scenario.three_rows
                  (findSidebar Scenario.three_rows) SelRow)
  /\ normalizePath (href_of Scenario.three_rows 20%nat) = normalizePath "/c/bbb-2/".
Proof.
  assert (E : findRowByHref Scenario.three_rows "/c/bbb-2/" = Some 20%nat)
    by (vm_compute; reflexivity).
  split; [exact E|].
  exact (proj1 (findRowByHref_exact Scenario.three_rows "/c/bbb-2/") 20%nat E).
Defined.

(** No prefix matching: a target that is a proper prefix of the path of a
    row finds nothing. *)
Lemma findRowByHref_no_prefix :
  findRowByHref Scenario.three_rows "/c/bbb" = None
  /\ findRowByHref Scenario.three_rows "/c/bbb-2" = Some 20%nat.
Proof. split; vm_compute; reflexivity. Qed.

Section Constructor.

(** C7.  The concurrency of an instance is the option clamped to the
    interval from 1 to 4; an instance built with concurrency 10 is the
    instance built with concurrency 4, and one built with concurrency 0
    is the one built with concurrency 1. *)
Theorem concurrency_clamped (o : ChatBulkOptions) (c : Z) :
  concurrency (new_ChatBulkUI (with_concurrency c o)) = Z.max 1 (Z.min 4 c)
  /\ (1 <= concurrency (new_ChatBulkUI (with_concurrency c o)) <= 4)%Z
  /\ new_ChatBulkUI (with_concurrency 10 o) = new_ChatBulkUI (with_concurrency 4 o)
  /\ new_ChatBulkUI (with_concurrency 0 o) = new_ChatBulkUI (with_concurrency 1 o).
Proof.
  repeat split; simpl; lia.
Qed.

(** The pool has as many workers as the clamped concurrency says. *)
Lemma worker_count_clamped (o : ChatBulkOptions) (c : Z) :
  worker_count (new_ChatBulkUI (with_concurrency c o))
  = Z.to_nat (Z.max 1 (Z.min 4 c))
  /\ (1 <= worker_count (new_ChatBulkUI (with_concurrency c o)) <= 4)%nat.
Proof. unfold worker_count. simpl. lia. Qed.

(** Without the option the concurrency is 2. *)
Lemma concurrency_default : concurrency (new_ChatBulkUI no_options) = 2%Z.
Proof. reflexivity. Qed.

End Constructor.

Section WaitFor.
Context {Page : Type} {H : Host Page}.
Variable self : ChatBulkUI.

Local Abbreviation exec := (exec self).

Lemma polls_record_poll (s : Store Page) :
  polls (trace (record EvPoll s)) = S (polls (trace s)).
Proof. reflexivity. Qed.

Lemma waitFor_loop_polls {A : Type} (fn : Store Page -> option A) t0 timeout step :
  forall fuel now s now' s' o,
    exec (waitFor_loop fuel fn t0 timeout step) now s = (now', s', o) ->
    (polls (trace s) <= polls (trace s'))%nat
    /\ forall e, o = Thrown e ->
         e = E_TIMEOUT /\ fn s = None /\ (polls (trace s) < polls (trace s'))%nat.
Proof.
  induction fuel as [|fuel IH]; intros now s now' s' o.
  - simpl. intros E. injection E as <- <- <-. split; [lia|discriminate].
  - cbn [waitFor_loop]. rewrite exec_Do.
    destruct (fn s) as [res|] eqn:Efn; cbn [fst snd].
    + simpl. intros E. injection E as <- <- <-.
      rewrite polls_record_poll. split; [lia|discriminate].
    + destruct (now - t0 >? timeout)%Z; cbn [fst snd].
      * simpl. intros E. injection E as <- <- <-.
        change (polls (trace (record (EvTimeout timeout) (record EvPoll s))))
          with (S (polls (trace s))).
        split; [lia|]. intros e E. injection E as <-. auto.
      * rewrite exec_Wait. intros E. apply IH in E as [Hle Hthrown].
      rewrite resume_store_trace, polls_record_poll in Hle.
      split; [lia|]. intros e He.
      destruct (Hthrown e He) as (-> & _ & Hlt).
      rewrite resume_store_trace, polls_record_poll in Hlt.
      split; [reflexivity|]. split; [reflexivity|lia].
Qed.

(** C10.  [waitFor] evaluates its predicate before it looks at the
    deadline: when the first evaluation answers a value, [waitFor]
    resolves with it at once, whatever the timeout, zero and negative
    ones too; and it can reject only with the timeout error, after the
    first evaluation answered nothing, with at least one evaluation
    made. *)
Theorem waitFor_first_evaluation {A : Type} (fn : Store Page -> option A)
    (timeout step : Z) (now : Z) (s : Store Page) :
  (forall res, fn s = Some res ->
     exec (waitFor fn timeout step) now s = (now, record EvPoll s, Returned res))
  /\ (forall now' s' e,
        exec (waitFor fn timeout step) now s = (now', s', Thrown e) ->
        e = E_TIMEOUT /\ fn s = None
        /\ (polls (trace s) < polls (trace s'))%nat).
Proof.
  split.
  - intros res Hres. unfold waitFor, polls_bound.
    rewrite exec_Do. cbn [fst snd].
    rewrite Nat.add_comm. cbn [Nat.add waitFor_loop].
    rewrite exec_Do, Hres. reflexivity.
  - intros now' s' e E. unfold waitFor in E. rewrite exec_Do in E.
    cbn [fst snd] in E.
    exact (proj2 (waitFor_loop_polls _ _ _ _ _ _ _ E) e eq_refl).
Qed.

End WaitFor.

(** Witness for C10: on the page with three rows, a wait for the first
    row with a negative timeout resolves at once; a wait for a row that
    does not exist is rejected after its polls. *)
Lemma waitFor_first_evaluation_witness :
  let self := new_ChatBulkUI no_options in
  let s := Scenario.start Scenario.three_rows in
  let present := fun s : Store Scenario.doc => findRowByHref (page s) "/c/aaa-1" in
  let absent := fun s : Store Scenario.doc => findRowByHref (page s) "/c/zzz-9" in
  present s = Some 10%nat
  /\ exec self (waitFor present (-5) default_step) 0 s
     = (0%Z, record EvPoll s, Returned 10%nat)
  /\ (exists now' s',
        exec self (waitFor absent 100 default_step) 0 s = (now', s', Thrown E_TIMEOUT)
        /\ absent s = None
        /\ (polls (trace s) < polls (trace s'))%nat).
Proof.
  intros self s present absent.
  assert (Hp : present s = Some 10%nat) by (vm_compute; reflexivity).
  split; [exact Hp|]. split.
  - exact (proj1 (waitFor_first_evaluation self present (-5) default_step 0 s)
             10%nat Hp).
  - destruct (exec self (waitFor absent 100 default_step) 0 s)
      as [[now' s'] o] eqn:E.
    assert (Ho : o = Thrown E_TIMEOUT).
    { apply (f_equal snd) in E. vm_compute in E. now symmetry. }
    subst o. exists now', s'. split; [reflexivity|].
    destruct (proj2 (waitFor_first_evaluation self absent 100 default_step 0 s)
                now' s' E_TIMEOUT E) as (_ & Hn & Hlt).
    auto.
Defined.


(* ===================================================================== *)
(** * Tasks that leave the counters alone and run to their end *)
(* ===================================================================== *)

Section Quiet.
Context {Page : Type} {H : Host Page}.
Variable self : ChatBulkUI.

Local Abbreviation Task := (Task Page).
Local Abbreviation Store := (Store Page).
Local Abbreviation exec := (exec self).
Local Abbreviation quiet := (@quiet Page _).
Local Open Scope Z_scope.

Lemma quiet_mono {A : Type} (t : Task A) : forall lo lo',
  lo <= lo' -> quiet t lo -> quiet t lo'.
Proof.
  induction t as [a|e| |upd k IH|due k IH]; intros lo lo' Hle Hq; simpl in *; auto.
  - intros now s Hnow. apply Hq. lia.
  - apply (IH (Z.max lo due)); [lia|assumption].
Qed.

Lemma quiet_bind {A B : Type} (t : Task A) (g : A -> Task B) : forall lo,
  quiet t lo -> (forall a lo', lo <= lo' -> quiet (g a) lo') ->
  quiet (bind t g) lo.
Proof.
  induction t as [a|e| |upd k IH|due k IH]; intros lo Hq Hg; simpl in *; auto.
  - apply Hg. lia.
  - intros now s Hnow. destruct (Hq now s Hnow) as [Hjob Hk].
    split; [assumption|]. apply IH; [assumption|].
    intros a lo' Hlo'. apply Hg. lia.
  - apply IH; [assumption|]. intros a lo' Hlo'. apply Hg. lia.
Qed.

Lemma quiet_seq {A B : Type} (t : Task A) (u : Task B) lo :
  quiet t lo -> (forall lo', lo <= lo' -> quiet u lo') -> quiet (t ;; u) lo.
Proof. intros Ht Hu. apply quiet_bind; auto. Qed.

Lemma quiet_try_catch {A : Type} (t : Task A) (h : Error -> Task A) : forall lo,
  quiet t lo -> (forall e lo', lo <= lo' -> quiet (h e) lo') ->
  quiet (try_catch t h) lo.
Proof.
  induction t as [a|e| |upd k IH|due k IH]; intros lo Hq Hh; simpl in *; auto.
  - apply Hh. lia.
  - intros now s Hnow. destruct (Hq now s Hnow) as [Hjob Hk].
    split; [assumption|]. apply IH; [assumption|].
    intros e lo' Hlo'. apply Hh. lia.
  - apply IH; [assumption|]. intros e lo' Hlo'. apply Hh. lia.
Qed.

Lemma quiet_await {A : Type} (t : Task A) : forall lo,
  quiet t lo -> quiet (await t) lo.
Proof.
  induction t as [a|e| |upd k IH|due k IH]; intros lo Hq; simpl in *; auto.
  intros now s Hnow. destruct (Hq now s Hnow) as [Hjob Hk]. auto.
Qed.

Lemma quiet_catch_null {A : Type} (t : Task A) lo :
  quiet t lo -> quiet (catch_null t) lo.
Proof.
  intros Hq. unfold catch_null. apply quiet_try_catch.
  - apply quiet_bind; [assumption|]. intros; exact I.
  - intros; exact I.
Qed.

Lemma quiet_Do {A : Type} (f : Z -> Store -> Store * Task A) lo :
  (forall now s, lo <= now ->
                 job (fst (f now s)) = job s /\ quiet (snd (f now s)) now) ->
  quiet (Do f) lo.
Proof. intros Hf. exact Hf. Qed.

Lemma quiet_modify (f : Store -> Store) lo :
  (forall s, job (f s) = job s) -> quiet (modify f) lo.
Proof. intros Hf now s _. split; [apply Hf|exact I]. Qed.

Lemma quiet_gets {A : Type} (f : Store -> A) lo : quiet (gets f) lo.
Proof. intros now s _. split; [reflexivity|exact I]. Qed.

(** A quiet task run alone ends, with the counters as they were. *)
Lemma quiet_exec {A : Type} (t : Task A) : forall lo now s now' s' o,
  quiet t lo -> lo <= now -> exec t now s = (now', s', o) ->
  o <> OutOfFuel /\ job s' = job s /\ now <= now'.
Proof.
  induction t as [a|e| |upd k IH|due k IH]; intros lo now s now' s' o Hq Hlo E;
    simpl in *.
  - injection E as <- <- <-. repeat split; try lia. discriminate.
  - injection E as <- <- <-. repeat split; try lia. discriminate.
  - contradiction.
  - destruct (Hq now s Hlo) as [Hjob Hk].
    destruct (IH now s now now (upd now s) now' s' o Hk (Z.le_refl _) E)
      as (Ho & Hj & Hn).
    repeat split; auto. congruence.
  - pose proof (resume_time_ge due now s) as [Hn1 Hn2].
    assert (Hm : Z.max lo due <= resume_time due now s) by lia.
    destruct (IH (Z.max lo due) _ _ _ _ _ Hq Hm E) as (Ho & Hj & Hn).
    rewrite resume_store_job in Hj. repeat split; auto. lia.
Qed.

(** ** The primitives *)

Lemma quiet_sleep ms lo : quiet (sleep ms) lo.
Proof. intros now s _. simpl. auto. Qed.

Lemma quiet_idleOrSleep ms lo : quiet (idleOrSleep ms) lo.
Proof.
  intros now s _. simpl. split; [reflexivity|].
  destruct has_idle_callback; exact I.
Qed.

Lemma polls_needed_pos t0 timeout step lo :
  (1 <= polls_needed t0 timeout step lo)%nat.
Proof. unfold polls_needed. destruct (lo - t0 >? timeout); lia. Qed.

(** One step later, one evaluation less is needed. *)
Lemma polls_needed_step t0 timeout step lo now lo' fuel :
  0 < step -> lo <= now -> now - t0 <= timeout -> now + step <= lo' ->
  (polls_needed t0 timeout step lo <= S fuel)%nat ->
  (polls_needed t0 timeout step lo' <= fuel)%nat.
Proof.
  intros Hstep Hlo Hnow Hlo' Hfuel. unfold polls_needed in *.
  destruct (Z.gtb_spec (lo - t0) timeout) as [Hgt|Hle]; [lia|].
  destruct (Z.gtb_spec (lo' - t0) timeout) as [Hgt'|Hle']; [lia|].
  assert (Hdiv : (timeout - (lo' - t0)) / step
                 <= (timeout - (lo - t0)) / step - 1).
  { replace ((timeout - (lo - t0)) / step - 1)
      with ((timeout - (lo - t0) + (-1) * step) / step)
      by (rewrite Z.div_add by lia; lia).
    apply Z.div_le_mono; lia. }
  assert (0 <= (timeout - (lo' - t0)) / step) by (apply Z.div_pos; lia).
  lia.
Qed.

Lemma quiet_waitFor_loop {A : Type} (fn : Store -> option A) t0 timeout step :
  0 < step ->
  forall fuel lo,
    (polls_needed t0 timeout step lo <= fuel)%nat ->
    quiet (waitFor_loop fuel fn t0 timeout step) lo.
Proof.
  intros Hstep. induction fuel as [|fuel IH]; intros lo Hfuel.
  - pose proof (polls_needed_pos t0 timeout step lo). lia.
  - cbn [waitFor_loop]. apply quiet_Do. intros now s Hnow.
    destruct (fn s); cbn [fst snd]; [split; [reflexivity|exact I]|].
    destruct (Z.gtb_spec (now - t0) timeout) as [Hgt|Hle]; cbn [fst snd].
    + split; [reflexivity|exact I].
    + split; [reflexivity|]. cbn [quiet]. apply IH.
      apply (@polls_needed_step t0 timeout step lo now); auto; lia.
Qed.

Lemma quiet_waitFor {A : Type} (fn : Store -> option A) timeout step lo :
  0 < step -> quiet (waitFor fn timeout step) lo.
Proof.
  intros Hstep. unfold waitFor. apply quiet_Do. intros now s Hnow.
  cbn [fst snd]. split; [reflexivity|].
  apply quiet_waitFor_loop; [assumption|].
  unfold polls_needed, polls_bound.
  replace (now - now) with 0 by lia. rewrite Z.sub_0_r.
  destruct (0 >? timeout); lia.
Qed.

Lemma quiet_waitSidebarReady_loop t0 timeout :
  forall fuel lo,
    (polls_needed t0 timeout 50 lo <= fuel)%nat ->
    quiet (waitSidebarReady_loop fuel t0 timeout) lo.
Proof.
  induction fuel as [|fuel IH]; intros lo Hfuel.
  - pose proof (polls_needed_pos t0 timeout 50 lo). lia.
  - cbn [waitSidebarReady_loop]. apply quiet_Do. intros now s Hnow.
    destruct (Z.leb_spec (now - t0) timeout) as [Hle|Hgt]; cbn [fst snd].
    2:{ split; [reflexivity|exact I]. }
    destruct (querySelector _ _ _); cbn [fst snd];
      [split; [reflexivity|exact I]|].
    split; [reflexivity|].
    intros now1 s1 Hnow1. split; [reflexivity|].
    cbn [quiet bind await].
    intros now2 s2 Hnow2. split; [reflexivity|].
    cbn [quiet bind await]. apply IH.
    apply (@polls_needed_step t0 timeout 50 lo now); auto; lia.
Qed.

Lemma quiet_waitSidebarReady timeout lo : quiet (waitSidebarReady timeout) lo.
Proof.
  unfold waitSidebarReady. apply quiet_Do. intros now s Hnow.
  cbn [fst snd]. split; [reflexivity|].
  apply quiet_waitSidebarReady_loop.
  unfold polls_needed, polls_bound.
  replace (now - now) with 0 by lia. rewrite Z.sub_0_r.
  destruct (0 >? timeout); lia.
Qed.

Lemma default_step_pos : 0 < default_step.
Proof. reflexivity. Qed.

Lemma quiet_scrollIntoViewSmart el lo : quiet (scrollIntoViewSmart el) lo.
Proof.
  unfold scrollIntoViewSmart. apply quiet_Do. intros now s Hnow.
  destruct (outside_view (page s) el); cbn [fst snd].
  - split; [reflexivity|]. apply quiet_await, quiet_sleep.
  - split; [reflexivity|exact I].
Qed.

Lemma quiet_realClick el lo : quiet (realClick el) lo.
Proof.
  destruct el as [el|]; [|exact I]. unfold realClick.
  apply quiet_seq; [now apply quiet_modify|]. intros lo1 _.
  apply quiet_seq; [apply quiet_await, quiet_scrollIntoViewSmart|]. intros lo2 _.
  now apply quiet_modify.
Qed.

Lemma quiet_hover el lo : quiet (hover el) lo.
Proof. now apply quiet_modify. Qed.

Lemma quiet_safeCloseMenus lo : quiet (@safeCloseMenus Page H) lo.
Proof. now apply quiet_modify. Qed.

Lemma quiet_openMenu_loop btn id : forall n lo,
  quiet (openMenu_loop self n btn id) lo.
Proof.
  induction n as [|n IH]; intros lo; cbn [openMenu_loop].
  - apply quiet_Do. intros now s _.
    destruct (querySelector _ _ _); cbn [fst snd]; split; auto; exact I.
  - apply quiet_seq; [apply quiet_await, quiet_scrollIntoViewSmart|]. intros lo1 _.
    apply quiet_seq; [apply quiet_await, quiet_realClick|]. intros lo2 _.
    apply quiet_bind.
    + apply quiet_try_catch.
      * apply quiet_seq; [|intros; exact I].
        apply quiet_await, quiet_waitFor, default_step_pos.
      * intros; exact I.
    + intros [|] lo3 _; [exact I|].
      apply quiet_seq; [apply quiet_await, quiet_sleep|]. intros lo4 _. apply IH.
Qed.

Lemma quiet_openMenu btn lo : quiet (openMenu self btn) lo.
Proof.
  unfold openMenu. apply quiet_bind.
  - apply quiet_Do. intros now s _. destruct (id_of _ _); cbn [fst snd];
      split; auto; exact I.
  - intros id lo' _. apply quiet_openMenu_loop.
Qed.

Lemma quiet_confirm_deletion href lo : quiet (confirm_deletion self href) lo.
Proof.
  unfold confirm_deletion.
  apply quiet_bind;
    [apply quiet_await, quiet_catch_null, quiet_waitFor, default_step_pos|].
  intros [row|] lo1 _; [|exact I].
  apply quiet_bind;
    [apply quiet_await, quiet_catch_null, quiet_waitFor, default_step_pos|].
  intros [btn|] lo2 _; [|exact I].
  apply quiet_seq; [apply quiet_await, quiet_scrollIntoViewSmart|]. intros lo3 _.
  apply quiet_seq; [apply quiet_hover|]. intros lo4 _.
  apply quiet_seq; [apply quiet_await, quiet_openMenu|]. intros lo5 _.
  apply quiet_bind;
    [apply quiet_await, quiet_catch_null, quiet_waitFor, default_step_pos|].
  intros [del|] lo6 _; [|exact I].
  apply quiet_seq; [apply quiet_await, quiet_realClick|]. intros lo7 _.
  apply quiet_bind;
    [apply quiet_await, quiet_catch_null, quiet_waitFor, default_step_pos|].
  intros [confirm|] lo8 _; [|exact I].
  apply quiet_await, quiet_realClick.
Qed.

Lemma quiet_await_row_gone href lo : quiet (await_row_gone href) lo.
Proof. apply quiet_await, quiet_waitFor, default_step_pos. Qed.

Lemma quiet_deleteViaUI href lo : quiet (deleteViaUI self href) lo.
Proof.
  unfold deleteViaUI.
  apply quiet_seq; [apply quiet_confirm_deletion|]. intros lo1 _.
  apply quiet_seq; [apply quiet_await_row_gone|]. intros lo2 _.
  apply quiet_seq; [apply quiet_await, quiet_sleep|]. intros lo3 _.
  apply quiet_safeCloseMenus.
Qed.

Lemma quiet_ensureNotOnSelected items lo : quiet (ensureNotOnSelected items) lo.
Proof.
  unfold ensureNotOnSelected. apply quiet_Do. intros now s _.
  destruct (negb _); cbn [fst snd]; [split; auto; exact I|].
  destruct (querySelector _ _ _); cbn [fst snd];
    (split; [reflexivity|apply quiet_await, quiet_waitSidebarReady]).
Qed.

(** Run alone, the deletion of an item ends: it returns or throws. *)
Lemma deleteViaUI_ends href now s :
  exists now' s' o,
    exec (deleteViaUI self href) now s = (now', s', o) /\ o <> OutOfFuel.
Proof.
  destruct (exec (deleteViaUI self href) now s) as [[now' s'] o] eqn:E.
  exists now', s', o. split; [reflexivity|].
  eapply quiet_exec with (lo := now); [apply quiet_deleteViaUI|apply Z.le_refl|exact E].
Qed.

End Quiet.


(* ===================================================================== *)
(** * Opening the menu *)
(* ===================================================================== *)

Section Calls.
Context {Page : Type} {H : Host Page}.
Variable self : ChatBulkUI.

Local Abbreviation Task := (Task Page).
Local Abbreviation Store := (Store Page).
Local Abbreviation exec := (exec self).
Local Open Scope Z_scope.

Lemma calls_refl (s : Store) : calls s s [].
Proof. reflexivity. Qed.

Lemma calls_trans (s1 s2 s3 : Store) tr1 tr2 :
  calls s1 s2 tr1 -> calls s2 s3 tr2 -> calls s1 s3 (tr1 ++ tr2).
Proof.
  unfold calls. intros H1 H2. rewrite H2, H1, rev_app_distr.
  now rewrite app_assoc.
Qed.

Lemma calls_same_trace (s s' s'' : Store) tr :
  trace s'' = trace s' -> calls s s' tr -> calls s s'' tr.
Proof. unfold calls. congruence. Qed.

Lemma calls_tick now (s s' : Store) tr :
  calls s s' tr -> calls s (snd (tick self now s')) tr.
Proof. apply calls_same_trace. apply resume_store_trace. Qed.

Lemma calls_record (s : Store) e : calls s (record e s) [e].
Proof. reflexivity. Qed.

Lemma rev_repeat {X : Type} (x : X) n : rev (repeat x n) = repeat x n.
Proof.
  induction n as [|n IH]; simpl; auto.
  rewrite IH. clear IH. induction n; simpl; congruence.
Qed.

(** The calls of a wait. *)
Lemma waitFor_loop_calls {A : Type} (fn : Store -> option A) t0 timeout step :
  forall fuel now s now' s' o,
    exec (waitFor_loop fuel fn t0 timeout step) now s = (now', s', o) ->
    o <> OutOfFuel ->
    exists resolved tr,
      calls s s' tr /\ wait_calls timeout resolved tr
      /\ (if resolved then exists res, o = Returned res else o = Thrown E_TIMEOUT).
Proof.
  induction fuel as [|fuel IH]; intros now s now' s' o E Hfuel.
  - simpl in E. injection E as <- <- <-. congruence.
  - cbn [waitFor_loop] in E. rewrite exec_Do in E.
    destruct (fn s) as [res|] eqn:Efn; cbn [fst snd] in E.
    + simpl in E. injection E as <- <- <-.
      exists true, [EvPoll]. split; [reflexivity|]. split; [now exists 0%nat|eauto].
    + destruct (now - t0 >? timeout); cbn [fst snd] in E.
      * simpl in E. injection E as <- <- <-.
        exists false, [EvPoll; EvTimeout timeout].
        split; [reflexivity|]. split; [now exists 0%nat|reflexivity].
      * rewrite exec_Wait in E.
        destruct (IH _ _ _ _ _ E Hfuel) as (resolved & tr & Hcalls & [k Hk] & Ho).
        exists resolved, (EvPoll :: tr). split; [|split].
        -- apply (calls_trans (s2 := record EvPoll s) (tr1 := [EvPoll]));
             [reflexivity|].
           unfold calls in *. now rewrite Hcalls, resume_store_trace.
        -- exists (S k). rewrite Hk. reflexivity.
        -- assumption.
Qed.

Lemma waitFor_calls {A : Type} (fn : Store -> option A) timeout step now s now' s' o :
  0 < step ->
  exec (waitFor fn timeout step) now s = (now', s', o) ->
  exists resolved tr,
    calls s s' tr /\ wait_calls timeout resolved tr
    /\ (if resolved then exists res, o = Returned res else o = Thrown E_TIMEOUT).
Proof.
  intros Hstep E.
  assert (Hfuel : o <> OutOfFuel).
  { eapply quiet_exec with (lo := now);
      [apply quiet_waitFor; eassumption|apply Z.le_refl|exact E]. }
  unfold waitFor in E. rewrite exec_Do in E. cbn [fst snd] in E.
  eapply waitFor_loop_calls; eassumption.
Qed.

(** The calls of [await this.scrollIntoViewSmart(el)]. *)
Lemma scroll_calls_spec el now s :
  exists now' s' tr,
    exec (await (scrollIntoViewSmart el)) now s = (now', s', Returned tt)
    /\ calls s s' tr /\ scroll_calls el tr.
Proof.
  rewrite exec_await. unfold scrollIntoViewSmart. rewrite exec_Do.
  destruct (outside_view (page s) el); cbn [fst snd].
  - rewrite exec_await. unfold sleep. rewrite exec_Do. cbn [fst snd].
    rewrite exec_Wait, exec_Ret.
    do 3 eexists. split; [reflexivity|]. split; [|right; reflexivity].
    apply calls_tick. apply calls_tick.
    unfold calls. rewrite resume_store_trace. reflexivity.
  - do 3 eexists. split; [reflexivity|]. split; [|left; reflexivity].
    apply calls_tick. reflexivity.
Qed.

Lemma exec_sleep ms now (s : Store) :
  exists now' s',
    exec (await (sleep ms)) now s = (now', s', Returned tt)
    /\ calls s s' [EvSleep ms] /\ now + Z.max 0 ms <= now'.
Proof.
  rewrite exec_await. unfold sleep. rewrite exec_Do. cbn [fst snd].
  rewrite exec_Wait, exec_Ret. do 2 eexists. split; [reflexivity|]. split.
  - apply calls_tick. unfold calls. now rewrite resume_store_trace.
  - cbn [fst tick].
    pose proof (resume_time_ge (now + Z.max 0 ms) now (record (EvSleep ms) s)).
    match goal with |- _ <= resume_time ?d ?n ?x =>
      pose proof (resume_time_ge d n x) end.
    lia.
Qed.

(** The calls of [await this.realClick(el)]. *)
Lemma click_calls_spec el now s :
  exists now' s' tr,
    exec (await (realClick (Some el))) now s = (now', s', Returned tt)
    /\ calls s s' tr /\ click_calls el tr.
Proof.
  rewrite exec_await. unfold realClick.
  rewrite exec_bind, exec_modify, exec_bind.
  destruct (scroll_calls_spec el now (record (EvClick el) s))
    as (now1 & s1 & sc & E & Hcalls & Hsc).
  rewrite E, exec_modify.
  do 3 eexists. split; [reflexivity|]. split.
  - apply calls_tick.
    apply (calls_same_trace (s' := s1)); [reflexivity|].
    apply (calls_trans (s2 := record (EvClick el) s) (tr1 := [EvClick el]));
      [reflexivity|exact Hcalls].
  - exists sc. auto.
Qed.

(** The wait of an attempt: it ends, telling whether a menu was seen. *)
Lemma menu_wait_spec id now s :
  exists now' s' opened tr,
    exec (try_catch
            (await (waitFor (menu_for id) 250 default_step) ;; Ret true)
            (fun _ => Ret false)) now s
    = (now', s', Returned opened)
    /\ calls s s' tr /\ wait_calls 250 opened tr.
Proof.
  rewrite exec_try_catch, exec_bind, exec_await.
  destruct (exec (waitFor (menu_for id) 250 default_step) now s)
    as [[now3 s3] o3] eqn:E3.
  destruct (waitFor_calls _ _ _ _ default_step_pos E3)
    as (resolved & c & Hc3 & Hc & Ho).
  assert (Hcalls : calls s (snd (tick self now3 s3)) c)
    by (now apply calls_tick).
  destruct resolved.
  - destruct Ho as [res ->]. rewrite exec_Ret.
    exists (fst (tick self now3 s3)), (snd (tick self now3 s3)), true, c.
    split; [reflexivity|]. split; assumption.
  - subst o3. rewrite exec_Ret.
    exists (fst (tick self now3 s3)), (snd (tick self now3 s3)), false, c.
    split; [reflexivity|]. split; assumption.
Qed.

(** The loop of [openMenu] with [n] attempts left: the attempts made,
    and how it ends. *)
Lemma openMenu_loop_spec btn id : forall n now s now' s' o,
  exec (openMenu_loop self n btn id) now s = (now', s', o) ->
  exists m opened tr,
    calls s s' tr
    /\ attempts_calls btn (clickRetryDelay self) m opened tr
    /\ (m <= n)%nat
    /\ (opened = true -> o = Returned tt)
    /\ (opened = false ->
        m = n
        /\ match querySelector (page s') None SelOpenMenu with
           | Some _ => o = Returned tt
           | None => o = Thrown E_MENU
           end).
Proof.
  induction n as [|n IH]; intros now s now' s' o E.
  - cbn [openMenu_loop] in E. rewrite exec_Do in E.
    exists 0%nat, false, []. split; [|split; [constructor|]].
    + destruct (querySelector (page s) None SelOpenMenu);
        cbn [fst snd] in E; simpl in E; injection E as <- <- <-; reflexivity.
    + split; [lia|]. split; [discriminate|]. intros _. split; [reflexivity|].
      destruct (querySelector (page s) None SelOpenMenu) eqn:Eq;
        cbn [fst snd] in E; simpl in E; injection E as <- <- <-;
        rewrite Eq; reflexivity.
  - cbn [openMenu_loop] in E. rewrite exec_bind in E.
    destruct (scroll_calls_spec btn now s) as (nowa & sa & a & Ea & Hca & Ha).
    rewrite Ea, exec_bind in E.
    destruct (click_calls_spec btn nowa sa) as (nowb & sb & b & Eb & Hcb & Hb).
    rewrite Eb, exec_bind in E.
    destruct (menu_wait_spec id nowb sb)
      as (now1 & s1 & opened & c & E1 & Hcc & Hc).
    assert (Hc1 : calls s s1 (a ++ b ++ c)).
    { eapply calls_trans; [exact Hca|]. eapply calls_trans; eassumption. }
    assert (Hatt : attempt_calls btn opened (a ++ b ++ c)).
    { exists a, b, c. auto. }
    set (tr := a ++ b ++ c) in *. clearbody tr.
    rewrite E1 in E. destruct opened.
    + rewrite exec_Ret in E. injection E as <- <- <-.
      exists 1%nat, true, tr. split; [assumption|].
      split; [now constructor|]. split; [lia|]. split; [reflexivity|discriminate].
    + rewrite exec_bind in E.
      destruct (exec_sleep (clickRetryDelay self) now1 s1)
        as (now2 & s2 & E2 & Hc2 & _).
      rewrite E2 in E.
      destruct (IH _ _ _ _ _ E) as (m & opened & tr' & Hc3 & Hm & Hle & Ho & Hf).
      exists (S m), opened, (tr ++ EvSleep (clickRetryDelay self) :: tr').
      split; [|split; [now constructor|]].
      * eapply calls_trans; [exact Hc1|].
        apply (calls_trans (s2 := s2) (tr1 := [EvSleep (clickRetryDelay self)]));
          assumption.
      * split; [lia|]. split; [assumption|].
        intros Hop. destruct (Hf Hop) as [-> Hq]. auto.
Qed.

End Calls.

Section OpenMenu.
Context {Page : Type} {H : Host Page}.
Variable self : ChatBulkUI.

Local Abbreviation Store := (Store Page).
Local Abbreviation exec := (exec self).
Local Open Scope Z_scope.

Lemma calls_unique (s s' : Store) tr tr' :
  calls s s' tr -> calls s s' tr' -> tr = tr'.
Proof.
  unfold calls. intros H1 H2. rewrite H1 in H2.
  apply app_inv_tail in H2. apply (f_equal (@rev Event)) in H2.
  now rewrite !rev_involutive in H2.
Qed.

Lemma timeouts_app a b : timeouts (a ++ b) = (timeouts a + timeouts b)%nat.
Proof.
  unfold timeouts, count_events. now rewrite filter_app, length_app.
Qed.

Lemma timeouts_scroll el tr : scroll_calls el tr -> timeouts tr = 0%nat.
Proof. intros [-> | ->]; reflexivity. Qed.

Lemma timeouts_click el tr : click_calls el tr -> timeouts tr = 0%nat.
Proof. intros (sc & Hsc & ->). exact (timeouts_scroll Hsc). Qed.

Lemma timeouts_polls k : timeouts (repeat EvPoll k) = 0%nat.
Proof. induction k; auto. Qed.

Lemma timeouts_wait timeout resolved tr :
  wait_calls timeout resolved tr ->
  timeouts tr = if resolved then 0%nat else 1%nat.
Proof.
  intros [k ->]. rewrite timeouts_app, timeouts_polls.
  destruct resolved; reflexivity.
Qed.

Lemma timeouts_attempt btn opened tr :
  attempt_calls btn opened tr ->
  timeouts tr = if opened then 0%nat else 1%nat.
Proof.
  intros (a & b & c & Ha & Hb & Hc & ->).
  rewrite !timeouts_app, (timeouts_scroll Ha), (timeouts_click Hb),
    (timeouts_wait Hc).
  reflexivity.
Qed.

(** Every attempt but one that saw a menu ended in a rejected wait. *)
Lemma timeouts_attempts btn delay m opened tr :
  attempts_calls btn delay m opened tr ->
  timeouts tr = if opened then (m - 1)%nat else m.
Proof.
  induction 1 as [|tr Ha|n opened tr tr' Ha Hrest IH].
  - reflexivity.
  - now rewrite (timeouts_attempt Ha).
  - rewrite timeouts_app, (timeouts_attempt Ha).
    change (EvSleep delay :: tr') with ([EvSleep delay] ++ tr').
    rewrite timeouts_app, IH.
    destruct opened; [|reflexivity].
    inversion Hrest; subst; simpl; lia.
Qed.

Lemma openMenu_spec btn now s now' s' o :
  exec (openMenu self btn) now s = (now', s', o) ->
  exists m opened tr,
    calls s s' tr
    /\ attempts_calls btn (clickRetryDelay self) m opened tr
    /\ (m <= Z.to_nat (clickRetries self))%nat
    /\ (opened = true -> o = Returned tt)
    /\ (opened = false ->
        m = Z.to_nat (clickRetries self)
        /\ match querySelector (page s') None SelOpenMenu with
           | Some _ => o = Returned tt
           | None => o = Thrown E_MENU
           end).
Proof.
  unfold openMenu. rewrite exec_bind, exec_Do.
  set (s0 := fst _). set (t0 := snd _).
  assert (Hid : exists id, t0 = Ret id /\ trace s0 = trace s).
  { subst s0 t0. destruct (id_of (page s) btn); cbn [fst snd]; eauto. }
  destruct Hid as (id & -> & Htr). rewrite exec_Ret. intros E.
  apply openMenu_loop_spec in E.
  destruct E as (m & opened & tr & Hcalls & Hrest).
  exists m, opened, tr. split; [|exact Hrest].
  unfold calls in *. congruence.
Qed.

(** C3.  Every call of [openMenu] makes at most [clickRetries]
    attempts; each attempt calls [scrollIntoViewSmart] on the trigger,
    then [realClick] on it, then waits with a timeout of 250
    milliseconds for a menu labelled by the trigger or any open menu,
    and a sleep of [clickRetryDelay] follows each attempt that saw no
    menu.  The call returns or fails with E_MENU, and it fails with
    E_MENU exactly when all [clickRetries] attempts were made, none saw
    a menu, and no menu is open afterwards. *)
Theorem openMenu_attempts btn now s now' s' o :
  exec (openMenu self btn) now s = (now', s', o) ->
  exists m opened tr,
    calls s s' tr
    /\ attempts_calls btn (clickRetryDelay self) m opened tr
    /\ (m <= Z.to_nat (clickRetries self))%nat
    /\ (o = Returned tt \/ o = Thrown E_MENU)
    /\ (o = Thrown E_MENU <->
        m = Z.to_nat (clickRetries self) /\ opened = false
        /\ querySelector (page s') None SelOpenMenu = None).
Proof.
  intros E. apply openMenu_spec in E.
  destruct E as (m & opened & tr & Hc & Ha & Hle & Ho & Hf).
  exists m, opened, tr. repeat (split; [assumption|]).
  destruct opened.
  - rewrite (Ho eq_refl). split; [now left|].
    split; [discriminate|]. intros (_ & Hx & _). discriminate.
  - destruct (Hf eq_refl) as [-> Hq].
    destruct (querySelector (page s') None SelOpenMenu) eqn:Eq; subst o.
    + split; [now left|]. split; [discriminate|].
      intros (_ & _ & Hx). discriminate.
    + split; [now right|]. split; auto.
Qed.

(** C9.  When a call of [openMenu] has made all its [clickRetries]
    attempts, each with a rejected wait, and some open menu is in the
    document afterwards, whichever trigger it belongs to, the call
    returns and does not fail with E_MENU. *)
Theorem openMenu_any_open_menu btn now s now' s' o tr :
  exec (openMenu self btn) now s = (now', s', o) ->
  calls s s' tr ->
  timeouts tr = Z.to_nat (clickRetries self) ->
  querySelector (page s') None SelOpenMenu <> None ->
  o = Returned tt.
Proof.
  intros E Hcalls Htimeouts Hopen.
  apply openMenu_spec in E.
  destruct E as (m & opened & tr' & Hc & Ha & Hle & Ho & Hf).
  rewrite (calls_unique Hcalls Hc) in Htimeouts.
  rewrite (timeouts_attempts Ha) in Htimeouts.
  destruct opened.
  - inversion Ha; subst; simpl in *; lia.
  - destruct (Hf eq_refl) as [_ Hq].
    destruct (querySelector (page s') None SelOpenMenu); [assumption|].
    now destruct Hopen.
Qed.

End OpenMenu.

(** Witness for C3: on a page whose trigger opens nothing, an instance
    with two attempts fails with E_MENU after two attempts. *)
Lemma openMenu_attempts_witness :
  exists now' s' o,
    exec Scenario.two_clicks (openMenu Scenario.two_clicks 11%nat) 0
         (Scenario.start (Scenario.deaf_row None)) = (now', s', o)
    /\ o = Thrown E_MENU
    /\ exists m opened tr,
         calls (Scenario.start (Scenario.deaf_row None)) s' tr
         /\ attempts_calls 11%nat (clickRetryDelay Scenario.two_clicks) m opened tr
         /\ (m <= Z.to_nat (clickRetries Scenario.two_clicks))%nat
         /\ (o = Returned tt \/ o = Thrown E_MENU)
         /\ (o = Thrown E_MENU <->
             m = Z.to_nat (clickRetries Scenario.two_clicks) /\ opened = false
             /\ querySelector (page s') None SelOpenMenu = None).
Proof.
  destruct (exec Scenario.two_clicks (openMenu Scenario.two_clicks 11%nat) 0
              (Scenario.start (Scenario.deaf_row None)))
    as [[now' s'] o] eqn:E.
  exists now', s', o. split; [reflexivity|]. split.
  - apply (f_equal snd) in E. vm_compute in E. now symmetry.
  - exact (@openMenu_attempts _ _ Scenario.two_clicks 11%nat 0
             (Scenario.start (Scenario.deaf_row None)) now' s' o E).
Defined.

(** Witness for C9: the trigger of the first chat opens nothing, both
    attempts end in a rejected wait, and during the last pause a menu that
    no trigger labels opens; [openMenu] returns. *)
Lemma openMenu_any_open_menu_witness :
  exists now' s' tr,
    exec Scenario.two_clicks (openMenu Scenario.two_clicks 11%nat) 0
         (Scenario.start (Scenario.deaf_row (Some 800%Z))) = (now', s', Returned tt)
    /\ calls (Scenario.start (Scenario.deaf_row (Some 800%Z))) s' tr
    /\ timeouts tr = Z.to_nat (clickRetries Scenario.two_clicks)
    /\ querySelector (page s') None SelOpenMenu = Some 1500%nat
    /\ querySelector (page s') None (SelMenuLabelledBy "cbm-btn-k3x9f2") = None.
Proof.
  destruct (exec Scenario.two_clicks (openMenu Scenario.two_clicks 11%nat) 0
              (Scenario.start (Scenario.deaf_row (Some 800%Z))))
    as [[now' s'] o] eqn:E.
  assert (Hs : s' = snd (fst (exec Scenario.two_clicks
                                (openMenu Scenario.two_clicks 11%nat) 0
                                (Scenario.start (Scenario.deaf_row (Some 800%Z))))))
    by (now rewrite E).
  assert (Hcalls : calls (Scenario.start (Scenario.deaf_row (Some 800%Z))) s'
            (rev (firstn (List.length (trace s')) (trace s')))).
  { unfold calls. rewrite rev_involutive, firstn_all.
    rewrite Hs. vm_compute. reflexivity. }
  assert (Ht : timeouts (rev (firstn (List.length (trace s')) (trace s')))
               = Z.to_nat (clickRetries Scenario.two_clicks)).
  { rewrite Hs. vm_compute. reflexivity. }
  assert (Hq : querySelector (page s') None SelOpenMenu = Some 1500%nat).
  { rewrite Hs. vm_compute. reflexivity. }
  assert (Hopen : querySelector (page s') None SelOpenMenu <> None)
    by (rewrite Hq; discriminate).
  pose proof (@openMenu_any_open_menu _ _ Scenario.two_clicks 11%nat 0
                (Scenario.start (Scenario.deaf_row (Some 800%Z))) now' s' o _
                E Hcalls Ht Hopen) as Ho.
  subst o. exists now', s', (rev (firstn (List.length (trace s')) (trace s'))).
  split; [reflexivity|]. split; [exact Hcalls|]. split; [exact Ht|].
  split; [exact Hq|]. rewrite Hs. vm_compute. reflexivity.
Defined.


(* ===================================================================== *)
(** * One item *)
(* ===================================================================== *)

Section Item.
Context {Page : Type} {H : Host Page}.
Variable self : ChatBulkUI.

Local Abbreviation Store := (Store Page).
Local Abbreviation exec := (exec self).
Local Open Scope Z_scope.

Lemma exec_on_failure it e now (s : Store) :
  exists s',
    exec (on_failure it e) now s = (now, s', Returned tt)
    /\ job s' = count_fail (job s)
    /\ In (EvWarn (fst it) e) (trace s').
Proof.
  unfold on_failure, safeCloseMenus.
  rewrite exec_bind, exec_modify, exec_bind, exec_modify, exec_bind, exec_Do.
  cbn [fst snd]. rewrite exec_Ret, exec_modify.
  eexists. split; [reflexivity|]. split; [reflexivity|].
  simpl. now left.
Qed.

Lemma exec_idleOrSleep ms now (s : Store) :
  exists now' s',
    exec (await (idleOrSleep ms)) now s = (now', s', Returned tt)
    /\ job s' = job s.
Proof.
  rewrite exec_await. unfold idleOrSleep. rewrite exec_Do. cbn [fst snd].
  destruct has_idle_callback; rewrite exec_Wait, exec_Ret;
    do 2 eexists; (split; [reflexivity|]);
    cbn [snd tick]; now rewrite !resume_store_job.
Qed.

Lemma exec_after_item it total now (s : Store) :
  exists now' s',
    exec (after_item self it total) now s = (now', s', Returned tt)
    /\ job s' = count_processed (job s)
    /\ selected s' = delete_key (fst it) (selected s).
Proof.
  unfold after_item.
  rewrite exec_bind, exec_modify, exec_bind, exec_modify, exec_bind, exec_modify,
    exec_bind, exec_modify, exec_bind, exec_modify, exec_bind, exec_modify.
  rewrite exec_await. unfold idleOrSleep. rewrite exec_Do. cbn [fst snd].
  destruct has_idle_callback; rewrite exec_Wait, exec_Ret;
    do 2 eexists; (split; [reflexivity|]);
    cbn [snd tick]; rewrite !resume_store_job, !resume_store_selected;
    cbn [updateBar job selected set_bar];
    rewrite job_setProgress, selected_setProgress;
    split; reflexivity.
Qed.

(** What the worker makes of a deletion that is rejected: a failure. *)
Lemma process_item_rejected it total now (s : Store) now1 s1 e :
  exec (deleteViaUI self (snd it)) now s = (now1, s1, Thrown e) ->
  exists now' s',
    exec (process_item self it total) now s = (now', s', Returned tt)
    /\ job s' = count_processed (count_fail (job s)).
Proof.
  intros E. unfold process_item.
  assert (Hjob : job s1 = job s).
  { eapply quiet_exec with (lo := now);
      [apply quiet_deleteViaUI|apply Z.le_refl|exact E]. }
  rewrite exec_try_finally, exec_try_catch, exec_bind, exec_await, E.
  cbn [fst snd].
  destruct (exec_on_failure it e (fst (tick self now1 s1)) (snd (tick self now1 s1)))
    as (s2 & E2 & Hj2 & Hw2).
  rewrite E2, exec_bind.
  destruct (exec_after_item it total (fst (tick self now1 s1)) s2)
    as (now3 & s3 & E3 & Hj3 & _).
  rewrite E3, exec_Ret.
  exists now3, s3. split; [reflexivity|].
  rewrite Hj3, Hj2. cbn [snd tick]. now rewrite resume_store_job, Hjob.
Qed.

(** What the worker makes of a deletion that returns: a success. *)
Lemma process_item_returned it total now (s : Store) now1 s1 :
  exec (deleteViaUI self (snd it)) now s = (now1, s1, Returned tt) ->
  exists now' s',
    exec (process_item self it total) now s = (now', s', Returned tt)
    /\ job s' = count_processed (count_ok (job s)).
Proof.
  intros E. unfold process_item.
  assert (Hjob : job s1 = job s).
  { eapply quiet_exec with (lo := now);
      [apply quiet_deleteViaUI|apply Z.le_refl|exact E]. }
  rewrite exec_try_finally, exec_try_catch, exec_bind, exec_await, E.
  cbn [fst snd]. rewrite exec_modify, exec_bind.
  destruct (exec_after_item it total (fst (tick self now1 s1))
              (on_job count_ok (snd (tick self now1 s1))))
    as (now3 & s3 & E3 & Hj3 & _).
  rewrite E3, exec_Ret.
  exists now3, s3. split; [reflexivity|].
  rewrite Hj3. cbn [snd tick on_job job set_job].
  now rewrite resume_store_job, Hjob.
Qed.

(** C1, as amended.  When a deletion has got through the click on the
    confirmation button and the wait of 8000 milliseconds for the row
    to leave the tree is rejected, the rejection is the timeout error,
    the row was there when the wait began, [deleteViaUI] is rejected
    with the timeout error, and the worker counts the item as a
    failure: [fail] and [processed] go up by one and [ok] stays. *)
Theorem row_still_present_is_failure (it : string * string) (total : nat)
    now (s : Store) now1 s1 now2 s2 e :
  exec (confirm_deletion self (snd it)) now s = (now1, s1, Returned tt) ->
  exec (await_row_gone (snd it)) now1 s1 = (now2, s2, Thrown e) ->
  e = E_TIMEOUT
  /\ findRowByHref (page s1) (snd it) <> None
  /\ exec (deleteViaUI self (snd it)) now s = (now2, s2, Thrown E_TIMEOUT)
  /\ exists now3 s3,
       exec (process_item self it total) now s = (now3, s3, Returned tt)
       /\ ok (job s3) = ok (job s)
       /\ fail (job s3) = S (fail (job s))
       /\ processed (job s3) = S (processed (job s)).
Proof.
  intros E1 E2.
  assert (Hwait : e = E_TIMEOUT /\ row_gone (snd it) s1 = None).
  { unfold await_row_gone in E2. rewrite exec_await in E2.
    destruct (exec (waitFor (row_gone (snd it)) 8000 default_step) now1 s1)
      as [[n x] [b|e'|]] eqn:Ew; try discriminate.
    injection E2 as _ _ <-.
    destruct (proj2 (waitFor_first_evaluation self (row_gone (snd it))
                       8000 default_step now1 s1) _ _ _ Ew) as (-> & Hn & _).
    auto. }
  destruct Hwait as [-> Hpresent].
  assert (Hdel : exec (deleteViaUI self (snd it)) now s
                 = (now2, s2, Thrown E_TIMEOUT)).
  { unfold deleteViaUI. now rewrite exec_bind, E1, exec_bind, E2. }
  split; [reflexivity|]. split.
  - unfold row_gone in Hpresent.
    destruct (findRowByHref (page s1) (snd it)); [discriminate|discriminate].
  - split; [exact Hdel|].
    destruct (process_item_rejected it total _ _ Hdel) as (now3 & s3 & E3 & Hj).
    exists now3, s3. split; [exact E3|]. rewrite Hj. auto.
Qed.

(** The other way round: a deletion that returns has seen the row gone
    and is counted as a success. *)
Lemma row_gone_is_success (it : string * string) (total : nat)
    now (s : Store) now1 s1 :
  exec (deleteViaUI self (snd it)) now s = (now1, s1, Returned tt) ->
  exists now3 s3,
    exec (process_item self it total) now s = (now3, s3, Returned tt)
    /\ ok (job s3) = S (ok (job s))
    /\ fail (job s3) = fail (job s)
    /\ processed (job s3) = S (processed (job s)).
Proof.
  intros E.
  destruct (process_item_returned it total _ _ E) as (now3 & s3 & E3 & Hj).
  exists now3, s3. split; [exact E3|]. rewrite Hj. auto.
Qed.

End Item.

(** A result is the triple of its parts. *)
Lemma settled_eta {X Y A : Type} (r : X * Y * Outcome A) (o : Outcome A) :
  snd r = o -> r = (fst (fst r), snd (fst r), o).
Proof. destruct r as [[x y] o']. simpl. now intros ->. Qed.

(** C1, counterexample.  The second chat of the page stays in the list
    after the confirmation.  The deletion gets through the click on the
    confirmation button, the wait for the row to leave is rejected with
    the row still there, and the worker ends the item with no success and
    one failure. *)
Lemma row_still_present_not_success :
  let self := Scenario.manager in
  let s := Scenario.start Scenario.sticky_row in
  let it := ("bbb-2"%string, "/c/bbb-2"%string) in
  exists now1 s1 now2 s2 now3 s3,
    exec self (confirm_deletion self (snd it)) 0 s = (now1, s1, Returned tt)
    /\ exec self (await_row_gone (snd it)) now1 s1 = (now2, s2, Thrown E_TIMEOUT)
    /\ findRowByHref (page s2) (snd it) = Some 20%nat
    /\ exec self (process_item self it 2) 0 s = (now3, s3, Returned tt)
    /\ ok (job s3) = 0%nat /\ fail (job s3) = 1%nat /\ processed (job s3) = 1%nat.
Proof.
  intros self s it.
  set (r1 := exec self (confirm_deletion self (snd it)) 0 s).
  set (r2 := exec self (await_row_gone (snd it)) (fst (fst r1)) (snd (fst r1))).
  set (r3 := exec self (process_item self it 2) 0 s).
  exists (fst (fst r1)), (snd (fst r1)), (fst (fst r2)), (snd (fst r2)),
         (fst (fst r3)), (snd (fst r3)).
  assert (H1 : snd r1 = Returned tt) by (vm_compute; reflexivity).
  assert (H2 : snd r2 = Thrown E_TIMEOUT) by (vm_compute; reflexivity).
  assert (H3 : snd r3 = Returned tt) by (vm_compute; reflexivity).
  split; [exact (settled_eta r1 H1)|].
  split; [exact (settled_eta r2 H2)|].
  split; [vm_compute; reflexivity|].
  split; [exact (settled_eta r3 H3)|].
  split; [vm_compute; reflexivity|].
  split; vm_compute; reflexivity.
Qed.

(** Witness for C1: the same run. *)
Lemma row_still_present_is_failure_witness :
  let self := Scenario.manager in
  let s := Scenario.start Scenario.sticky_row in
  let it := ("bbb-2"%string, "/c/bbb-2"%string) in
  exists now1 s1 now2 s2,
    exec self (confirm_deletion self (snd it)) 0 s = (now1, s1, Returned tt)
    /\ exec self (await_row_gone (snd it)) now1 s1 = (now2, s2, Thrown E_TIMEOUT)
    /\ exec self (deleteViaUI self (snd it)) 0 s = (now2, s2, Thrown E_TIMEOUT)
    /\ exists now3 s3,
         exec self (process_item self it 2) 0 s = (now3, s3, Returned tt)
         /\ ok (job s3) = ok (job s)
         /\ fail (job s3) = S (fail (job s))
         /\ processed (job s3) = S (processed (job s)).
Proof.
  intros self s it.
  set (r1 := exec self (confirm_deletion self (snd it)) 0 s).
  set (r2 := exec self (await_row_gone (snd it)) (fst (fst r1)) (snd (fst r1))).
  assert (H1 : snd r1 = Returned tt) by (vm_compute; reflexivity).
  assert (H2 : snd r2 = Thrown E_TIMEOUT) by (vm_compute; reflexivity).
  assert (E1 : r1 = (fst (fst r1), snd (fst r1), Returned tt))
    by exact (settled_eta r1 H1).
  assert (E2 : r2 = (fst (fst r2), snd (fst r2), Thrown E_TIMEOUT))
    by exact (settled_eta r2 H2).
  exists (fst (fst r1)), (snd (fst r1)), (fst (fst r2)), (snd (fst r2)).
  split; [exact E1|]. split; [exact E2|].
  exact (proj2 (proj2 (@row_still_present_is_failure _ _ self it 2 0 s
                         _ _ _ _ _ E1 E2))).
Defined.


(* ===================================================================== *)
(** * Further properties of the locator *)
(* ===================================================================== *)

Section LocatorMore.
Context {P : URL.Platform}.

Lemma strip_trailing_slashes_end (s pre : chars) :
  strip_trailing_slashes s <> pre ++ ["/"%char].
Proof.
  unfold strip_trailing_slashes. intros E.
  apply (f_equal (@rev ascii)) in E.
  rewrite rev_involutive, rev_app_distr in E. simpl in E.
  apply drop_while_head in E. discriminate.
Qed.

Lemma normalize_chars_end (href pre : chars) :
  normalize_chars href <> pre ++ ["/"%char].
Proof.
  unfold normalize_chars.
  destruct (URL.pathname href); apply strip_trailing_slashes_end.
Qed.

(** X1.  Whatever the reference, parsed by the URL parser or not, the
    path [normalizePath] answers does not end with a slash. *)
Theorem normalizePath_no_trailing_slash (href : string) :
  ends_with_slash (normalizePath href) = false.
Proof.
  unfold ends_with_slash, normalizePath.
  rewrite list_ascii_of_string_of_list_ascii.
  destruct (rev (normalize_chars _)) as [|c r] eqn:E; [reflexivity|].
  destruct (is_char "/" c) eqn:Ec; [|reflexivity].
  apply is_char_eq in Ec. subst c.
  apply (f_equal (@rev ascii)) in E. rewrite rev_involutive in E.
  simpl in E. now apply normalize_chars_end in E.
Qed.

(** X2.  An identifier that [extractIdFromHref] answers is not empty,
    is made of letters, digits and hyphens only, and is the last
    segment of the normalized path, right after a segment [c]: the
    optional slash of the pattern never matches, the normalized path
    having none at its end. *)
Theorem extractId_is_last_segment (href id : string) :
  extractIdFromHref href = Some id ->
  id <> EmptyString
  /\ forallb is_id_char (list_ascii_of_string id) = true
  /\ exists pre c,
       list_ascii_of_string (normalizePath href)
       = pre ++ "/"%char :: c :: "/"%char :: list_ascii_of_string id
       /\ to_lower c = "c"%char.
Proof.
  unfold extractIdFromHref. destruct href as [|a x]; [discriminate|].
  destruct (regex_match _) as [i|] eqn:E; [|discriminate].
  simpl. intros H. injection H as <-.
  destruct (regex_match_some _ E) as (pre & suffix & Hs & Hm).
  destruct (match_here_sound _ Hm) as (c & tail & -> & Hc & Hne & Hall & Htail).
  rewrite list_ascii_of_string_of_list_ascii.
  split; [|split; [exact Hall|]].
  - destruct i; [congruence|discriminate].
  - exists pre, c. split; [|exact Hc].
    destruct Htail as [->| ->]; [now rewrite app_nil_r in Hs|].
    exfalso. unfold normalizePath in Hs.
    rewrite list_ascii_of_string_of_list_ascii in Hs.
    apply (@normalize_chars_end (list_ascii_of_string (String a x))
             (pre ++ "/"%char :: c :: "/"%char :: i)).
    rewrite Hs, <- app_assoc. reflexivity.
Qed.

End LocatorMore.

(** Witness for X2: a row of a project, with a trailing slash and a
    query. *)
Lemma extractId_is_last_segment_witness :
  @extractIdFromHref URL.https_page "/g/xyz/c/abc-123/?model=x" = Some "abc-123"%string
  /\ "abc-123"%string <> EmptyString
  /\ forallb is_id_char (list_ascii_of_string "abc-123") = true
  /\ exists pre c,
       list_ascii_of_string (@normalizePath URL.https_page "/g/xyz/c/abc-123/?model=x")
       = pre ++ "/"%char :: c :: "/"%char :: list_ascii_of_string "abc-123"
       /\ to_lower c = "c"%char.
Proof.
  assert (E : @extractIdFromHref URL.https_page "/g/xyz/c/abc-123/?model=x"
              = Some "abc-123"%string) by (vm_compute; reflexivity).
  split; [exact E|].
  exact (@extractId_is_last_segment URL.https_page _ _ E).
Defined.

(* ===================================================================== *)
(** * Rejections *)
(* ===================================================================== *)

Section Rejections.
Context {Page : Type} {H : Host Page}.
Variable self : ChatBulkUI.

Local Abbreviation Task := (Task Page).
Local Abbreviation Store := (Store Page).
Local Abbreviation exec := (exec self).
Local Abbreviation throws_only := (@throws_only Page _).
Local Open Scope Z_scope.

Lemma throws_only_weaken {A : Type} (P Q : Error -> Prop) (t : Task A) :
  (forall e, P e -> Q e) -> throws_only P t -> throws_only Q t.
Proof.
  intros HPQ. induction t as [a|e| |upd k IH|due k IH]; simpl; auto.
Qed.

Lemma throws_only_bind {A B : Type} P (t : Task A) (g : A -> Task B) :
  throws_only P t -> (forall a, throws_only P (g a)) -> throws_only P (bind t g).
Proof.
  intros Ht Hg. induction t as [a|e| |upd k IH|due k IH]; simpl in *; auto.
Qed.

Lemma throws_only_try_catch {A : Type} P (t : Task A) (h : Error -> Task A) :
  (forall e, throws_only P (h e)) -> throws_only P (try_catch t h).
Proof.
  intros Hh. induction t as [a|e| |upd k IH|due k IH]; simpl in *; auto.
Qed.

Lemma throws_only_await {A : Type} P (t : Task A) :
  throws_only P t -> throws_only P (await t).
Proof.
  intros Ht. induction t as [a|e| |upd k IH|due k IH]; simpl in *; auto.
Qed.

Lemma throws_only_catch_null {A : Type} P (t : Task A) :
  throws_only P (catch_null t).
Proof. apply throws_only_try_catch. intros e. exact I. Qed.

Lemma throws_only_modify P (f : Store -> Store) : throws_only P (modify f).
Proof. intros now s. exact I. Qed.

(** A task rejected when it runs alone is rejected with an error it
    can throw. *)
Lemma throws_only_exec {A : Type} P (t : Task A) : forall now s now' s' e,
  throws_only P t -> exec t now s = (now', s', Thrown e) -> P e.
Proof.
  induction t as [a|e0| |upd k IH|due k IH]; intros now s now' s' e Ht E;
    simpl in *; try discriminate.
  - now injection E as _ _ <-.
  - eapply IH; [apply Ht|exact E].
  - eapply IH; [exact Ht|exact E].
Qed.

(** A quiet task that throws nothing returns. *)
Lemma calm_exec {A : Type} (t : Task A) lo now s :
  quiet t lo -> throws_only no_error t -> lo <= now ->
  exists now' s' a,
    exec t now s = (now', s', Returned a) /\ job s' = job s /\ now <= now'.
Proof.
  intros Hq Ht Hlo.
  destruct (exec t now s) as [[now' s'] [a|e|]] eqn:E.
  - exists now', s', a. split; [reflexivity|].
    eapply quiet_exec with (lo := lo); eassumption.
  - eapply throws_only_exec in E; [|exact Ht]. destruct E.
  - eapply quiet_exec with (lo := lo) in E; [|eassumption..].
    destruct E as [Ho _]. congruence.
Qed.

(** ** The primitives *)

Lemma throws_only_sleep P ms : throws_only P (sleep ms).
Proof. intros now s. exact I. Qed.

Lemma throws_only_idleOrSleep P ms : throws_only P (idleOrSleep ms).
Proof. intros now s. simpl. destruct has_idle_callback; exact I. Qed.

Lemma throws_only_waitFor_loop {A : Type} (P : Error -> Prop)
    (fn : Store -> option A) t0 timeout step :
  P E_TIMEOUT ->
  forall fuel, throws_only P (waitFor_loop fuel fn t0 timeout step).
Proof.
  intros HP. induction fuel as [|fuel IH]; [exact I|].
  intros now s. simpl. destruct (fn s); [exact I|].
  destruct (now - t0 >? timeout); simpl; auto.
Qed.

Lemma throws_only_waitFor {A : Type} (P : Error -> Prop)
    (fn : Store -> option A) timeout step :
  P E_TIMEOUT -> throws_only P (waitFor fn timeout step).
Proof. intros HP now s. now apply throws_only_waitFor_loop. Qed.

Lemma throws_only_waitSidebarReady_loop P t0 timeout : forall fuel,
  throws_only P (waitSidebarReady_loop fuel t0 timeout).
Proof.
  induction fuel as [|fuel IH]; [exact I|].
  intros now s. simpl.
  destruct (now - t0 <=? timeout); [|exact I].
  destruct (querySelector _ _ _); [exact I|].
  simpl. intros now1 s1 now2 s2. exact IH.
Qed.

Lemma throws_only_waitSidebarReady P timeout :
  throws_only P (waitSidebarReady timeout).
Proof. intros now s. apply throws_only_waitSidebarReady_loop. Qed.

Lemma throws_only_scrollIntoViewSmart P el :
  throws_only P (scrollIntoViewSmart el).
Proof.
  intros now s. simpl. destruct (outside_view _ _); simpl; auto.
Qed.

Lemma throws_only_realClick P el : throws_only P (realClick el).
Proof.
  destruct el as [el|]; [|exact I]. unfold realClick.
  apply throws_only_bind; [apply throws_only_modify|intros _].
  apply throws_only_bind;
    [apply throws_only_await, throws_only_scrollIntoViewSmart|intros _].
  apply throws_only_modify.
Qed.

Lemma throws_only_safeCloseMenus P : throws_only P (@safeCloseMenus Page H).
Proof. apply throws_only_modify. Qed.

Lemma throws_only_openMenu_loop (P : Error -> Prop) btn id :
  P E_MENU -> forall n, throws_only P (openMenu_loop self n btn id).
Proof.
  intros HP. induction n as [|n IH].
  - intros now s. simpl. destruct (querySelector _ _ _); simpl; auto.
  - cbn [openMenu_loop].
    apply throws_only_bind;
      [apply throws_only_await, throws_only_scrollIntoViewSmart|intros _].
    apply throws_only_bind;
      [apply throws_only_await, throws_only_realClick|intros _].
    apply throws_only_bind.
    + apply throws_only_try_catch. intros e. exact I.
    + intros [|]; [exact I|].
      apply throws_only_bind;
        [apply throws_only_await, throws_only_sleep|intros _; exact IH].
Qed.

Lemma throws_only_openMenu (P : Error -> Prop) btn :
  P E_MENU -> throws_only P (openMenu self btn).
Proof.
  intros HP. unfold openMenu. apply throws_only_bind.
  - intros now s. simpl. destruct (id_of _ _); exact I.
  - intros id. now apply throws_only_openMenu_loop.
Qed.

End Rejections.

(** The steps of [deleteViaUI], one after the other. *)
Ltac throws_steps :=
  repeat first
    [ exact I
    | apply throws_only_await
    | apply throws_only_catch_null
    | apply throws_only_scrollIntoViewSmart
    | apply throws_only_realClick
    | apply throws_only_modify
    | apply throws_only_sleep
    | apply throws_only_safeCloseMenus
    | apply throws_only_openMenu
    | apply throws_only_bind
    | match goal with
      | |- forall _ : option _, _ => intros [?|]
      | |- forall _ : unit, _ => intros _
      | |- forall _ : bool, _ => intros _
      end
    | progress (cbv beta iota) ].


(* ===================================================================== *)
(** * Waits, guards and the items of a run *)
(* ===================================================================== *)

Section EngineMore.
Context {Page : Type} {H : Host Page}.
Variable self : ChatBulkUI.

Local Abbreviation Task := (Task Page).
Local Abbreviation Store := (Store Page).
Local Abbreviation exec := (exec self).
Local Open Scope Z_scope.

(** ** [waitFor] *)

Lemma waitFor_loop_settles {A : Type} (fn : Store -> option A) t0 timeout step :
  forall fuel now s now' s' o,
    exec (waitFor_loop fuel fn t0 timeout step) now s = (now', s', o) ->
    (polls (trace s') <= polls (trace s) + fuel)%nat
    /\ (forall res, o = Returned res ->
          exists before, s' = record EvPoll before /\ fn before = Some res)
    /\ (forall e, o = Thrown e -> timeout < now' - t0).
Proof.
  induction fuel as [|fuel IH]; intros now s now' s' o.
  - simpl. intros E. injection E as <- <- <-.
    split; [lia|]. split; discriminate.
  - cbn [waitFor_loop]. rewrite exec_Do.
    destruct (fn s) as [res|] eqn:Efn; cbn [fst snd].
    + simpl. intros E. injection E as <- <- <-.
      rewrite polls_record_poll. split; [lia|]. split; [|discriminate].
      intros r Hr. injection Hr as <-. now exists s.
    + destruct (now - t0 >? timeout) eqn:Elate; cbn [fst snd].
      * simpl. intros E. injection E as <- <- <-.
        change (polls (trace (record (EvTimeout timeout) (record EvPoll s))))
          with (S (polls (trace s))).
        split; [lia|]. split; [discriminate|].
        intros e _. apply Z.gtb_lt in Elate. lia.
      * rewrite exec_Wait. intros E. apply IH in E as (Hle & Hret & Hthrown).
        rewrite resume_store_trace, polls_record_poll in Hle.
        split; [lia|]. split; assumption.
Qed.

(** X3.  With a positive step, [waitFor] settles: it resolves with
    what its predicate answered at the last evaluation, or it is
    rejected, and then more than [timeout] milliseconds have passed
    since the call.  Either way the predicate is evaluated at most
    [timeout / step + 2] times. *)
Theorem waitFor_settles {A : Type} (fn : Store -> option A) (timeout step : Z)
    now s now' s' o :
  0 < step ->
  exec (waitFor fn timeout step) now s = (now', s', o) ->
  o <> OutOfFuel
  /\ (polls (trace s') <= polls (trace s) + Z.to_nat (timeout / step) + 2)%nat
  /\ (forall res, o = Returned res ->
        exists before, s' = record EvPoll before /\ fn before = Some res)
  /\ (forall e, o = Thrown e -> timeout < now' - now).
Proof.
  intros Hstep E. split.
  - eapply quiet_exec with (lo := now);
      [apply quiet_waitFor; exact Hstep|apply Z.le_refl|exact E].
  - unfold waitFor in E. rewrite exec_Do in E. cbn [fst snd] in E.
    apply waitFor_loop_settles in E as (Hle & Hret & Hthrown).
    unfold polls_bound in Hle. split; [lia|]. split; assumption.
Qed.

(** ** [waitSidebarReady] and the navigation guard *)

(** X4.  [waitSidebarReady] is never rejected: it returns, and leaves
    the counters of the run alone.  With a negative timeout it returns
    at once without looking at the page, and so it does when a row is
    there at the call. *)
Theorem waitSidebarReady_returns (timeout : Z) now (s : Store) :
  (exists now' s',
     exec (waitSidebarReady timeout) now s = (now', s', Returned tt)
     /\ job s' = job s /\ now <= now')
  /\ (timeout < 0 -> exec (waitSidebarReady timeout) now s = (now, s, Returned tt))
  /\ (0 <= timeout ->
      querySelector (page s) (findSidebar (page s)) SelRow <> None ->
      exec (waitSidebarReady timeout) now s = (now, s, Returned tt)).
Proof.
  split; [|split].
  - destruct (@calm_exec _ _ self _ (waitSidebarReady timeout) now now s)
      as (now' & s' & [] & E & Hj & Hn).
    + apply quiet_waitSidebarReady.
    + apply throws_only_waitSidebarReady.
    + apply Z.le_refl.
    + exists now', s'. auto.
  - intros Hneg. unfold waitSidebarReady, polls_bound.
    rewrite exec_Do. cbn [fst snd].
    rewrite Nat.add_comm. cbn [Nat.add waitSidebarReady_loop].
    rewrite exec_Do.
    replace (now - now <=? timeout) with false
      by (symmetry; apply Z.leb_gt; lia).
    reflexivity.
  - intros Hpos Hrow. unfold waitSidebarReady, polls_bound.
    rewrite exec_Do. cbn [fst snd].
    rewrite Nat.add_comm. cbn [Nat.add waitSidebarReady_loop].
    rewrite exec_Do.
    replace (now - now <=? timeout) with true
      by (symmetry; apply Z.leb_le; lia).
    destruct (querySelector _ _ _); [reflexivity|congruence].
Qed.

Lemma throws_only_ensureNotOnSelected P items :
  @throws_only Page _ P (ensureNotOnSelected items).
Proof.
  intros now s. cbv beta zeta. destruct (negb _); [exact I|].
  destruct (querySelector _ _ _); cbn [snd];
    apply throws_only_await, throws_only_waitSidebarReady.
Qed.

(** X5.  The navigation guard is never rejected and leaves the
    counters alone; when the page open is none of the chats to delete,
    it returns at once and changes nothing: no click on the new-chat
    button, no change of the history. *)
Theorem ensureNotOnSelected_returns (items : list (string * string)) now (s : Store) :
  (exists now' s',
     exec (ensureNotOnSelected items) now s = (now', s', Returned tt)
     /\ job s' = job s)
  /\ (existsb (String.eqb (normalizePath (location_href (page s))))
        (map (fun it => normalizePath (snd it)) items) = false ->
      exec (ensureNotOnSelected items) now s = (now, s, Returned tt)).
Proof.
  split.
  - destruct (@calm_exec _ _ self _ (ensureNotOnSelected items) now now s)
      as (now' & s' & [] & E & Hj & Hn).
    + apply quiet_ensureNotOnSelected.
    + apply throws_only_ensureNotOnSelected.
    + apply Z.le_refl.
    + exists now', s'. auto.
  - intros Hnot. unfold ensureNotOnSelected. rewrite exec_Do.
    cbv zeta. rewrite Hnot. reflexivity.
Qed.

(** ** Where the errors of [deleteViaUI] come from *)

Lemma throws_only_confirm_deletion (P : Error -> Prop) href :
  P E_ROW -> P E_BTN -> P E_MENU -> P E_MENUITEM -> P E_CONFIRM ->
  throws_only P (confirm_deletion self href).
Proof.
  intros HR HB HM HI HC. unfold confirm_deletion.
  throws_steps; assumption.
Qed.


(** X6.  When [deleteViaUI] is rejected with the error of [waitFor]
    itself, the click on the confirmation button has been made and the
    rejection is that of the last wait, the one for the row to leave:
    the waits before it turn their timeouts into errors of their
    own. *)
Theorem deleteViaUI_timeout_origin (href : string) now (s : Store) now' s' :
  exec (deleteViaUI self href) now s = (now', s', Thrown E_TIMEOUT) ->
  exists now1 s1,
    exec (confirm_deletion self href) now s = (now1, s1, Returned tt)
    /\ exec (await_row_gone href) now1 s1 = (now', s', Thrown E_TIMEOUT).
Proof.
  unfold deleteViaUI. rewrite exec_bind.
  destruct (exec (confirm_deletion self href) now s) as [[now1 s1] [[]|e|]] eqn:E1.
  - rewrite exec_bind.
    destruct (exec (await_row_gone href) now1 s1) as [[now2 s2] [b|e|]] eqn:E2.
    + rewrite exec_bind.
      destruct (exec_sleep self (afterDeleteWaitMs self) now2 s2)
        as (now3 & s3 & E3 & _).
      rewrite E3. unfold safeCloseMenus. rewrite exec_modify. discriminate.
    + intros E. injection E as <- <- <-.
      exists now1, s1. split; [reflexivity|exact E2].
    + discriminate.
  - intros E. injection E as _ _ ->.
    eapply throws_only_exec in E1;
      [|apply throws_only_confirm_deletion with (P := step_error); discriminate].
    now destruct E1.
  - discriminate.
Qed.

(** X7.  When [deleteViaUI] is rejected with E_ROW, all it has done is
    to look for the row, once or more, until the wait of 3000
    milliseconds was over: nothing was scrolled, nothing clicked. *)
Theorem deleteViaUI_row_not_found (href : string) now (s : Store) now' s' :
  exec (deleteViaUI self href) now s = (now', s', Thrown E_ROW) ->
  3000 < now' - now
  /\ exists k, calls s s' (repeat EvPoll (S k) ++ [EvTimeout 3000]).
Proof.
  unfold deleteViaUI, confirm_deletion.
  rewrite exec_bind, exec_bind, exec_await, exec_catch_null.
  destruct (exec (waitFor (fun s0 => findRowByHref (page s0) href) 3000 default_step)
              now s) as [[now1 s1] [row|e|]] eqn:Ew; cbn [fst snd].
  - rewrite <- exec_bind. intros E. exfalso.
    eapply throws_only_exec with (P := later_error) in E; [now apply E|].
    throws_steps;
      try (apply throws_only_waitFor; discriminate);
      try discriminate.
  - simpl. intros E. injection E as <- <-.
    pose proof Ew as Hlate.
    unfold waitFor in Hlate. rewrite exec_Do in Hlate. cbn [fst snd] in Hlate.
    apply waitFor_loop_settles in Hlate as (_ & _ & Hlate).
    specialize (Hlate e eq_refl).
    pose proof (resume_time_ge now1 now1 s1) as [Hge _].
    split; [lia|].
    pose proof Ew as Hc.
    eapply waitFor_calls in Hc; [|exact default_step_pos].
    destruct Hc as (resolved & tr & Hcalls & [k Hk] & Ho).
    destruct resolved; [destruct Ho; discriminate|].
    exists k. apply calls_tick. rewrite Hk in Hcalls. exact Hcalls.
  - discriminate.
Qed.

(** ** The guards of [runBulkDelete] *)

(** X8.  [runBulkDelete] on a disabled instance, or with nothing
    selected, returns at once and changes nothing: no navigation, no
    change of the bar, no timer. *)
Theorem runBulkDelete_nothing_to_do (fuel : nat) now (s : Store) :
  enabled self = false \/ selected s = [] ->
  exec (runBulkDelete self fuel) now s = (now, s, Returned tt).
Proof.
  intros Hguard. unfold runBulkDelete.
  destruct (enabled self); [|reflexivity].
  destruct Hguard as [Hoff|Hnone]; [discriminate|].
  cbn [negb]. rewrite exec_bind, exec_gets, Hnone. reflexivity.
Qed.

(** ** One item of the run *)

(** X9.  Whatever the deletion of an item does, return or be rejected
    with any error, the body of the worker's loop returns, and it has
    counted the item once as processed and once as a success or as a
    failure, never as both; the index of the next item is as it
    was. *)
Theorem process_item_counts_once (it : string * string) (total : nat)
    now (s : Store) :
  exists now' s',
    exec (process_item self it total) now s = (now', s', Returned tt)
    /\ processed (job s') = S (processed (job s))
    /\ (ok (job s') + fail (job s') = S (ok (job s) + fail (job s)))%nat
    /\ (ok (job s) <= ok (job s'))%nat
    /\ (fail (job s) <= fail (job s'))%nat
    /\ i (job s') = i (job s).
Proof.
  destruct (deleteViaUI_ends self (snd it) now s) as (now1 & s1 & o & E & Ho).
  destruct o as [[]|e|]; [| |congruence].
  - destruct (process_item_returned self it total _ _ E) as (now' & s' & E' & Hj).
    exists now', s'. split; [exact E'|]. rewrite Hj. simpl.
    repeat split; lia.
  - destruct (process_item_rejected self it total _ _ E) as (now' & s' & E' & Hj).
    exists now', s'. split; [exact E'|]. rewrite Hj. simpl.
    repeat split; lia.
Qed.

(** X23.  A worker that runs alone takes the items one after the
    other from the shared index on, until none is left, and returns:
    every item it took is counted once as processed and once as a
    success or as a failure. *)
Theorem worker_alone_processes_all (n : nat) (items : list (string * string)) :
  forall now (s : Store),
    (List.length items - i (job s) <= n)%nat ->
    exists now' s',
      exec (worker self n items) now s = (now', s', Returned tt)
      /\ i (job s') = Nat.max (i (job s)) (List.length items)
      /\ processed (job s')
         = (processed (job s) + (List.length items - i (job s)))%nat
      /\ (ok (job s') + fail (job s')
          = ok (job s) + fail (job s) + (List.length items - i (job s)))%nat.
Proof.
  induction n as [|n IH]; intros now s Hn; cbn [worker]; rewrite exec_Do.
  - destruct (nth_error items (i (job s))) as [it|] eqn:Eit; cbn [fst snd].
    + assert (Hlt : (i (job s) < List.length items)%nat)
        by (apply nth_error_Some; congruence).
      lia.
    + apply nth_error_None in Eit. exists now, s.
      split; [reflexivity|]. lia.
  - destruct (nth_error items (i (job s))) as [it|] eqn:Eit; cbn [fst snd].
    + assert (Hlt : (i (job s) < List.length items)%nat)
        by (apply nth_error_Some; congruence).
      rewrite exec_bind.
      assert (Hitem : exists now1 s1,
                 exec (process_item self it (List.length items)) now (on_job claim s)
                 = (now1, s1, Returned tt)
                 /\ i (job s1) = S (i (job s))
                 /\ processed (job s1) = S (processed (job s))
                 /\ (ok (job s1) + fail (job s1) = S (ok (job s) + fail (job s)))%nat).
      { destruct (deleteViaUI_ends self (snd it) now (on_job claim s))
          as (now1 & s1 & o & E & Ho).
        destruct o as [[]|e|]; [| |congruence].
        - destruct (process_item_returned self it (List.length items) _ _ E)
            as (now' & s' & E' & Hj).
          exists now', s'. split; [exact E'|]. rewrite Hj. simpl.
          repeat split; lia.
        - destruct (process_item_rejected self it (List.length items) _ _ E)
            as (now' & s' & E' & Hj).
          exists now', s'. split; [exact E'|]. rewrite Hj. simpl.
          repeat split; lia. }
      destruct Hitem as (now1 & s1 & E1 & Hi1 & Hp1 & Hc1).
      rewrite E1.
      destruct (IH now1 s1) as (now' & s' & E' & Hi' & Hp' & Hc'); [lia|].
      exists now', s'. split; [exact E'|]. lia.
    + apply nth_error_None in Eit. exists now, s.
      split; [reflexivity|]. lia.
Qed.

End EngineMore.

(** Witness for X3: on the page with three rows, a wait of 100
    milliseconds for a row that is not there. *)
Lemma waitFor_settles_witness :
  let self := new_ChatBulkUI no_options in
  let s := Scenario.start Scenario.three_rows in
  let absent := fun s : Store Scenario.doc => findRowByHref (page s) "/c/zzz-9" in
  (0 < default_step)%Z
  /\ exists now' s' o,
       exec self (waitFor absent 100 default_step) 0 s = (now', s', o)
       /\ o <> OutOfFuel
       /\ (polls (trace s')
           <= polls (trace s) + Z.to_nat (100 / default_step) + 2)%nat
       /\ (forall res, o = Returned res ->
             exists before, s' = record EvPoll before /\ absent before = Some res)
       /\ (forall e, o = Thrown e -> (100 < now' - 0)%Z).
Proof.
  intros self s absent. split; [reflexivity|].
  destruct (exec self (waitFor absent 100 default_step) 0 s) as [[now' s'] o] eqn:E.
  exists now', s', o. split; [reflexivity|].
  exact (@waitFor_settles _ _ self _ absent 100 default_step 0 s now' s' o
           default_step_pos E).
Defined.

(** Witness for X6: the chat that stays in the list after the
    confirmation. *)
Lemma deleteViaUI_timeout_origin_witness :
  let self := Scenario.manager in
  let s := Scenario.start Scenario.sticky_row in
  exists now' s',
    exec self (deleteViaUI self "/c/bbb-2") 0 s = (now', s', Thrown E_TIMEOUT)
    /\ exists now1 s1,
         exec self (confirm_deletion self "/c/bbb-2") 0 s = (now1, s1, Returned tt)
         /\ exec self (await_row_gone "/c/bbb-2") now1 s1
            = (now', s', Thrown E_TIMEOUT).
Proof.
  intros self s.
  set (r := exec self (deleteViaUI self "/c/bbb-2") 0 s).
  assert (Hr : snd r = Thrown E_TIMEOUT) by (vm_compute; reflexivity).
  assert (E : r = (fst (fst r), snd (fst r), Thrown E_TIMEOUT))
    by exact (settled_eta r Hr).
  exists (fst (fst r)), (snd (fst r)). split; [exact E|].
  exact (@deleteViaUI_timeout_origin _ _ self "/c/bbb-2" 0 s _ _ E).
Defined.

(** Witness for X7: a chat that is not in the list. *)
Lemma deleteViaUI_row_not_found_witness :
  let self := Scenario.manager in
  let s := Scenario.start Scenario.three_rows in
  exists now' s',
    exec self (deleteViaUI self "/c/zzz-9") 0 s = (now', s', Thrown E_ROW)
    /\ (3000 < now' - 0)%Z
    /\ exists k, calls s s' (repeat EvPoll (S k) ++ [EvTimeout 3000]).
Proof.
  intros self s.
  set (r := exec self (deleteViaUI self "/c/zzz-9") 0 s).
  assert (Hr : snd r = Thrown E_ROW) by (vm_compute; reflexivity).
  assert (E : r = (fst (fst r), snd (fst r), Thrown E_ROW))
    by exact (settled_eta r Hr).
  exists (fst (fst r)), (snd (fst r)). split; [exact E|].
  exact (@deleteViaUI_row_not_found _ _ self "/c/zzz-9" 0 s _ _ E).
Defined.

(** Witness for X8: the page with three rows, none of them selected. *)
Lemma runBulkDelete_nothing_to_do_witness :
  let self := Scenario.manager in
  let s := set_selected [] (Scenario.start Scenario.three_rows) in
  (enabled self = false \/ selected s = [])
  /\ exec self (runBulkDelete self 10) 0 s = (0%Z, s, Returned tt).
Proof.
  intros self s.
  assert (Hguard : enabled self = false \/ selected s = []) by (right; reflexivity).
  split; [exact Hguard|].
  exact (@runBulkDelete_nothing_to_do _ _ self 10 0%Z s Hguard).
Defined.


(** Witness for X23: the three chats of the page, taken by one worker. *)
Lemma worker_alone_processes_all_witness :
  let self := Scenario.manager in
  let s := Scenario.start Scenario.three_rows in
  let items := selected s in
  (List.length items - i (job s) <= 3)%nat
  /\ exists now' s',
       exec self (worker self 3 items) 0 s = (now', s', Returned tt)
       /\ i (job s') = Nat.max (i (job s)) (List.length items)
       /\ processed (job s')
          = (processed (job s) + (List.length items - i (job s)))%nat
       /\ (ok (job s') + fail (job s')
           = ok (job s) + fail (job s) + (List.length items - i (job s)))%nat.
Proof.
  intros self s items.
  assert (Hn : (List.length items - i (job s) <= 3)%nat) by (vm_compute; lia).
  split; [exact Hn|].
  exact (@worker_alone_processes_all _ _ self 3 items 0%Z s Hn).
Defined.


(* ===================================================================== *)
(** * The event bus *)
(* ===================================================================== *)

Module EventBusFacts.
Import EventBus.

Lemma map_get_set_same type v m : map_get type (map_set type v m) = Some v.
Proof.
  induction m as [|[k w] m IH]; simpl.
  - now rewrite String.eqb_refl.
  - destruct (String.eqb k type) eqn:E; simpl; rewrite E; auto.
Qed.

Lemma map_get_set_other type type' v m :
  type' <> type -> map_get type' (map_set type v m) = map_get type' m.
Proof.
  intros Hne. induction m as [|[k w] m IH]; simpl.
  - destruct (String.eqb_spec type type'); congruence.
  - destruct (String.eqb_spec k type) as [->|Hk]; simpl.
    + destruct (String.eqb_spec type type'); congruence.
    + now rewrite IH.
Qed.

Lemma map_set_set type u v m :
  map_set type v (map_set type u m) = map_set type v m.
Proof.
  induction m as [|[k w] m IH]; simpl.
  - now rewrite String.eqb_refl.
  - destruct (String.eqb k type) eqn:E; simpl; rewrite E; congruence.
Qed.

Lemma listeners_set type type' v m :
  listeners type' (map_set type v m)
  = if String.eqb type' type then v else listeners type' m.
Proof.
  unfold listeners. destruct (String.eqb_spec type' type) as [->|Hne].
  - now rewrite map_get_set_same.
  - now rewrite map_get_set_other.
Qed.

Lemma has_add fn l : has fn (add fn l) = true.
Proof.
  unfold add. destruct (has fn l) eqn:E; [exact E|].
  unfold has. rewrite existsb_app. simpl. rewrite Nat.eqb_refl.
  now rewrite orb_true_r.
Qed.

Lemma add_add fn l : add fn (add fn l) = add fn l.
Proof. unfold add at 1. now rewrite has_add. Qed.

Lemma on_set type fn m :
  on type fn m = map_set type (add fn (listeners type m)) m.
Proof.
  unfold on, listeners. destruct (map_get type m) as [l|] eqn:E.
  - now rewrite E.
  - now rewrite map_get_set_same, map_set_set.
Qed.

Lemma off_listeners_eq type type' fn m :
  listeners type' (off type fn m)
  = if String.eqb type' type then delete fn (listeners type m)
    else listeners type' m.
Proof.
  unfold off. destruct (map_get type m) as [l|] eqn:E.
  - rewrite listeners_set. unfold listeners at 2. now rewrite E.
  - destruct (String.eqb_spec type' type) as [->|Hne]; [|reflexivity].
    unfold listeners. now rewrite E.
Qed.

Lemma delete_fresh fn l : has fn l = false -> delete fn l = l.
Proof.
  unfold has. induction l as [|g l IH]; simpl; [reflexivity|].
  rewrite Nat.eqb_sym. destruct (Nat.eqb g fn); simpl; [discriminate|].
  intros Hl. now rewrite IH.
Qed.

Lemma delete_snoc fn l : has fn l = false -> delete fn (l ++ [fn]) = l.
Proof.
  unfold has. induction l as [|g l IH]; simpl.
  - now rewrite Nat.eqb_refl.
  - rewrite Nat.eqb_sym. destruct (Nat.eqb g fn); simpl; [discriminate|].
    intros Hl. now rewrite IH.
Qed.

Lemma has_In fn l : has fn l = true <-> In fn l.
Proof.
  unfold has. rewrite existsb_exists. split.
  - intros (g & Hin & Heq). apply Nat.eqb_eq in Heq. now subst.
  - intros Hin. exists fn. split; [exact Hin|apply Nat.eqb_refl].
Qed.

Lemma NoDup_add fn l : NoDup l -> NoDup (add fn l).
Proof.
  intros Hl. unfold add. destruct (has fn l) eqn:E; [exact Hl|].
  apply NoDup_app; [exact Hl|repeat constructor; intros []|].
  intros g Hg [<-|[]]. apply has_In in Hg. congruence.
Qed.

Lemma In_delete fn g l : In g (delete fn l) -> In g l.
Proof.
  induction l as [|h l IH]; simpl; [auto|].
  destruct (Nat.eqb h fn); simpl; intuition.
Qed.

Lemma NoDup_delete fn l : NoDup l -> NoDup (delete fn l).
Proof.
  induction 1 as [|h l Hh Hl IH]; simpl; [constructor|].
  destruct (Nat.eqb h fn); [exact Hl|].
  constructor; [|exact IH]. intros Hin. apply Hh. eapply In_delete, Hin.
Qed.

Lemma delete_removes fn l : NoDup l -> ~ In fn (delete fn l).
Proof.
  induction 1 as [|h l Hh Hl IH]; simpl; [auto|].
  destruct (Nat.eqb_spec h fn) as [->|Hne]; [exact Hh|].
  intros [Heq|Hin]; [congruence|auto].
Qed.

Lemma reachable_NoDup m : reachable m -> forall type, NoDup (listeners type m).
Proof.
  induction 1 as [|t fn m Hm IH|t fn m Hm IH]; intros type.
  - constructor.
  - rewrite on_set, listeners_set.
    destruct (String.eqb type t); [apply NoDup_add|]; apply IH.
  - rewrite off_listeners_eq.
    destruct (String.eqb type t); [apply NoDup_delete|]; apply IH.
Qed.

Lemma emit_listeners {Args World : Type} (call : Fn -> Args -> World -> World * bool)
    type args m w :
  emit call type args m w = forEach call (listeners type m) args w [].
Proof. unfold emit, listeners. destruct (map_get type m); reflexivity. Qed.

Lemma forEach_called {Args World : Type} (call : Fn -> Args -> World -> World * bool)
    args : forall l w called,
  exists rest after,
    snd (fst (forEach call l args w called)) = called ++ rest
    /\ l = rest ++ after.
Proof.
  induction l as [|fn l IH]; intros w called; simpl.
  - exists [], []. now rewrite app_nil_r.
  - destruct (call fn args w) as [w' [|]]; simpl.
    + exists [fn], l. auto.
    + destruct (IH w' (called ++ [fn])) as (rest & after & -> & ->).
      exists (fn :: rest), after. now rewrite <- app_assoc.
Qed.

(** X13.  [on(type, fn)] puts the handler after the handlers of the
    type, unless it is one of them already, and then nothing changes:
    to register a handler twice is to register it once.  The handlers
    of the other types stay as they are. *)
Theorem on_registers_once (type type' : string) (fn : Fn) (m : bus) :
  listeners type' (on type fn m)
  = (if String.eqb type' type
     then if has fn (listeners type m) then listeners type m
          else listeners type m ++ [fn]
     else listeners type' m)
  /\ on type fn (on type fn m) = on type fn m.
Proof.
  split.
  - rewrite on_set, listeners_set. reflexivity.
  - rewrite (on_set type fn (on type fn m)).
    rewrite !(on_set type fn m).
    rewrite listeners_set, String.eqb_refl, add_add, map_set_set. reflexivity.
Qed.

(** X14.  [off(type, fn)] takes the handler out of the handlers of the
    type and leaves the others in their order; it changes nothing for
    a handler that is not registered, nor for the other types.  To
    register a new handler and to take it out again is, for every
    event emitted afterwards, as if nothing had been done. *)
Theorem off_unregisters (type type' : string) (fn : Fn) (m : bus) :
  listeners type' (off type fn m)
  = (if String.eqb type' type then delete fn (listeners type m)
     else listeners type' m)
  /\ (has fn (listeners type m) = false ->
      listeners type' (off type fn m) = listeners type' m
      /\ forall (Args World : Type) (call : Fn -> Args -> World -> World * bool)
                args w,
           emit call type' args (off type fn (on type fn m)) w
           = emit call type' args m w).
Proof.
  split; [apply off_listeners_eq|].
  intros Hfresh. split.
  - rewrite off_listeners_eq.
    destruct (String.eqb type' type) eqn:E; [|reflexivity].
    apply String.eqb_eq in E. subst type'. now apply delete_fresh.
  - intros Args World call args w. rewrite !emit_listeners. f_equal.
    rewrite off_listeners_eq, on_set, !listeners_set, String.eqb_refl.
    destruct (String.eqb type' type) eqn:E; [|reflexivity].
    apply String.eqb_eq in E. subst type'.
    unfold add. rewrite Hfresh. now apply delete_snoc.
Qed.

(** X15.  On a bus built with [on] and [off], no handler is twice
    among the handlers of a type, so that an event calls every handler
    at most once, and a handler taken out with [off] is not called any
    more. *)
Theorem emit_calls_once (m : bus) (type : string) (fn : Fn)
    (Args World : Type) (call : Fn -> Args -> World -> World * bool)
    (args : Args) (w : World) :
  reachable m ->
  NoDup (listeners type m)
  /\ NoDup (snd (fst (emit call type args m w)))
  /\ ~ In fn (snd (fst (emit call type args (off type fn m) w))).
Proof.
  intros Hm. pose proof (reachable_NoDup Hm type) as Hnd.
  split; [exact Hnd|]. split.
  - rewrite emit_listeners.
    destruct (forEach_called call args (listeners type m) w [])
      as (rest & after & -> & Hl).
    simpl. rewrite Hl in Hnd. now apply NoDup_app_remove_r in Hnd.
  - rewrite emit_listeners.
    destruct (forEach_called call args (listeners type (off type fn m)) w [])
      as (rest & after & -> & Hl).
    simpl. intros Hin.
    rewrite off_listeners_eq, String.eqb_refl in Hl.
    apply (delete_removes fn Hnd). rewrite Hl. apply in_or_app. now left.
Qed.

End EventBusFacts.

(** Witness for X14: a handler registered for clicks, on a bus that
    knows another one. *)
Lemma off_unregisters_witness :
  let m := EventBus.on "click" 1%nat EventBus.createEventBus in
  EventBus.has 2%nat (EventBus.listeners "click" m) = false
  /\ EventBus.listeners "click" (EventBus.off "click" 2%nat m)
     = EventBus.listeners "click" m
  /\ forall (Args World : Type)
            (call : EventBus.Fn -> Args -> World -> World * bool) args w,
       EventBus.emit call "click" args
         (EventBus.off "click" 2%nat (EventBus.on "click" 2%nat m)) w
       = EventBus.emit call "click" args m w.
Proof.
  intros m.
  assert (Hfresh : EventBus.has 2%nat (EventBus.listeners "click" m) = false)
    by reflexivity.
  split; [exact Hfresh|].
  exact (proj2 (EventBusFacts.off_unregisters "click" "click" 2%nat m) Hfresh).
Defined.

(** Witness for X15: two handlers registered, the first one twice. *)
Lemma emit_calls_once_witness :
  let m := EventBus.on "click" 1%nat
             (EventBus.on "click" 2%nat
                (EventBus.on "click" 1%nat EventBus.createEventBus)) in
  let call := fun (fn : EventBus.Fn) (_ : unit) (w : list nat) => (fn :: w, false) in
  EventBus.reachable m
  /\ NoDup (EventBus.listeners "click" m)
  /\ NoDup (snd (fst (EventBus.emit call "click" tt m [])))
  /\ ~ In 1%nat (snd (fst (EventBus.emit call "click" tt
                            (EventBus.off "click" 1%nat m) []))).
Proof.
  intros m call.
  assert (Hm : EventBus.reachable m) by (repeat constructor).
  split; [exact Hm|].
  exact (@EventBusFacts.emit_calls_once m "click" 1%nat unit (list nat) call tt [] Hm).
Defined.


(* ===================================================================== *)
(** * The order of the modules *)
(* ===================================================================== *)

Module BootstrapFacts.
Import Bootstrap.

Section Config.
Variable orderOverrides : string -> option Z.
Variable enabledModules : string -> option bool.

Local Abbreviation sortModules := (sortModules orderOverrides enabledModules).
Local Abbreviation mapped := (mapped orderOverrides).
Local Abbreviation kept := (kept orderOverrides enabledModules).
Local Abbreviation is_enabled := (is_enabled enabledModules).
Local Abbreviation bootstrap := (bootstrap orderOverrides enabledModules).

Lemma insert_perm m l : Permutation (insert m l) (m :: l).
Proof.
  induction l as [|x l IH]; simpl; [reflexivity|].
  destruct (rank m <=? rank x)%Z; [reflexivity|].
  rewrite IH. apply perm_swap.
Qed.

Lemma sort_perm l : Permutation (sort_by_rank l) l.
Proof.
  induction l as [|m l IH]; simpl; [reflexivity|].
  rewrite insert_perm. now constructor.
Qed.

Lemma insert_sorted m l :
  StronglySorted by_rank l -> StronglySorted by_rank (insert m l).
Proof.
  induction 1 as [|x l Hl IH Hx]; simpl.
  - repeat constructor.
  - destruct (Z.leb_spec (rank m) (rank x)) as [Hle|Hgt].
    + constructor; [now constructor|].
      constructor; [exact Hle|].
      eapply Forall_impl; [|exact Hx]. unfold by_rank. intros a Ha. lia.
    + constructor; [exact IH|].
      eapply Permutation_Forall; [symmetry; apply insert_perm|].
      constructor; [unfold by_rank; lia|exact Hx].
Qed.

Lemma sort_sorted l : StronglySorted by_rank (sort_by_rank l).
Proof.
  induction l as [|m l IH]; simpl; [constructor|].
  now apply insert_sorted.
Qed.

Lemma of_rank_insert r m l :
  of_rank r (insert m l)
  = if (rank m =? r)%Z then m :: of_rank r l else of_rank r l.
Proof.
  unfold of_rank. induction l as [|x l IH]; simpl; [reflexivity|].
  destruct (Z.leb_spec (rank m) (rank x)) as [Hle|Hgt]; simpl; [reflexivity|].
  rewrite IH.
  destruct (Z.eqb_spec (rank m) r) as [Hm|Hm];
    destruct (Z.eqb_spec (rank x) r) as [Hx|Hx]; try reflexivity.
  lia.
Qed.

Lemma of_rank_sort r l : of_rank r (sort_by_rank l) = of_rank r l.
Proof.
  induction l as [|m l IH]; simpl; [reflexivity|].
  rewrite of_rank_insert, IH. unfold of_rank. simpl.
  destruct (rank m =? r)%Z; reflexivity.
Qed.

Lemma in_resolved m b mods :
  In (m, b) (resolved mods)
  <-> exists e, In e mods /\ resolve e = Some m /\ b = read_only e.
Proof.
  unfold resolved. rewrite in_flat_map. split.
  - intros (e & He & Hm). exists e. split; [exact He|].
    destruct (resolve e) as [m1|]; [|destruct Hm].
    destruct Hm as [E|[]]. injection E as -> ->. auto.
  - intros (e & He & Hr & ->). exists e. split; [exact He|].
    rewrite Hr. now left.
Qed.

Lemma in_kept m mods :
  In m (kept mods)
  <-> (exists e m0, In e mods /\ resolve e = Some m0
                    /\ m = override orderOverrides m0)
      /\ enabledModules (id m) <> Some false.
Proof.
  unfold Bootstrap.kept. rewrite filter_In, in_map_iff.
  unfold Bootstrap.is_enabled. split.
  - intros [([m0 b] & <- & Hin) He]. split.
    + apply in_resolved in Hin as (e & He' & Hr & _). exists e, m0. auto.
    + simpl in *.
      destruct (enabledModules (id (override orderOverrides m0))) as [[|]|];
        congruence.
  - intros [(e & m0 & He' & Hr & ->) He]. split.
    + exists (m0, read_only e). split; [reflexivity|].
      apply in_resolved. exists e. auto.
    + destruct (enabledModules (id (override orderOverrides m0))) as [[|]|];
        congruence.
Qed.

Lemma mapped_throws mods :
  mapped mods = None
  <-> exists self, In (Namespace None None self) mods
                   /\ orderOverrides (id self) <> None.
Proof.
  unfold Bootstrap.mapped.
  destruct (existsb (refuses orderOverrides) (resolved mods)) eqn:E.
  - split; [intros _|reflexivity].
    apply existsb_exists in E as ([m b] & Hin & Hr).
    unfold refuses in Hr. simpl in Hr. apply andb_prop in Hr as [-> Ho].
    apply in_resolved in Hin as (e & He & Hres & Hro).
    destruct e as [|[d|] [d'|] self]; try discriminate.
    simpl in Hres. injection Hres as ->.
    exists m. split; [exact He|].
    destruct (orderOverrides (id m)); [discriminate|discriminate].
  - split; [discriminate|]. intros (self & He & Ho). exfalso.
    assert (Hex : existsb (refuses orderOverrides) (resolved mods) = true).
    { apply existsb_exists. exists (self, true). split.
      - apply in_resolved. exists (Namespace None None self). auto.
      - unfold refuses. simpl.
        destruct (orderOverrides (id self)); [reflexivity|congruence]. }
    congruence.
Qed.

Lemma sortModules_some mods l :
  sortModules mods = Some l -> l = sort_by_rank (kept mods).
Proof.
  unfold Bootstrap.sortModules, Bootstrap.mapped, Bootstrap.kept.
  destruct (existsb _ _); [discriminate|]. now intros [= <-].
Qed.


Lemma of_rank_above r l :
  Forall (fun m => (r < rank m)%Z) l -> of_rank r l = [].
Proof.
  unfold of_rank. induction 1 as [|m l Hm Hl IH]; simpl; [reflexivity|].
  destruct (Z.eqb_spec (rank m) r); [lia|exact IH].
Qed.

Lemma of_rank_head a l :
  StronglySorted by_rank (a :: l) ->
  forall r, of_rank r (a :: l)
            = if (rank a =? r)%Z then a :: of_rank r l
              else if (r <? rank a)%Z then [] else of_rank r l.
Proof.
  intros Hs r. unfold of_rank at 1. simpl. fold (of_rank r l).
  destruct (Z.eqb_spec (rank a) r) as [He|Hne]; [reflexivity|].
  destruct (Z.ltb_spec r (rank a)) as [Hlt|Hge]; [|reflexivity].
  apply of_rank_above. apply StronglySorted_inv in Hs as [_ Ha].
  eapply Forall_impl; [|exact Ha]. unfold by_rank. intros m Hm. lia.
Qed.

(** Two lists in order, with the same modules of every rank in the
    same order, are the same list. *)
Lemma sorted_stable_unique l : forall l',
  StronglySorted by_rank l -> StronglySorted by_rank l' ->
  (forall r, of_rank r l = of_rank r l') -> l = l'.
Proof.
  induction l as [|a l IH]; intros l' Hs Hs' Heq.
  - destruct l' as [|b l']; [reflexivity|].
    specialize (Heq (rank b)). unfold of_rank in Heq. simpl in Heq.
    rewrite Z.eqb_refl in Heq. discriminate.
  - destruct l' as [|b l'].
    + specialize (Heq (rank a)). unfold of_rank in Heq. simpl in Heq.
      rewrite Z.eqb_refl in Heq. discriminate.
    + assert (Hab : a = b).
      { pose proof (Heq (rank a)) as Ha. pose proof (Heq (rank b)) as Hb.
        rewrite (of_rank_head Hs), (of_rank_head Hs') in Ha, Hb.
        rewrite Z.eqb_refl in Ha, Hb.
        destruct (Z.eqb_spec (rank b) (rank a)) as [E|NE].
        - congruence.
        - destruct (Z.eqb_spec (rank a) (rank b)); [congruence|].
          destruct (Z.ltb_spec (rank a) (rank b)); [discriminate|].
          destruct (Z.ltb_spec (rank b) (rank a)); [discriminate|lia]. }
      subst b. f_equal.
      apply IH;
        [now apply StronglySorted_inv in Hs
        |now apply StronglySorted_inv in Hs'|].
      intros r. specialize (Heq r).
      rewrite (of_rank_head Hs), (of_rank_head Hs') in Heq.
      destruct (rank a =? r)%Z; [congruence|].
      destruct (r <? rank a)%Z eqn:Hlt; [|exact Heq].
      apply Z.ltb_lt in Hlt.
      rewrite !of_rank_above; [reflexivity| |].
      * apply StronglySorted_inv in Hs' as [_ Ha].
        eapply Forall_impl; [|exact Ha]. unfold by_rank. intros m Hm. lia.
      * apply StronglySorted_inv in Hs as [_ Ha].
        eapply Forall_impl; [|exact Ha]. unfold by_rank. intros m Hm. lia.
Qed.


Lemma init_all_prefix {World : Type} (init : Mod -> World -> World * bool) :
  forall mods w,
    exists rest,
      mods = snd (fst (init_all init mods w)) ++ rest
      /\ match snd (init_all init mods w) with
         | None => rest = []
         | Some m =>
             exists before, snd (fst (init_all init mods w)) = before ++ [m]
         end.
Proof.
  induction mods as [|m mods IH]; intros w; simpl.
  - exists []. auto.
  - destruct (init m w) as [w1 [|]]; simpl.
    + exists mods. split; [reflexivity|]. now exists [].
    + destruct (IH w1) as (rest & Hmods & Hbad).
      destruct (init_all init mods w1) as [[w2 started] bad]. simpl in *.
      exists rest. split; [congruence|].
      destruct bad as [b|]; [|exact Hbad].
      destruct Hbad as [before ->]. now exists (m :: before).
Qed.


End Config.

End BootstrapFacts.

(* ===================================================================== *)
(** * The names of the generated registry *)
(* ===================================================================== *)

Module GenRegistryFacts.
Import GenRegistry.

Lemma varName_fixed name : forallb is_ident_unit name = true -> varName name = name.
Proof.
  unfold varName. induction name as [|c name IH]; simpl; [reflexivity|].
  intros H. apply andb_prop in H as [Hc Hn]. now rewrite Hc, IH.
Qed.

Lemma varName_clean name : forallb is_ident_unit (varName name) = true.
Proof.
  unfold varName. induction name as [|c name IH]; simpl; [reflexivity|].
  rewrite IH, andb_true_r. destruct (is_ident_unit c) eqn:E; [exact E|reflexivity].
Qed.

(** X18.  The name of the variable has as many code units as the name
    of the file, all of them letters, digits, underscores or dollar
    signs; a name made of such units only is its own variable name,
    and any other name shares its variable name with a different name,
    the one in which underscores stand for the other units. *)
Theorem varName_sanitized (name : list code_unit) :
  List.length (varName name) = List.length name
  /\ forallb is_ident_unit (varName name) = true
  /\ varName (varName name) = varName name
  /\ (forallb is_ident_unit name = true <-> varName name = name).
Proof.
  split; [apply length_map|]. split; [apply varName_clean|].
  split; [apply varName_fixed, varName_clean|].
  split; [apply varName_fixed|].
  intros <-. apply varName_clean.
Qed.

End GenRegistryFacts.





(* ===================================================================== *)
(** * Checkboxes and selection *)
(* ===================================================================== *)

Module SelectionFacts.
Import Selection.

Section Sidebar.
Context {P : URL.Platform}.

Lemma with_checkbox_same r : with_checkbox (checkbox r) r = r.
Proof. now destruct r. Qed.

Lemma set_checked_same cb : set_checked (checked cb) cb = cb.
Proof. now destruct cb. Qed.

Lemma href_attach_row r : href_attr (attach_row r) = href_attr r.
Proof.
  unfold attach_row. destruct (checkbox r); [reflexivity|].
  destruct (extractIdFromHref (href_attr r)); reflexivity.
Qed.

Lemma attach_row_has r cb : checkbox r = Some cb -> attach_row r = r.
Proof. unfold attach_row. now intros ->. Qed.

Lemma attach_row_none r :
  extractIdFromHref (href_attr r) = None -> attach_row r = r.
Proof.
  unfold attach_row. intros ->. now destruct (checkbox r).
Qed.

Lemma attach_row_idem r : attach_row (attach_row r) = attach_row r.
Proof.
  destruct r as [h [cb|]]; unfold attach_row; simpl; [reflexivity|].
  destruct (extractIdFromHref h) eqn:Ei; simpl; [reflexivity|].
  now rewrite Ei.
Qed.

Lemma attach_row_box r id :
  extractIdFromHref (href_attr r) = Some id -> checkbox (attach_row r) <> None.
Proof.
  intros Ei. unfold attach_row. rewrite Ei.
  destruct (checkbox r) eqn:Ec; simpl; congruence.
Qed.

Lemma needs_check_attach r : needs_check (attach_row r) = needs_check r.
Proof.
  unfold needs_check. rewrite href_attach_row. unfold attach_row.
  destruct (extractIdFromHref (href_attr r)) eqn:Ei;
    destruct (checkbox r) eqn:Ec; simpl; rewrite ?Ec; reflexivity.
Qed.

Lemma href_check_row r : href_attr (check_row r) = href_attr r.
Proof.
  unfold check_row. destruct (extractIdFromHref (href_attr r)); [|reflexivity].
  destruct (checkbox r); reflexivity.
Qed.

Lemma href_select_row r : href_attr (select_row r) = href_attr r.
Proof. unfold select_row. now rewrite href_check_row, href_attach_row. Qed.

Lemma attach_select_row r : attach_row (select_row r) = select_row r.
Proof.
  destruct (extractIdFromHref (href_attr r)) eqn:Ei.
  - unfold select_row, check_row. rewrite href_attach_row, Ei.
    destruct (checkbox (attach_row r)) as [cb|] eqn:Ec.
    + now apply attach_row_has with (set_checked true cb).
    + apply attach_row_idem.
  - apply attach_row_none. now rewrite href_select_row.
Qed.

Lemma select_row_no_id r :
  extractIdFromHref (href_attr r) = None -> select_row r = r.
Proof.
  intros Ei. unfold select_row. rewrite (attach_row_none _ Ei).
  unfold check_row. now rewrite Ei.
Qed.

Lemma select_row_checked r cb :
  checkbox r = Some cb -> checked cb = true -> select_row r = r.
Proof.
  intros Ec Hc. unfold select_row. rewrite (attach_row_has _ Ec).
  unfold check_row. rewrite Ec.
  destruct (extractIdFromHref (href_attr r)); [|reflexivity].
  rewrite <- Hc, set_checked_same, <- Ec. apply with_checkbox_same.
Qed.

Lemma select_row_idem r : select_row (select_row r) = select_row r.
Proof.
  destruct (extractIdFromHref (href_attr r)) eqn:Ei.
  - destruct (checkbox (attach_row r)) as [cb|] eqn:Ec.
    + assert (E : select_row r
                  = with_checkbox (Some (set_checked true cb)) (attach_row r)).
      { unfold select_row, check_row. now rewrite href_attach_row, Ei, Ec. }
      rewrite E. now apply select_row_checked with (set_checked true cb).
    + now apply (attach_row_box _ Ei) in Ec.
  - now rewrite !(select_row_no_id _ Ei).
Qed.

Lemma needs_check_select_row r : needs_check (select_row r) = false.
Proof.
  unfold needs_check. rewrite href_select_row.
  destruct (extractIdFromHref (href_attr r)) eqn:Ei; [|reflexivity].
  unfold select_row, check_row. rewrite href_attach_row, Ei.
  destruct (checkbox (attach_row r)) as [cb|] eqn:Ec; [reflexivity|].
  now apply (attach_row_box _ Ei) in Ec.
Qed.

Lemma nth_error_mid {A B : Type} (f : A -> B) done x l :
  nth_error (map f done ++ x :: l) (List.length done) = Some x.
Proof.
  rewrite nth_error_app2; rewrite length_map; [|lia].
  now rewrite Nat.sub_diag.
Qed.

Lemma replace_nth_mid {A B : Type} (f : A -> B) done x y l :
  replace_nth (List.length done) y (map f done ++ x :: l)
  = map f done ++ y :: l.
Proof. induction done as [|a done IH]; simpl; [reflexivity|]. now rewrite IH. Qed.

(** One turn of the loop of [selectAll]. *)
Lemma select_step_spec done r0 rest att s any :
  rows s = map select_row done ++ stage att r0 :: map (stage att) rest ->
  exists att' s',
    select_step true (s, any) (List.length done) = (s', (any + (if needs_check r0 then 1 else 0))%nat)
    /\ rows s' = map select_row (done ++ [r0]) ++ map (stage att') rest
    /\ selected s' = choose (selected s) r0.
Proof.
  intros Hrows.
  assert (Hhref : href_attr (stage att r0) = href_attr r0)
    by (destruct att; [apply href_attach_row|reflexivity]).
  assert (Hneeds : needs_check (stage att r0) = needs_check r0)
    by (destruct att; [apply needs_check_attach|reflexivity]).
  assert (Hstage : forall l, map (stage false) l = l)
    by (intros l; apply map_id).
  assert (Hdone : forall l,
             map select_row (done ++ [r0]) ++ l
             = map select_row done ++ select_row r0 :: l).
  { intros l. now rewrite map_app, <- app_assoc. }
  unfold select_step. rewrite Hrows, nth_error_mid, Hhref.
  unfold choose, needs_check in *. rewrite Hhref in Hneeds.
  destruct (extractIdFromHref (href_attr r0)) as [id|] eqn:Ei.
  - destruct (checkbox (stage att r0)) as [cb|] eqn:Ec.
    + (* the row has a checkbox *)
      assert (Hsel : select_row r0
                     = with_checkbox (Some (set_checked true cb)) (stage att r0)).
      { assert (Hatt : attach_row r0 = stage att r0).
        { destruct att; [reflexivity|]. now apply attach_row_has with cb. }
        unfold select_row, check_row. rewrite Hatt, Hhref, Ei, Ec. reflexivity. }
      rewrite Hrows, nth_error_mid, Ec.
      destruct (checked cb) eqn:Hc.
      * eexists att, _.
        split; [rewrite <- Hneeds; cbn [negb]; rewrite Nat.add_0_r; reflexivity|].
        cbn [rows selected]. split; [|reflexivity].
        rewrite Hdone, Hsel, <- Hc, set_checked_same, <- Ec, with_checkbox_same.
        reflexivity.
      * eexists att, _.
        split; [rewrite <- Hneeds; cbn [negb]; rewrite Nat.add_1_r; reflexivity|].
        cbn [rows selected]. split; [|reflexivity].
        rewrite replace_nth_mid, Hdone, Hsel. reflexivity.
    + (* the row has none: checkboxes are attached *)
      assert (Hatt : att = false /\ checkbox r0 = None).
      { destruct att; [|now split].
        now apply (attach_row_box _ Ei) in Ec. }
      destruct Hatt as [-> Ec0].
      assert (Hrows1 : rows (attachCheckboxes true s)
                       = map select_row done
                         ++ attach_row r0 :: map (stage true) rest).
      { unfold attachCheckboxes. cbn [rows]. rewrite Hrows, map_app, map_map.
        cbn [map]. rewrite map_map.
        rewrite (map_ext (fun x => attach_row (select_row x)) select_row)
          by apply attach_select_row.
        reflexivity. }
      assert (Hfresh : attach_row r0
                       = with_checkbox
                           (Some {| checked := false; bound_id := id;
                                    bound_href := href_attr r0 |}) r0).
      { unfold attach_row. now rewrite Ec0, Ei. }
      rewrite Hrows1, nth_error_mid, Hfresh.
      cbn [checkbox with_checkbox checked].
      eexists true, _.
      split; [rewrite <- Hneeds, Nat.add_1_r; reflexivity|].
      cbn [rows selected]. split; [|reflexivity].
      rewrite replace_nth_mid, Hdone. unfold select_row, check_row.
      rewrite Hfresh. cbn [href_attr with_checkbox checkbox]. rewrite Ei.
      reflexivity.
  - exists att, s. rewrite Nat.add_0_r. split; [reflexivity|].
    split; [|reflexivity].
    assert (Hsame : stage att r0 = r0)
      by (destruct att; [now apply attach_row_none|reflexivity]).
    now rewrite Hdone, (select_row_no_id _ Ei), Hrows, Hsame.
Qed.

(** The loop of [selectAll], from any of its turns on. *)
Lemma select_loop : forall rest done att s any,
  rows s = map select_row done ++ map (stage att) rest ->
  exists s',
    fold_left (select_step true)
      (seq (List.length done) (List.length rest)) (s, any)
    = (s', (any + List.length (filter needs_check rest))%nat)
    /\ rows s' = map select_row (done ++ rest)
    /\ selected s' = fold_left choose rest (selected s).
Proof.
  induction rest as [|r0 rest IH]; intros done att s any Hrows.
  - exists s. simpl. rewrite Nat.add_0_r, app_nil_r.
    simpl in Hrows. rewrite app_nil_r in Hrows. auto.
  - cbn [List.length seq fold_left map] in *.
    destruct (select_step_spec done r0 rest att s any Hrows)
      as (att' & s1 & E1 & Hrows1 & Hsel1).
    rewrite E1.
    assert (Hlen : S (List.length done) = List.length (done ++ [r0]))
      by (rewrite length_app; simpl; lia).
    rewrite Hlen.
    destruct (IH (done ++ [r0]) att' s1
                (any + (if needs_check r0 then 1 else 0))%nat Hrows1)
      as (s' & E' & Hrows' & Hsel').
    exists s'. rewrite E', Hrows', Hsel', Hsel1, <- app_assoc.
    split; [|split; reflexivity].
    f_equal. cbn [filter]. destruct (needs_check r0); simpl; lia.
Qed.

Lemma selectAll_spec s :
  selectAll true s
  = ({| rows := map select_row (rows s);
        selected := fold_left choose (rows s) (selected s) |},
     (List.length (filter needs_check (rows s)) =? 0)%nat).
Proof.
  unfold selectAll.
  destruct (select_loop (rows s) [] false s 0) as (s' & E & Hrows & Hsel).
  - simpl. now rewrite map_id.
  - cbn [List.length] in E. rewrite E. cbn [Nat.add].
    f_equal. destruct s' as [rs sel]. simpl in *. congruence.
Qed.

(** X19.  On an enabled instance [attachCheckboxes] gives a checkbox,
    not checked, to every row that has an identifier and no checkbox
    yet; the rows that have a checkbox keep it as it is, the rows
    without identifier get none, and the selection is not touched.
    To attach twice is to attach once.  On a disabled instance
    nothing happens. *)
Theorem attachCheckboxes_once (s : Panel) :
  attachCheckboxes true (attachCheckboxes true s) = attachCheckboxes true s
  /\ selected (attachCheckboxes true s) = selected s
  /\ Forall2 (fun r r' =>
                href_attr r' = href_attr r
                /\ (checkbox r <> None -> r' = r)
                /\ (checkbox r = None ->
                    checkbox r'
                    = option_map (fun id => {| checked := false; bound_id := id;
                                               bound_href := href_attr r |})
                        (extractIdFromHref (href_attr r))))
       (rows s) (rows (attachCheckboxes true s))
  /\ attachCheckboxes false s = s.
Proof.
  split; [|split; [reflexivity|split; [|reflexivity]]].
  - unfold attachCheckboxes. cbn [rows selected]. f_equal.
    rewrite map_map. apply map_ext, attach_row_idem.
  - unfold attachCheckboxes. cbn [rows].
    induction (rows s) as [|r l IH]; simpl; constructor; [|exact IH].
    split; [apply href_attach_row|]. split.
    + intros Hc. destruct (checkbox r) as [cb|] eqn:Ec; [|congruence].
      now apply attach_row_has with cb.
    + intros Ec. unfold attach_row. rewrite Ec.
      destruct (extractIdFromHref (href_attr r)); simpl;
        [reflexivity|exact Ec].
Qed.

(** X20.  On an enabled instance, after [selectAll] every row that
    has an identifier carries a checked checkbox, the one it had or a
    new one, and the rows without identifier are as they were; the
    selection has got, row after row, the identifier of every such
    row with the href of the row; the message that there is nothing
    to select is flashed exactly when no checkbox had to be checked.
    A second [selectAll] changes no row and flashes that message. *)
Theorem selectAll_checks_all (s : Panel) :
  rows (fst (selectAll true s)) = map select_row (rows s)
  /\ selected (fst (selectAll true s)) = fold_left choose (rows s) (selected s)
  /\ snd (selectAll true s) = negb (existsb needs_check (rows s))
  /\ Forall (fun r => forall id,
               extractIdFromHref (href_attr r) = Some id ->
               exists cb, checkbox r = Some cb /\ checked cb = true)
       (rows (fst (selectAll true s)))
  /\ rows (fst (selectAll true (fst (selectAll true s))))
     = rows (fst (selectAll true s))
  /\ snd (selectAll true (fst (selectAll true s))) = true.
Proof.
  rewrite !selectAll_spec. cbn [fst snd rows selected].
  split; [reflexivity|]. split; [reflexivity|].
  assert (Hcount : forall l,
             (List.length (filter needs_check l) =? 0)%nat
             = negb (existsb needs_check l)).
  { induction l as [|r l IH]; simpl; [reflexivity|].
    destruct (needs_check r); simpl; [reflexivity|exact IH]. }
  split; [apply Hcount|]. split; [|split].
  - apply Forall_forall. intros r Hin id Hid.
    apply in_map_iff in Hin as (r0 & <- & _).
    rewrite href_select_row in Hid.
    unfold select_row, check_row. rewrite href_attach_row, Hid.
    destruct (checkbox (attach_row r0)) as [cb|] eqn:Ec.
    + exists (set_checked true cb). split; reflexivity.
    + now apply (attach_row_box _ Hid) in Ec.
  - rewrite map_map. apply map_ext, select_row_idem.
  - rewrite Hcount. apply negb_true_iff.
    induction (rows s) as [|r l IH]; simpl; [reflexivity|].
    now rewrite needs_check_select_row, IH.
Qed.

(** ** The selection and the checkboxes *)

Lemma in_map_set id h k v m :
  In (id, h) (map_set k v m) -> (id = k /\ h = v) \/ In (id, h) m.
Proof.
  induction m as [|[k' v'] m IH]; simpl.
  - intros [E|[]]. injection E as <- <-. now left.
  - destruct (String.eqb_spec k' k) as [->|Hne]; simpl.
    + intros [E|Hin]; [injection E as <- <-; now left|now right; right].
    + intros [E|Hin]; [now right; left|].
      destruct (IH Hin) as [Hnew|Hold]; [now left|now right; right].
Qed.

Lemma in_delete_key id h k m :
  In (id, h) (delete_key k m) -> id <> k /\ In (id, h) m.
Proof.
  unfold delete_key. rewrite filter_In. simpl. intros [Hin Hne].
  split; [|exact Hin]. apply negb_true_iff in Hne.
  now apply String.eqb_neq in Hne.
Qed.

Lemma in_fold_choose id h : forall l m,
  In (id, h) (fold_left choose l m) ->
  In (id, h) m
  \/ exists r, In r l /\ extractIdFromHref (href_attr r) = Some id
               /\ h = href_attr r.
Proof.
  induction l as [|r l IH]; intros m; simpl; [now left|].
  intros Hin. destruct (IH _ Hin) as [Hm|(r' & Hr' & Hid & Hh)].
  - unfold choose in Hm.
    destruct (extractIdFromHref (href_attr r)) as [k|] eqn:Ek; [|now left].
    destruct (in_map_set _ _ _ _ _ Hm) as [[-> ->]|Hold]; [|now left].
    right. exists r. auto.
  - right. exists r'. auto.
Qed.

Lemma in_replace_nth {A : Type} (x old new : A) : forall k l,
  nth_error l k = Some old -> In x l -> x <> old ->
  In x (replace_nth k new l).
Proof.
  induction k as [|k IH]; intros [|a l]; simpl; try discriminate.
  - intros E [Ha|Hin] Hne; [congruence|now right].
  - intros E [Ha|Hin] Hne; [now left|right; now apply IH].
Qed.

Lemma in_replace_nth_new {A : Type} (old new : A) : forall k l,
  nth_error l k = Some old -> In new (replace_nth k new l).
Proof.
  induction k as [|k IH]; intros [|a l]; simpl; try discriminate.
  - intros _. now left.
  - intros E. right. now apply IH.
Qed.

Lemma Forall_replace_nth {A : Type} (Q : A -> Prop) (new : A) : forall k l,
  Forall Q l -> Q new -> Forall Q (replace_nth k new l).
Proof.
  induction k as [|k IH]; intros [|a l] Hl Hn; simpl; try constructor;
    inversion Hl; subst; auto.
Qed.

Lemma well_bound_attach_row r : well_bound r -> well_bound (attach_row r).
Proof.
  intros Hr. unfold attach_row.
  destruct (checkbox r) as [cb|] eqn:Ec; [exact Hr|].
  destruct (extractIdFromHref (href_attr r)) as [id|] eqn:Ei; [|exact Hr].
  intros cb. simpl. intros E. injection E as <-. simpl. auto.
Qed.

Lemma well_bound_set_checked r cb v :
  well_bound r -> checkbox r = Some cb ->
  well_bound (with_checkbox (Some (set_checked v cb)) r).
Proof.
  intros Hr Ec cb'. simpl. intros E. injection E as <-. simpl.
  now apply Hr.
Qed.

Lemma well_bound_select_row r : well_bound r -> well_bound (select_row r).
Proof.
  intros Hr. apply well_bound_attach_row in Hr.
  unfold select_row, check_row.
  destruct (extractIdFromHref (href_attr (attach_row r))); [|exact Hr].
  destruct (checkbox (attach_row r)) as [cb|] eqn:Ec; [|exact Hr].
  now apply well_bound_set_checked.
Qed.

(** What holds of every panel that can be reached. *)
Lemma reachable_inv s :
  reachable true s ->
  Forall well_bound (rows s)
  /\ forall id h, In (id, h) (selected s) ->
       exists r cb, In r (rows s) /\ checkbox r = Some cb
                    /\ checked cb = true /\ bound_id cb = id
                    /\ href_attr r = h.
Proof.
  induction 1 as [hrefs|s Hs [Hwf Hsel]|k s Hs [Hwf Hsel]|s Hs [Hwf Hsel]
                 |s Hs [Hwf Hsel]|s Hs [Hwf Hsel]].
  - split; [|intros id h []].
    apply Forall_forall. intros r Hin.
    apply in_map_iff in Hin as (h & <- & _). intros cb. discriminate.
  - unfold attachCheckboxes. cbn [rows selected]. split.
    + apply Forall_forall. intros r Hin.
      apply in_map_iff in Hin as (r0 & <- & Hin).
      apply well_bound_attach_row.
      exact (proj1 (Forall_forall _ _) Hwf _ Hin).
    + intros id h Hin.
      destruct (Hsel id h Hin) as (r & cb & Hr & Ec & Hc & Hid & Hh).
      exists r, cb. split; [|repeat split; assumption].
      apply in_map_iff. exists r. split; [|exact Hr].
      now apply attach_row_has with cb.
  - unfold toggle.
    destruct (nth_error (rows s) k) as [r|] eqn:Ek; [|now split].
    destruct (checkbox r) as [cb|] eqn:Ec; [|now split].
    cbn [rows selected].
    assert (Hr : well_bound r).
    { apply nth_error_In in Ek. exact (proj1 (Forall_forall _ _) Hwf _ Ek). }
    split.
    + apply Forall_replace_nth; [exact Hwf|].
      now apply well_bound_set_checked.
    + intros id h Hin. destruct (checked cb) eqn:Hc; cbn [negb] in Hin.
      * apply in_delete_key in Hin as [Hne Hin].
        destruct (Hsel id h Hin) as (r' & cb' & Hr' & Ec' & Hc' & Hid' & Hh').
        exists r', cb'. split; [|repeat split; assumption].
        apply in_replace_nth with (old := r); [exact Ek|exact Hr'|].
        intros ->. congruence.
      * apply in_map_set in Hin as [[-> ->]|Hin].
        -- exists (with_checkbox (Some (set_checked true cb)) r),
                  (set_checked true cb).
           split; [now apply in_replace_nth_new with (old := r)|].
           split; [reflexivity|]. split; [reflexivity|].
           split; [reflexivity|]. simpl.
           destruct (Hr cb Ec) as [_ Hb]. now symmetry.
        -- destruct (Hsel id h Hin) as (r' & cb' & Hr' & Ec' & Hc' & Hid' & Hh').
           exists r', cb'. split; [|repeat split; assumption].
           apply in_replace_nth with (old := r); [exact Ek|exact Hr'|].
           intros ->. congruence.
  - rewrite selectAll_spec. cbn [fst rows selected]. split.
    + apply Forall_forall. intros r Hin.
      apply in_map_iff in Hin as (r0 & <- & Hin).
      apply well_bound_select_row.
      exact (proj1 (Forall_forall _ _) Hwf _ Hin).
    + intros id h Hin.
      apply in_fold_choose in Hin as [Hin|(r & Hr & Hid & ->)].
      * destruct (Hsel id h Hin) as (r & cb & Hr & Ec & Hc & Hid & Hh).
        exists r, cb. split; [|repeat split; assumption].
        apply in_map_iff. exists r. split; [|exact Hr].
        now apply select_row_checked with cb.
      * assert (Hwr : well_bound (attach_row r)).
        { apply well_bound_attach_row.
          exact (proj1 (Forall_forall _ _) Hwf _ Hr). }
        destruct (checkbox (attach_row r)) as [cb|] eqn:Ec;
          [|now apply (attach_row_box _ Hid) in Ec].
        exists (select_row r), (set_checked true cb).
        split; [apply in_map; exact Hr|].
        split; [unfold select_row, check_row;
                now rewrite href_attach_row, Hid, Ec|].
        split; [reflexivity|].
        split; [|apply href_select_row]. simpl.
        destruct (Hwr cb Ec) as [Hb _]. rewrite href_attach_row in Hb.
        congruence.
  - cbn [clearSelection rows selected]. split; [|intros id h []].
    apply Forall_forall. intros r Hin.
    apply in_map_iff in Hin as (r0 & <- & Hin).
    assert (Hr0 : well_bound r0) by exact (proj1 (Forall_forall _ _) Hwf _ Hin).
    destruct (checkbox r0) as [cb|] eqn:Ec; simpl.
    + now apply well_bound_set_checked.
    + intros cb. simpl. discriminate.
  - cbn [detach rows selected]. split; [|intros id h []].
    apply Forall_forall. intros r Hin.
    apply in_map_iff in Hin as (r0 & <- & Hin). intros cb. discriminate.
Qed.

(** X21.  On an enabled instance, whatever the user does with the
    checkboxes and the buttons of the bar, as long as the host
    leaves the rows alone: every entry of the selection, the
    identifier and the href [runBulkDelete] would work with, is the
    identifier and the href of a row of the sidebar whose checkbox
    is checked. *)
Theorem selected_are_checked (s : Panel) (id h : string) :
  reachable true s ->
  In (id, h) (selected s) ->
  exists r cb,
    In r (rows s) /\ checkbox r = Some cb /\ checked cb = true
    /\ extractIdFromHref (href_attr r) = Some id
    /\ href_attr r = h.
Proof.
  intros Hs Hin. destruct (reachable_inv Hs) as [Hwf Hsel].
  destruct (Hsel id h Hin) as (r & cb & Hr & Ec & Hc & Hid & Hh).
  exists r, cb. split; [exact Hr|]. split; [exact Ec|]. split; [exact Hc|].
  split; [|exact Hh].
  assert (Hwr : well_bound r) by exact (proj1 (Forall_forall _ _) Hwf _ Hr).
  destruct (Hwr cb Ec) as [Hb _]. congruence.
Qed.

End Sidebar.

End SelectionFacts.

(** Witness for X21: two rows, one of them a chat; the user checks the
    chat. *)
Lemma selected_are_checked_witness :
  let start := {| Selection.rows :=
                    map (fun h => {| Selection.href_attr := h;
                                     Selection.checkbox := None |})
                        ["/c/aaa-1"%string; "/gpts"%string];
                  Selection.selected := [] |} in
  let s := @Selection.toggle 0
             (@Selection.attachCheckboxes URL.https_page true start) in
  @Selection.reachable URL.https_page true s
  /\ In ("aaa-1"%string, "/c/aaa-1"%string) (Selection.selected s)
  /\ exists r cb,
       In r (Selection.rows s) /\ Selection.checkbox r = Some cb
       /\ Selection.checked cb = true
       /\ @extractIdFromHref URL.https_page (Selection.href_attr r)
          = Some "aaa-1"%string
       /\ Selection.href_attr r = "/c/aaa-1"%string.
Proof.
  intros start s.
  assert (Hs : @Selection.reachable URL.https_page true s).
  { apply Selection.reach_toggle, Selection.reach_attach.
    exact (@Selection.reach_start URL.https_page true
             ["/c/aaa-1"%string; "/gpts"%string]). }
  assert (Hin : In ("aaa-1"%string, "/c/aaa-1"%string) (Selection.selected s))
    by (vm_compute; left; reflexivity).
  split; [exact Hs|]. split; [exact Hin|].
  exact (@SelectionFacts.selected_are_checked URL.https_page s _ _ Hs Hin).
Defined.
